(** * AeroHack cube solver: state model, move engine, heuristic and A* search

    A shallow embedding of [lib/cube-solver.ts], of the handlers of
    [page.tsx] (manual input, scramble, solve, playing a solution) and of the
    cubelet colouring of [components/rubiks-cube.tsx], with the properties
    the design document states about them and further properties of the code.

    Conventions of the embedding.
    - A facelet is a JavaScript value: an integer number ([VNum]) or
      [undefined] ([VUndef]), the latter only arising from a read past the end
      of an array.  Facelets are small integers in every state the program
      builds itself; floating point values are not modelled.
    - A JavaScript [TypeError] (indexing [undefined]) is the [None] of an
      option: every function that can raise returns an option.
    - Arrays are lists; a write past the end grows the array as JavaScript
      does.
    - The move engine is written once, over an interface of facelet reads and
      writes on [newCube], and run on two stores: on the plain grid of
      facelets, and on a heap of objects and arrays with references, which is
      where aliasing can be stated.
    - React state is a record that the handlers transform; an interval is a
      record of what its callback closes over, and the clicks and firings are
      events handled one at a time. *)

From Stdlib Require Import ZArith String Ascii List Lia.
From stdpp Require Import base option list sorting gmap strings pretty.

Local Open Scope Z_scope.

(** ** Values and cube states *)

Inductive value : Type :=
  | VNum (n : Z)
  | VUndef.

#[global] Instance value_eq_dec : EqDecision value.
Proof. solve_decision. Defined.

(** [interface CubeState { faces: number[][] }] *)
Abbreviation Face := (list value).
Abbreviation CubeState := (list Face).

(** The shape the data model prescribes: six faces of nine facelets. *)
Definition wellFormed (s : CubeState) : Prop :=
  length s = 6%nat ∧ Forall (λ f : Face, length f = 9%nat) s.

#[global] Instance wellFormed_dec s : Decision (wellFormed s).
Proof. unfold wellFormed. apply _. Defined.

(** [arr[i]] as an rvalue: [undefined] past the end. *)
Definition arrayGet (arr : Face) (i : nat) : value :=
  default VUndef (arr !! i).

(** [arr[i] = v]: in range it overwrites, past the end it grows the array,
    leaving the skipped slots reading [undefined]. *)
Definition arraySet (arr : Face) (i : nat) (v : value) : Face :=
  if decide (i < length arr)%nat then <[i := v]> arr
  else arr ++ replicate (i - length arr) VUndef ++ [v].

(** [createSolvedCube] *)
Definition createSolvedCube : CubeState :=
  (λ i : nat, replicate 9 (VNum (Z.of_nat i))) <$> seq 0 6.

(** ** Computations on a store that may raise *)

Definition Op (S A : Type) : Type := S → option (A * S).

Definition ret {S A} (a : A) : Op S A := λ s, Some (a, s).

Definition throw {S A} : Op S A := λ _, None.

Definition bind {S A B} (c : Op S A) (k : A → Op S B) : Op S B :=
  λ s, match c s with
       | Some (a, s') => k a s'
       | None => None
       end.

Declare Scope op_scope.
Delimit Scope op_scope with op.
Notation "x ← y ; z" := (bind y (λ x, z))
  (at level 20, y at level 100, z at level 200, only parsing) : op_scope.
Notation "x ;; z" := (bind x (λ _, z))
  (at level 100, z at level 200, only parsing, right associativity) : op_scope.

(** ** The move engine *)

(** What the body of [applyMove] does to [newCube]: it reads
    [newCube.faces[f][i]], assigns to it, and spreads one face into a
    temporary array. *)
Class FaceStore (S : Type) : Type := {
  readFacelet : nat → nat → Op S value;
  writeFacelet : nat → nat → value → Op S unit;
  spreadFace : nat → Op S (list value)
}.

Section MoveEngine.
Context {St : Type} `{FaceStore St}.
Local Open Scope op_scope.

(** [newCube.faces[f][i] = rhs] *)
Definition assign (f i : nat) (rhs : Op St value) : Op St unit :=
  v ← rhs ; writeFacelet f i v.

(** [for (let i = 0; i < perm.length; i++) face[i] = temp[perm[i]]],
    from index [i] on. *)
Fixpoint permuteFrom (f : nat) (temp : list value) (i : nat)
    (perm : list nat) : Op St unit :=
  match perm with
  | [] => ret tt
  | p :: perm' =>
      writeFacelet f i (arrayGet temp p) ;; permuteFrom f temp (S i) perm'
  end.

(** [applyPermutation(newCube.faces[f], perm)]: it permutes the face in
    place. *)
Definition applyPermutation (f : nat) (perm : list nat) : Op St unit :=
  temp ← spreadFace f ; permuteFrom f temp 0 perm.

Definition facePermutation : list nat := [6; 3; 0; 7; 4; 1; 8; 5; 2]%nat.
Definition facePermutationPrime : list nat := [2; 5; 8; 1; 4; 7; 0; 3; 6]%nat.
Definition facePermutation2 : list nat := [8; 7; 6; 5; 4; 3; 2; 1; 0]%nat.

(** [const temp = [newCube.faces[f][a], newCube.faces[f][b], newCube.faces[f][c]]] *)
Definition readTriple (f a b c : nat) : Op St (value * value * value) :=
  x ← readFacelet f a ; y ← readFacelet f b ; z ← readFacelet f c ;
  ret (x, y, z).

Definition case_U : Op St unit :=
  applyPermutation 0 facePermutation ;;
  temp ← readTriple 1 0 1 2 ;
  assign 1 0 (readFacelet 2 0) ;;
  assign 1 1 (readFacelet 2 1) ;;
  assign 1 2 (readFacelet 2 2) ;;
  assign 2 0 (readFacelet 3 0) ;;
  assign 2 1 (readFacelet 3 1) ;;
  assign 2 2 (readFacelet 3 2) ;;
  assign 3 0 (readFacelet 4 0) ;;
  assign 3 1 (readFacelet 4 1) ;;
  assign 3 2 (readFacelet 4 2) ;;
  assign 4 0 (ret temp.1.1) ;;
  assign 4 1 (ret temp.1.2) ;;
  assign 4 2 (ret temp.2).

Definition case_U' : Op St unit :=
  applyPermutation 0 facePermutationPrime ;;
  temp ← readTriple 1 0 1 2 ;
  assign 1 0 (readFacelet 4 0) ;;
  assign 1 1 (readFacelet 4 1) ;;
  assign 1 2 (readFacelet 4 2) ;;
  assign 4 0 (readFacelet 3 0) ;;
  assign 4 1 (readFacelet 3 1) ;;
  assign 4 2 (readFacelet 3 2) ;;
  assign 3 0 (readFacelet 2 0) ;;
  assign 3 1 (readFacelet 2 1) ;;
  assign 3 2 (readFacelet 2 2) ;;
  assign 2 0 (ret temp.1.1) ;;
  assign 2 1 (ret temp.1.2) ;;
  assign 2 2 (ret temp.2).

Definition case_U2 : Op St unit :=
  applyPermutation 0 facePermutation2 ;;
  temp ← readTriple 1 0 1 2 ;
  assign 1 0 (readFacelet 3 0) ;;
  assign 1 1 (readFacelet 3 1) ;;
  assign 1 2 (readFacelet 3 2) ;;
  assign 3 0 (ret temp.1.1) ;;
  assign 3 1 (ret temp.1.2) ;;
  assign 3 2 (ret temp.2) ;;
  temp2 ← readTriple 2 0 1 2 ;
  assign 2 0 (readFacelet 4 0) ;;
  assign 2 1 (readFacelet 4 1) ;;
  assign 2 2 (readFacelet 4 2) ;;
  assign 4 0 (ret temp2.1.1) ;;
  assign 4 1 (ret temp2.1.2) ;;
  assign 4 2 (ret temp2.2).

Definition case_D : Op St unit :=
  applyPermutation 5 facePermutation ;;
  temp ← readTriple 1 6 7 8 ;
  assign 1 6 (readFacelet 4 6) ;;
  assign 1 7 (readFacelet 4 7) ;;
  assign 1 8 (readFacelet 4 8) ;;
  assign 4 6 (readFacelet 3 6) ;;
  assign 4 7 (readFacelet 3 7) ;;
  assign 4 8 (readFacelet 3 8) ;;
  assign 3 6 (readFacelet 2 6) ;;
  assign 3 7 (readFacelet 2 7) ;;
  assign 3 8 (readFacelet 2 8) ;;
  assign 2 6 (ret temp.1.1) ;;
  assign 2 7 (ret temp.1.2) ;;
  assign 2 8 (ret temp.2).

Definition case_D' : Op St unit :=
  applyPermutation 5 facePermutationPrime ;;
  temp ← readTriple 1 6 7 8 ;
  assign 1 6 (readFacelet 2 6) ;;
  assign 1 7 (readFacelet 2 7) ;;
  assign 1 8 (readFacelet 2 8) ;;
  assign 2 6 (readFacelet 3 6) ;;
  assign 2 7 (readFacelet 3 7) ;;
  assign 2 8 (readFacelet 3 8) ;;
  assign 3 6 (readFacelet 4 6) ;;
  assign 3 7 (readFacelet 4 7) ;;
  assign 3 8 (readFacelet 4 8) ;;
  assign 4 6 (ret temp.1.1) ;;
  assign 4 7 (ret temp.1.2) ;;
  assign 4 8 (ret temp.2).

Definition case_D2 : Op St unit :=
  applyPermutation 5 facePermutation2 ;;
  temp ← readTriple 1 6 7 8 ;
  assign 1 6 (readFacelet 3 6) ;;
  assign 1 7 (readFacelet 3 7) ;;
  assign 1 8 (readFacelet 3 8) ;;
  assign 3 6 (ret temp.1.1) ;;
  assign 3 7 (ret temp.1.2) ;;
  assign 3 8 (ret temp.2) ;;
  temp2 ← readTriple 2 6 7 8 ;
  assign 2 6 (readFacelet 4 6) ;;
  assign 2 7 (readFacelet 4 7) ;;
  assign 2 8 (readFacelet 4 8) ;;
  assign 4 6 (ret temp2.1.1) ;;
  assign 4 7 (ret temp2.1.2) ;;
  assign 4 8 (ret temp2.2).

Definition case_R : Op St unit :=
  applyPermutation 3 facePermutation ;;
  temp ← readTriple 0 2 5 8 ;
  assign 0 2 (readFacelet 2 2) ;;
  assign 0 5 (readFacelet 2 5) ;;
  assign 0 8 (readFacelet 2 8) ;;
  assign 2 2 (readFacelet 5 2) ;;
  assign 2 5 (readFacelet 5 5) ;;
  assign 2 8 (readFacelet 5 8) ;;
  assign 5 2 (readFacelet 4 6) ;;
  assign 5 5 (readFacelet 4 3) ;;
  assign 5 8 (readFacelet 4 0) ;;
  assign 4 6 (ret temp.1.1) ;;
  assign 4 3 (ret temp.1.2) ;;
  assign 4 0 (ret temp.2).

Definition case_R' : Op St unit :=
  applyPermutation 3 facePermutationPrime ;;
  temp ← readTriple 0 2 5 8 ;
  assign 0 2 (readFacelet 4 6) ;;
  assign 0 5 (readFacelet 4 3) ;;
  assign 0 8 (readFacelet 4 0) ;;
  assign 4 6 (readFacelet 5 2) ;;
  assign 4 3 (readFacelet 5 5) ;;
  assign 4 0 (readFacelet 5 8) ;;
  assign 5 2 (readFacelet 2 2) ;;
  assign 5 5 (readFacelet 2 5) ;;
  assign 5 8 (readFacelet 2 8) ;;
  assign 2 2 (ret temp.1.1) ;;
  assign 2 5 (ret temp.1.2) ;;
  assign 2 8 (ret temp.2).

Definition case_R2 : Op St unit :=
  applyPermutation 3 facePermutation2 ;;
  temp ← readTriple 0 2 5 8 ;
  assign 0 2 (readFacelet 5 2) ;;
  assign 0 5 (readFacelet 5 5) ;;
  assign 0 8 (readFacelet 5 8) ;;
  assign 5 2 (ret temp.1.1) ;;
  assign 5 5 (ret temp.1.2) ;;
  assign 5 8 (ret temp.2) ;;
  temp2 ← readTriple 2 2 5 8 ;
  assign 2 2 (readFacelet 4 6) ;;
  assign 2 5 (readFacelet 4 3) ;;
  assign 2 8 (readFacelet 4 0) ;;
  assign 4 6 (ret temp2.1.1) ;;
  assign 4 3 (ret temp2.1.2) ;;
  assign 4 0 (ret temp2.2).

Definition case_L : Op St unit :=
  applyPermutation 1 facePermutation ;;
  temp ← readTriple 0 0 3 6 ;
  assign 0 0 (readFacelet 4 8) ;;
  assign 0 3 (readFacelet 4 5) ;;
  assign 0 6 (readFacelet 4 2) ;;
  assign 4 8 (readFacelet 5 0) ;;
  assign 4 5 (readFacelet 5 3) ;;
  assign 4 2 (readFacelet 5 6) ;;
  assign 5 0 (readFacelet 2 0) ;;
  assign 5 3 (readFacelet 2 3) ;;
  assign 5 6 (readFacelet 2 6) ;;
  assign 2 0 (ret temp.1.1) ;;
  assign 2 3 (ret temp.1.2) ;;
  assign 2 6 (ret temp.2).

Definition case_L' : Op St unit :=
  applyPermutation 1 facePermutationPrime ;;
  temp ← readTriple 0 0 3 6 ;
  assign 0 0 (readFacelet 2 0) ;;
  assign 0 3 (readFacelet 2 3) ;;
  assign 0 6 (readFacelet 2 6) ;;
  assign 2 0 (readFacelet 5 0) ;;
  assign 2 3 (readFacelet 5 3) ;;
  assign 2 6 (readFacelet 5 6) ;;
  assign 5 0 (readFacelet 4 8) ;;
  assign 5 3 (readFacelet 4 5) ;;
  assign 5 6 (readFacelet 4 2) ;;
  assign 4 8 (ret temp.1.1) ;;
  assign 4 5 (ret temp.1.2) ;;
  assign 4 2 (ret temp.2).

Definition case_L2 : Op St unit :=
  applyPermutation 1 facePermutation2 ;;
  temp ← readTriple 0 0 3 6 ;
  assign 0 0 (readFacelet 5 0) ;;
  assign 0 3 (readFacelet 5 3) ;;
  assign 0 6 (readFacelet 5 6) ;;
  assign 5 0 (ret temp.1.1) ;;
  assign 5 3 (ret temp.1.2) ;;
  assign 5 6 (ret temp.2) ;;
  temp2 ← readTriple 2 0 3 6 ;
  assign 2 0 (readFacelet 4 8) ;;
  assign 2 3 (readFacelet 4 5) ;;
  assign 2 6 (readFacelet 4 2) ;;
  assign 4 8 (ret temp2.1.1) ;;
  assign 4 5 (ret temp2.1.2) ;;
  assign 4 2 (ret temp2.2).

(** [switch (move) { case "U": ... }]: strict comparison with each label in
    turn, and no default branch. *)
Definition switchMove (move : string) : Op St unit :=
  if String.eqb move "U" then case_U
  else if String.eqb move "U'" then case_U'
  else if String.eqb move "U2" then case_U2
  else if String.eqb move "D" then case_D
  else if String.eqb move "D'" then case_D'
  else if String.eqb move "D2" then case_D2
  else if String.eqb move "R" then case_R
  else if String.eqb move "R'" then case_R'
  else if String.eqb move "R2" then case_R2
  else if String.eqb move "L" then case_L
  else if String.eqb move "L'" then case_L'
  else if String.eqb move "L2" then case_L2
  else ret tt.
End MoveEngine.

(** *** The move engine on a grid of facelets *)

#[global] Instance grid_store : FaceStore CubeState := {
  readFacelet f i := λ s,
    match s !! f with
    | Some face => Some (arrayGet face i, s)
    | None => None
    end;
  writeFacelet f i v := λ s,
    match s !! f with
    | Some face => Some (tt, <[f := arraySet face i v]> s)
    | None => None
    end;
  spreadFace f := λ s,
    match s !! f with
    | Some face => Some (face, s)
    | None => None
    end
}.

(** [applyMove]: [newCube] starts as a copy of every face of [cube], the
    switch updates it, and it is returned. *)
Definition applyMove (cube : CubeState) (move : string) : option CubeState :=
  let newCube : CubeState := (λ face : Face, face) <$> cube in
  snd <$> switchMove move newCube.

Definition validMoves : list string :=
  ["U"; "U'"; "U2"; "D"; "D'"; "D2"; "R"; "R'"; "R2"; "L"; "L'"; "L2"]%string.

(** Applying a sequence of moves in order, as the callers' loops do
    ([state = applyMove(state, move)]). *)
Fixpoint applyMoves (cube : CubeState) (moves : list string) : option CubeState :=
  match moves with
  | [] => Some cube
  | m :: moves' =>
      match applyMove cube m with
      | Some cube' => applyMoves cube' moves'
      | None => None
      end
  end.

(** [scrambleCube]: [draws i] is the value of
    [Math.floor(Math.random() * validMoves.length)] in iteration [i]; it is
    below 12 because [Math.random()] is below 1. *)
Fixpoint scrambleFrom (draws : nat → fin 12) (i count : nat)
    (state : CubeState) (appliedMoves : list string)
    : option (CubeState * list string) :=
  match count with
  | O => Some (state, appliedMoves)
  | S count' =>
      let randomMove := validMoves !!! fin_to_nat (draws i) in
      match applyMove state randomMove with
      | Some state' =>
          scrambleFrom draws (S i) count' state' (appliedMoves ++ [randomMove])
      | None => None
      end
  end.

Definition scrambleCube (draws : nat → fin 12) (moves : nat)
    : option (CubeState * list string) :=
  scrambleFrom draws 0 moves createSolvedCube [].

(** The loop of [handleManualMoveInput] over the tokens of the input line:
    a token outside the vocabulary is skipped. *)
Fixpoint manualMoves (newState : CubeState) (moves : list string)
    : option CubeState :=
  match moves with
  | [] => Some newState
  | move :: moves' =>
      if decide (move ∈ validMoves) then
        match applyMove newState move with
        | Some newState' => manualMoves newState' moves'
        | None => None
        end
      else manualMoves newState moves'
  end.

(** ** Goal test, canonical key and the local estimate *)

(** [cube.faces[i][j]] as an rvalue: a [TypeError] when face [i] is missing. *)
Definition faceletAt (cube : CubeState) (i j : nat) : option value :=
  match cube !! i with
  | Some face => Some (arrayGet face j)
  | None => None
  end.

(** The index pairs of [for i < 6: for j < 9], in the order of the loops. *)
Definition positions : list (nat * nat) :=
  flat_map (λ i, pair i <$> seq 0 9) (seq 0 6).

(** [isGoal]: the first differing facelet returns [false]. *)
Fixpoint isGoalFrom (current goal : CubeState) (ps : list (nat * nat))
    : option bool :=
  match ps with
  | [] => Some true
  | (i, j) :: ps' =>
      match faceletAt current i j, faceletAt goal i j with
      | Some a, Some b =>
          if decide (a ≠ b) then Some false else isGoalFrom current goal ps'
      | _, _ => None
      end
  end.

Definition isGoal (current goal : CubeState) : option bool :=
  isGoalFrom current goal positions.

(** [Math.ceil(a / b)] for integers [a] and a positive [b]. *)
Definition ceilDiv (a b : Z) : Z := - ((- a) / b).

Fixpoint displacedFrom (current goal : CubeState) (ps : list (nat * nat))
    (displacedCount : Z) : option Z :=
  match ps with
  | [] => Some displacedCount
  | (face, sticker) :: ps' =>
      match faceletAt current face sticker, faceletAt goal face sticker with
      | Some a, Some b =>
          displacedFrom current goal ps'
            (if decide (a ≠ b) then displacedCount + 1 else displacedCount)
      | _, _ => None
      end
  end.

(** [getDisplacedPiecesHeuristic] *)
Definition getDisplacedPiecesHeuristic (current goal : CubeState) : option Z :=
  match displacedFrom current goal positions 0 with
  | Some displacedCount => Some (ceilDiv displacedCount 8)
  | None => None
  end.

(** What [join] makes of an element: the decimal numeral of a number (exact
    for the integers below 10^21 in absolute value), nothing for
    [undefined]. *)
Definition valueToString (v : value) : string :=
  match v with
  | VNum n => pretty n
  | VUndef => ""
  end.

(** [hashCubeState]: [cube.faces.map((face) => face.join("")).join("|")];
    [String.concat] puts the separator between the elements as [join] does. *)
Definition hashCubeState (cube : CubeState) : string :=
  String.concat "|"
    ((λ face : Face, String.concat "" (valueToString <$> face)) <$> cube).

(** ** The oracle-backed heuristic *)

Definition newline : string := String "010" "".

Definition faceNames : list string :=
  ["Up(White)"; "Left(Orange)"; "Front(Green)"; "Right(Red)"; "Back(Blue)";
   "Down(Yellow)"]%string.

Definition colorNames : list string := ["W"; "O"; "G"; "R"; "B"; "Y"]%string.

(** [colorNames[v]] appended to a string: an index outside the table reads
    [undefined], which concatenation renders as the word. *)
Definition colorName (v : value) : string :=
  match v with
  | VNum n =>
      if decide (0 ≤ n) then default "undefined" (colorNames !! Z.to_nat n)
      else "undefined"
  | VUndef => "undefined"
  end.

(** The inner loop of [formatCubeStateForAI] over one face. *)
Fixpoint formatFaceFrom (face : Face) (j : nat) (n : nat) (formatted : string)
    : string :=
  match n with
  | O => formatted
  | S n' =>
      let formatted := (formatted ++ colorName (arrayGet face j))%string in
      let formatted :=
        if decide ((j + 1) `mod` 3 = 0)%nat then (formatted ++ " ")%string
        else formatted in
      formatFaceFrom face (S j) n' formatted
  end.

Fixpoint formatFacesFrom (cube : CubeState) (i : nat) (n : nat)
    (formatted : string) : option string :=
  match n with
  | O => Some formatted
  | S n' =>
      let formatted :=
        (formatted ++ default "undefined" (faceNames !! i) ++ ": ")%string in
      match cube !! i with
      | Some face =>
          formatFacesFrom cube (S i) n'
            (formatFaceFrom face 0 9 formatted ++ newline)%string
      | None => None
      end
  end.

(** [formatCubeStateForAI] *)
Definition formatCubeStateForAI (cube : CubeState) : option string :=
  formatFacesFrom cube 0 6 ("Rubik's Cube State:" ++ newline)%string.

Definition promptHead : string := "
You are an expert Rubik's cube solver AI. Analyze this cube state and provide a heuristic estimate.

".

Definition promptTail : string := "

SOLVED STATE (goal):
Up(White): W W W 
Left(Orange): O O O 
Front(Green): G G G 
Right(Red): R R R 
Back(Blue): B B B 
Down(Yellow): Y Y Y 

Please analyze:
1. How many pieces are displaced from their correct positions?
2. How many moves do you estimate it would take to solve this cube?
3. Consider piece relationships and cube solving patterns.

Respond with ONLY a single number representing your best estimate of moves needed to solve this cube state. Be conservative - it's better to slightly underestimate than overestimate.
".

Definition isDigit (c : ascii) : bool :=
  (48 <=? nat_of_ascii c)%nat && (nat_of_ascii c <=? 57)%nat.

Definition isSpace (c : ascii) : bool :=
  let n := nat_of_ascii c in
  ((9 <=? n)%nat && (n <=? 13)%nat) || (n =? 32)%nat.

Fixpoint trimStart (s : string) : string :=
  match s with
  | String c s' => if isSpace c then trimStart s' else s
  | EmptyString => EmptyString
  end.

Fixpoint trimEnd (s : string) : string :=
  match s with
  | String c s' =>
      match trimEnd s' with
      | EmptyString => if isSpace c then EmptyString else String c EmptyString
      | t => String c t
      end
  | EmptyString => EmptyString
  end.

(** [response.trim()], for the ASCII white space. *)
Definition trim (s : string) : string := trimEnd (trimStart s).

Fixpoint takeDigits (s : string) : string :=
  match s with
  | String c s' => if isDigit c then String c (takeDigits s') else EmptyString
  | EmptyString => EmptyString
  end.

(** [response.match(/\d+/)?.[0]]: the first maximal run of digits. *)
Fixpoint firstDigits (s : string) : option string :=
  match s with
  | String c s' => if isDigit c then Some (takeDigits s) else firstDigits s'
  | EmptyString => None
  end.

(** [Number.parseInt] on a string of digits.  The result is the exact
    integer; the floating point number JavaScript computes is the same below
    2^53 and compares with 0 and 50 the same way above. *)
Definition parseDigits (s : string) : Z :=
  foldl (λ acc c, 10 * acc + (Z.of_nat (nat_of_ascii c) - 48)) 0
        (list_ascii_of_string s).

Definition parseEstimate (response : string) : Z :=
  parseDigits (default "0"%string (firstDigits response)).

(** The module-level variables [heuristicCallCount] and [aiHeuristicCache],
    and with them the prompts sent to the oracle so far.  The last field is
    the outside world's side of the conversation, kept so that what is sent
    can be stated. *)
Record HeuristicState : Type := {
  heuristicCallCount : nat;
  aiHeuristicCache : gmap string Z;
  oracleRequests : list string
}.

(** The oracle behind [genAI]: from the prompts sent before and the prompt
    sent now to the text of the response, or to nothing when the request
    fails (an exception or a rejected promise inside the [try] block). *)
Definition Oracle : Type := list string → string → option string.

Section Heuristic.
(** [const genAI = process.env.GEMINI_API_KEY ? new GoogleGenerativeAI(...) : null] *)
Variable genAI : option Oracle.

Definition logRequest (prompt : string) (st : HeuristicState)
    : HeuristicState :=
  {| heuristicCallCount := heuristicCallCount st;
     aiHeuristicCache := aiHeuristicCache st;
     oracleRequests := oracleRequests st ++ [prompt] |}.

(** [aiHeuristicCache.set(stateKey, aiEstimate)] *)
Definition cacheSet (stateKey : string) (aiEstimate : Z)
    (st : HeuristicState) : HeuristicState :=
  {| heuristicCallCount := heuristicCallCount st;
     aiHeuristicCache := <[stateKey := aiEstimate]> (aiHeuristicCache st);
     oracleRequests := oracleRequests st |}.

(** The [try] block of [getAIEnhancedHeuristic]: [Some] estimate when it
    returns from inside, nothing when it falls through or catches. *)
Definition tryOracle (oracle : Oracle) (stateKey : string)
    (current : CubeState) (st : HeuristicState)
    : option Z * HeuristicState :=
  match formatCubeStateForAI current with
  | None => (None, st)
  | Some formatted =>
      let prompt := (promptHead ++ formatted ++ promptTail)%string in
      match oracle (oracleRequests st) prompt with
      | None => (None, logRequest prompt st)
      | Some text =>
          let response := trim text in
          let aiEstimate := parseEstimate response in
          if decide (aiEstimate > 0 ∧ aiEstimate < 50) then
            (Some aiEstimate, cacheSet stateKey aiEstimate (logRequest prompt st))
          else (None, logRequest prompt st)
      end
  end.

(** The estimate without the oracle, as a computation on the heuristic
    state, which it leaves alone. *)
Definition localEstimate (current goal : CubeState) : Op HeuristicState Z :=
  λ st, match getDisplacedPiecesHeuristic current goal with
        | Some h => Some (h, st)
        | None => None
        end.

(** [getAIEnhancedHeuristic] *)
Definition getAIEnhancedHeuristic (current goal : CubeState)
    : Op HeuristicState Z :=
  match genAI with
  | None => localEstimate current goal
  | Some oracle => λ st,
      let stateKey := hashCubeState current in
      match aiHeuristicCache st !! stateKey with
      | Some cached => Some (cached, st)
      | None =>
          match tryOracle oracle stateKey current st with
          | (Some aiEstimate, st') => Some (aiEstimate, st')
          | (None, st') => localEstimate current goal st'
          end
      end
  end.

(** [heuristicCallCount++] *)
Definition countCall (st : HeuristicState) : HeuristicState :=
  {| heuristicCallCount := S (heuristicCallCount st);
     aiHeuristicCache := aiHeuristicCache st;
     oracleRequests := oracleRequests st |}.

(** [getSmartHeuristic] *)
Definition getSmartHeuristic (current goal : CubeState)
    : Op HeuristicState Z :=
  λ st,
    let st := countCall st in
    if decide ((heuristicCallCount st `mod` 15 = 0)%nat ∧ is_Some genAI)
    then getAIEnhancedHeuristic current goal st
    else localEstimate current goal st.

(** ** The search *)

(** [interface State]: a node of the frontier. *)
Record State : Type := {
  cube : CubeState;
  gScore : Z;
  hScore : Z;
  fScore : Z;
  moves : list string
}.

(** [interface SolveResult]; the wall-clock [timeMs] is not modelled. *)
Record SolveResult : Type := {
  resultMoves : list string;
  statesExplored : nat
}.

(** What one call of [processNextState] works on: the frontier, the
    visited set and the module-level heuristic variables. *)
Record SearchState : Type := {
  openSet : list State;
  visited : gset string;
  heuristics : HeuristicState
}.

(** [openSet.sort((a, b) => a.fScore - b.fScore)]: the sort is stable, so
    of two nodes with the same [fScore] the one that was in front stays in
    front. *)
Fixpoint insertByF (x : State) (sorted : list State) : list State :=
  match sorted with
  | [] => [x]
  | y :: sorted' =>
      if decide (fScore x ≤ fScore y) then x :: y :: sorted'
      else y :: insertByF x sorted'
  end.

Definition sortByF (l : list State) : list State := foldr insertByF [] l.

(** The loop [for (const move of validMoves)] of [processNextState], from
    the moves still to try. *)
Fixpoint pushNeighbors (goalCube : CubeState) (currentState : State)
    (visited : gset string) (todo : list string)
    : Op (list State * HeuristicState) unit :=
  match todo with
  | [] => ret tt
  | move :: todo' => λ '(openSet, hst),
      match applyMove (cube currentState) move with
      | None => None
      | Some neighborCube =>
          let neighborHash := hashCubeState neighborCube in
          if decide (neighborHash ∉ visited) then
            match getSmartHeuristic neighborCube goalCube hst with
            | None => None
            | Some (h, hst') =>
                let neighborState :=
                  {| cube := neighborCube;
                     gScore := gScore currentState + 1;
                     hScore := h;
                     fScore := (gScore currentState + 1) + h;
                     moves := moves currentState ++ [move] |} in
                pushNeighbors goalCube currentState visited todo'
                  (openSet ++ [neighborState], hst')
            end
          else pushNeighbors goalCube currentState visited todo' (openSet, hst)
      end
  end.

(** How a call of [processNextState] ends. *)
Inductive StepResult : Type :=
  | Resolve (result : SolveResult)
  | Reschedule (st : SearchState)
  | Raise.

(** [processNextState] *)
Definition processNextState (goalCube : CubeState) (st : SearchState)
    : StepResult :=
  match sortByF (openSet st) with
  | [] =>
      Resolve {| resultMoves := []; statesExplored := size (visited st) |}
  | currentState :: openSet' =>
      let currentHash := hashCubeState (cube currentState) in
      if decide (currentHash ∈ visited st) then
        Reschedule {| openSet := openSet'; visited := visited st;
                      heuristics := heuristics st |}
      else
        let visited' := visited st ∪ {[currentHash]} in
        match isGoal (cube currentState) goalCube with
        | None => Raise
        | Some true =>
            Resolve {| resultMoves := moves currentState;
                       statesExplored := size visited' |}
        | Some false =>
            match pushNeighbors goalCube currentState visited' validMoves
                    (openSet', heuristics st) with
            | None => Raise
            | Some (_, (openSet'', hst')) =>
                Reschedule {| openSet := openSet''; visited := visited';
                              heuristics := hst' |}
            end
        end
  end.

(** How far a call of [solveCube] has come after a number of turns of the
    event loop. *)
Inductive Outcome : Type :=
  | Resolved (result : SolveResult)
  | Pending (st : SearchState)
  | Stuck.

(** Each [setTimeout(processNextState, 0)] is one more turn. *)
Fixpoint runSearch (goalCube : CubeState) (turns : nat) (st : SearchState)
    : Outcome :=
  match turns with
  | O => Pending st
  | S turns' =>
      match processNextState goalCube st with
      | Resolve result => Resolved result
      | Reschedule st' => runSearch goalCube turns' st'
      | Raise => Stuck
      end
  end.

(** The state in which [solveCube] calls [processNextState] first: the
    counter and the cache reset, the start node alone in the frontier. *)
Definition initialSearch (globals : HeuristicState)
    (scrambledCube goalCube : CubeState) : option SearchState :=
  let hst :=
    {| heuristicCallCount := 0;
       aiHeuristicCache := ∅;
       oracleRequests := oracleRequests globals |} in
  match getSmartHeuristic scrambledCube goalCube hst with
  | None => None
  | Some (h, hst') =>
      let initialState :=
        {| cube := scrambledCube; gScore := 0; hScore := h;
           fScore := 0 + h; moves := [] |} in
      Some {| openSet := [initialState]; visited := ∅; heuristics := hst' |}
  end.

(** [solveCube], observed after [turns] calls of [processNextState].  An
    exception inside the [async] executor leaves the promise unsettled for
    good: that is [Stuck]. *)
Definition solveCube (globals : HeuristicState) (turns : nat)
    (scrambledCube goalCube : CubeState) : Outcome :=
  match initialSearch globals scrambledCube goalCube with
  | None => Stuck
  | Some st => runSearch goalCube turns st
  end.
End Heuristic.

(** ** The move engine on a heap of objects *)

(** A cube state as JavaScript holds it: an object whose [faces] field refers
    to an array of references to the six arrays of facelets. *)
Definition loc : Type := positive.

Inductive cell : Type :=
  | CubeObj (faces : loc)
  | FacesArr (refs : list loc)
  | FaceArr (vals : list value).

Abbreviation heap := (gmap loc cell).

(** A new object or array: a location the heap does not have yet. *)
Definition alloc (c : cell) : Op heap loc :=
  λ h, let l := fresh (dom h) in Some (l, <[l := c]> h).

(** [cube.faces] *)
Definition loadFaces (cube : loc) : Op heap loc :=
  λ h, match h !! cube with
       | Some (CubeObj faces) => Some (faces, h)
       | _ => None
       end.

Definition loadRefs (faces : loc) : Op heap (list loc) :=
  λ h, match h !! faces with
       | Some (FacesArr refs) => Some (refs, h)
       | _ => None
       end.

Definition loadVals (face : loc) : Op heap (list value) :=
  λ h, match h !! face with
       | Some (FaceArr vals) => Some (vals, h)
       | _ => None
       end.

Definition storeVals (face : loc) (vals : list value) : Op heap unit :=
  λ h, Some (tt, <[face := FaceArr vals]> h).

Section HeapEngine.
Local Open Scope op_scope.

(** [newCube.faces[f]]: a [TypeError] follows when there is no such face. *)
Definition faceRef (newCube : loc) (f : nat) : Op heap loc :=
  faces ← loadFaces newCube;
  refs ← loadRefs faces;
  match refs !! f with
  | Some face => ret face
  | None => throw
  end.

(** Reads and writes of [newCube.faces[f][i]] go through the references. *)
Definition heap_store (newCube : loc) : FaceStore heap := {|
  readFacelet f i :=
    face ← faceRef newCube f; vals ← loadVals face; ret (arrayGet vals i);
  writeFacelet f i v :=
    face ← faceRef newCube f; vals ← loadVals face;
    storeVals face (arraySet vals i v);
  spreadFace f :=
    face ← faceRef newCube f; loadVals face
|}.

(** [cube.faces.map((face) => [...face])]: one new array per face. *)
Fixpoint copyFaces (refs : list loc) : Op heap (list loc) :=
  match refs with
  | [] => ret []
  | face :: refs' =>
      vals ← loadVals face;
      copy ← alloc (FaceArr vals);
      copies ← copyFaces refs';
      ret (copy :: copies)
  end.

(** [applyMove] on the heap: it returns the reference to [newCube]. *)
Definition applyMoveHeap (cube : loc) (move : string) : Op heap loc :=
  faces ← loadFaces cube;
  refs ← loadRefs faces;
  copies ← copyFaces refs;
  newFaces ← alloc (FacesArr copies);
  newCube ← alloc (CubeObj newFaces);
  @switchMove heap (heap_store newCube) move ;;
  ret newCube.
End HeapEngine.

(** The facelets of the faces a list of references points to. *)
Fixpoint facesAt (h : heap) (refs : list loc) : option (list Face) :=
  match refs with
  | [] => Some []
  | face :: refs' =>
      match h !! face, facesAt h refs' with
      | Some (FaceArr vals), Some rest => Some (vals :: rest)
      | _, _ => None
      end
  end.

(** The cube state an object of the heap holds. *)
Definition cubeAt (h : heap) (cube : loc) : option CubeState :=
  match h !! cube with
  | Some (CubeObj faces) =>
      match h !! faces with
      | Some (FacesArr refs) => facesAt h refs
      | _ => None
      end
  | _ => None
  end.

(** The storage of a cube state: the object, its array of faces and the
    arrays of facelets. *)
Definition storageOf (h : heap) (cube : loc) : list loc :=
  match h !! cube with
  | Some (CubeObj faces) =>
      match h !! faces with
      | Some (FacesArr refs) => cube :: faces :: refs
      | _ => [cube; faces]
      end
  | _ => [cube]
  end.

(** Building a cube state on the heap, for examples. *)
Fixpoint allocFaces (s : CubeState) : Op heap (list loc) :=
  match s with
  | [] => ret []
  | face :: s' =>
      bind (alloc (FaceArr face)) (λ l,
      bind (allocFaces s') (λ ls, ret (l :: ls)))
  end.

Definition allocCube (s : CubeState) : Op heap loc :=
  bind (allocFaces s) (λ refs,
  bind (alloc (FacesArr refs)) (λ faces, alloc (CubeObj faces))).

(** The inverse of a move, as the design document pairs them: a quarter turn
    with its primed turn, a half turn with itself. *)
Definition inverseMove (move : string) : string :=
  if String.eqb move "U" then "U'"
  else if String.eqb move "U'" then "U"
  else if String.eqb move "D" then "D'"
  else if String.eqb move "D'" then "D"
  else if String.eqb move "R" then "R'"
  else if String.eqb move "R'" then "R"
  else if String.eqb move "L" then "L'"
  else if String.eqb move "L'" then "L"
  else move.

(** ** Notions the properties are stated with *)

(** The facelets of a state, face after face. *)
Definition facelets (s : CubeState) : list value := mjoin s.

(** The number of facelets of a state that hold the value [v]. *)
Definition occurrences (v : value) (s : CubeState) : nat :=
  length (filter (λ x, x = v) (facelets s)).

(** The quarter turns, by the name of their face. *)
Definition quarterTurns : list string := ["U"; "D"; "R"; "L"]%string.

(** The solved cube built on the empty heap: the object is at 8. *)
Definition solvedHeap : heap :=
  match allocCube createSolvedCube ∅ with
  | Some (_, h) => h
  | None => ∅
  end.

(** A facelet that is an integer of one digit. *)
Definition singleDigit (v : value) : Prop :=
  match v with
  | VNum n => -9 ≤ n ≤ 9
  | VUndef => False
  end.

#[global] Instance singleDigit_dec v : Decision (singleDigit v).
Proof. destruct v; simpl; apply _. Defined.

Definition digitState (s : CubeState) : Prop := Forall (Forall singleDigit) s.

(** [face.join("")] *)
Definition faceKey (face : Face) : string :=
  String.concat "" (valueToString <$> face).

(** What follows the key of a face in the key of a state: nothing, or the
    separator. *)
Definition afterFace (r : string) : Prop :=
  r = ""%string ∨ ∃ r', r = String "|" r'.

(** The key of the faces after the first, with the separator in front. *)
Definition keyTail (s : CubeState) : string :=
  match s with
  | [] => ""
  | _ :: _ => String "|" (hashCubeState s)
  end.

(** A scramble by one move, and the heuristic variables at program start. *)
Definition solvedAfterR : CubeState :=
  Eval vm_compute in default [] (applyMove createSolvedCube "R").

Definition freshHeuristics : HeuristicState :=
  {| heuristicCallCount := 0; aiHeuristicCache := ∅; oracleRequests := [] |}.

(** An oracle that answers every prompt the same. *)
Definition sevenMoves : Oracle := λ _ _, Some " 7 moves"%string.

(** The frontier keeps, with every node, a path that leads from the start
    to the cube of the node. *)
Definition pathTo (start : CubeState) (node : State) : Prop :=
  applyMoves start (moves node) = Some (cube node).

(** The node a call of [processNextState] goal-tests and expands: the one
    it pops, unless there is none or its key is visited already. *)
Definition expanding (st : SearchState) : option State :=
  match sortByF (openSet st) with
  | [] => None
  | currentState :: _ =>
      if decide (hashCubeState (cube currentState) ∈ visited st) then None
      else Some currentState
  end.

(** The states expanded in the first [turns] calls of [processNextState],
    in order. *)
Fixpoint expandedStates (genAI : option Oracle) (goalCube : CubeState)
    (turns : nat) (st : SearchState) : list CubeState :=
  match turns with
  | O => []
  | S turns' =>
      match expanding st with
      | Some currentState => [cube currentState]
      | None => []
      end ++
      match processNextState genAI goalCube st with
      | Reschedule st' => expandedStates genAI goalCube turns' st'
      | _ => []
      end
  end.

(** The keys of all arrangements of the facelets of a state in six faces of
    nine: a finite set that holds the key of every state the search can
    reach. *)
Definition arrangementKeys (start : CubeState) : gset string :=
  list_to_set
    ((λ l, hashCubeState (reshape (replicate 6 9%nat) l))
       <$> permutations (facelets start)).

(** What holds of every node of the frontier. *)
Definition arranged (start : CubeState) (node : State) : Prop :=
  wellFormed (cube node) ∧ facelets (cube node) ≡ₚ facelets start.

(** The grid [s] is what [newCube], stored at [newFaces] and [copies], holds
    in [h], and [h] still has the heap [base] of before the call as it was. *)
Record related (base : heap) (newCube newFaces : loc) (copies : list loc)
    (s : CubeState) (h : heap) : Prop := {
  rel_obj : h !! newCube = Some (CubeObj newFaces);
  rel_faces : h !! newFaces = Some (FacesArr copies);
  rel_vals : Forall2 (λ l face, h !! l = Some (FaceArr face)) copies s;
  rel_frame : ∀ l, l ∈ dom base → h !! l = base !! l
}.

(** Two computations that do the same on related stores. *)
Definition sim (base : heap) (newCube newFaces : loc) (copies : list loc)
    {A} (c1 : Op CubeState A) (c2 : Op heap A) : Prop :=
  ∀ s h, related base newCube newFaces copies s h →
    match c1 s, c2 h with
    | Some (a, s'), Some (b, h') =>
        a = b ∧ related base newCube newFaces copies s' h'
    | None, None => True
    | _, _ => False
    end.

(** A computation on the grid that returns on every store of at least [n]
    faces and keeps the number of faces. *)
Definition returnsFrom {A} (n : nat) (c : Op CubeState A) : Prop :=
  ∀ s, (n ≤ length s)%nat →
    ∃ a s', c s = Some (a, s') ∧ length s' = length s.

(** A computation on the grid that, where it returns, keeps the number of
    faces. *)
Definition keepsLength {A} (c : Op CubeState A) : Prop :=
  ∀ s, match c s with
       | Some (_, s') => length s' = length s
       | None => True
       end.

(** A computation on the grid that raises on every store of [n] faces. *)
Definition raisesOn {A} (n : nat) (c : Op CubeState A) : Prop :=
  ∀ s, length s = n → c s = None.

(** The number of faces a move of the vocabulary indexes: a turn of the Up
    face never touches face 5. *)
Definition facesNeeded (move : string) : nat :=
  if decide (move ∈ ["U"; "U'"; "U2"]%string) then 5%nat else 6%nat.

(** A string without a digit. *)
Fixpoint noDigit (s : string) : bool :=
  match s with
  | String c s' => negb (isDigit c) && noDigit s'
  | EmptyString => true
  end.
(** Every estimate in the cache lies strictly between 0 and 50. *)
Definition cacheInRange (st : HeuristicState) : Prop :=
  map_Forall (λ _ v, 0 < v < 50) (aiHeuristicCache st).

(** The scores of a node agree with its path: the cost is the number of
    moves, the total is cost plus estimate, and the moves are of the
    vocabulary. *)
Definition wellScored (node : State) : Prop :=
  gScore node = Z.of_nat (length (moves node))
  ∧ fScore node = gScore node + hScore node
  ∧ Forall (λ m, m ∈ validMoves) (moves node).
(** What the search keeps about the states it has expanded, for a start
    state and a goal: [expanded] lists them; their keys make up the visited
    set; none of them is the goal; every state one move away from one of them
    has its key visited or sits in the frontier; and so does the start. *)
Record closedUnder (start goal : CubeState) (expanded : list CubeState)
    (st : SearchState) : Prop := {
  closed_keys : visited st = list_to_set (hashCubeState <$> expanded);
  closed_states :
    Forall (λ v, wellFormed v ∧ facelets v ≡ₚ facelets start ∧ v ≠ goal)
           expanded;
  closed_moves :
    ∀ v m c, v ∈ expanded → m ∈ validMoves → applyMove v m = Some c →
             hashCubeState c ∈ visited st
             ∨ ∃ n, n ∈ openSet st ∧ cube n = c;
  closed_start :
    hashCubeState start ∈ visited st
    ∨ ∃ n, n ∈ openSet st ∧ cube n = start
}.

(** * The renderer ([rubiks-cube.tsx]) *)

Definition COLORS : list string :=
  ["#ffffff"; "#ff8c00"; "#00ff00"; "#ff0000"; "#0000ff"; "#ffff00"]%string.

(** [arr[i]] with a computed index: a negative index names no element. *)
Definition arrayGetZ (arr : Face) (i : Z) : value :=
  if decide (0 ≤ i) then arrayGet arr (Z.to_nat i) else VUndef.

(** [COLORS[v]] *)
Definition colorOf (v : value) : option string :=
  match v with
  | VNum n => if decide (0 ≤ n) then COLORS !! Z.to_nat n else None
  | VUndef => None
  end.

Definition getIndex (row col : Z) : Z := row * 3 + col.

(** One block [if (cond) { colors.key = cubeState.faces[f][getIndex(row, col)] }]
    of [getCubeletColors]; reading a face that is not there raises. *)
Definition colorSide (cubeState : CubeState) (cond : bool) (key : string)
    (f : nat) (row col : Z) (colors : gmap string value)
    : option (gmap string value) :=
  if cond then
    face ← cubeState !! f;
    Some (<[key := arrayGetZ face (getIndex row col)]> colors)
  else Some colors.

(** [getCubeletColors]: the object with the colours of the sides of the
    cubelet at [(x, y, z)] that lie on the surface. *)
Definition getCubeletColors (cubeState : CubeState) (x y z : Z)
    : option (gmap string value) :=
  colors ← colorSide cubeState (bool_decide (y = 1)) "top" 0
              (z + 1) (x + 1) ∅;
  colors ← colorSide cubeState (bool_decide (y = -1)) "bottom" 5
              (2 - (z + 1)) (x + 1) colors;
  colors ← colorSide cubeState (bool_decide (z = 1)) "front" 2
              (1 - y) (x + 1) colors;
  colors ← colorSide cubeState (bool_decide (z = -1)) "back" 4
              (1 - y) (2 - (x + 1)) colors;
  colors ← colorSide cubeState (bool_decide (x = 1)) "right" 3
              (1 - y) (2 - (z + 1)) colors;
  colorSide cubeState (bool_decide (x = -1)) "left" 1
    (1 - y) (z + 1) colors.

(** [faceColors.key]: a property that was not set reads [undefined]. *)
Definition property (faceColors : gmap string value) (key : string) : value :=
  default VUndef (faceColors !! key).

(** What [renderCubelet] draws: the cubelet's place in the grid and its
    stickers, each with the side it is on and its colour [COLORS[...]]. *)
Record Cubelet : Type := {
  place : Z * Z * Z;
  stickers : list (string * option string)
}.

(** [{faceColors.key !== undefined && (<mesh ...>)}] *)
Definition sticker (faceColors : gmap string value) (key : string)
    : list (string * option string) :=
  match property faceColors key with
  | VUndef => []
  | v => [(key, colorOf v)]
  end.

Definition renderCubelet (x y z : Z) (faceColors : gmap string value)
    : Cubelet :=
  {| place := (x, y, z);
     stickers := sticker faceColors "front" ++ sticker faceColors "back"
                 ++ sticker faceColors "right" ++ sticker faceColors "left"
                 ++ sticker faceColors "top" ++ sticker faceColors "bottom" |}.

(** The values of the loop variables [x], [y] and [z]. *)
Definition coordinates : list Z := [-1; 0; 1].

(** The places the three nested loops visit, in their order. *)
Definition places : list (Z * Z * Z) :=
  x ← coordinates; y ← coordinates; z ← coordinates; [(x, y, z)].

(** The loops that fill [cubelets]. *)
Fixpoint cubeletsFrom (cubeState : CubeState) (ps : list (Z * Z * Z))
    : option (list Cubelet) :=
  match ps with
  | [] => Some []
  | (x, y, z) :: ps' =>
      if decide (Z.abs x = 1 ∨ Z.abs y = 1 ∨ Z.abs z = 1) then
        colors ← getCubeletColors cubeState x y z;
        rest ← cubeletsFrom cubeState ps';
        Some (renderCubelet x y z colors :: rest)
      else cubeletsFrom cubeState ps'
  end.

Definition cubelets (cubeState : CubeState) : option (list Cubelet) :=
  cubeletsFrom cubeState places.

(** Notions for the renderer. *)

(** Every facelet holds a number, as the interface [CubeState] says. *)
Definition allNumbers (s : CubeState) : Prop :=
  Forall (Forall (λ v, v ≠ VUndef)) s.

(** The number of sides of the cubelet at a place that lie on the surface. *)
Definition exposed (p : Z * Z * Z) : nat :=
  let '(x, y, z) := p in
  length (filter (λ c, Z.abs c = 1) [x; y; z]).

(** The colours of the cubelet at a place, and what it shows on a side. *)
Definition colorsAt (s : CubeState) (p : Z * Z * Z)
    : option (gmap string value) :=
  let '(x, y, z) := p in getCubeletColors s x y z.

(** The cubelet drawn at a place. *)
Definition drawnAt (s : CubeState) (p : Z * Z * Z) : option Cubelet :=
  let '(x, y, z) := p in renderCubelet x y z <$> getCubeletColors s x y z.

Definition shown (s : CubeState) (p : Z * Z * Z) (side : string)
    : option value :=
  colors ← colorsAt s p; colors !! side.

(** The layer of cubelets that carries the face a move is named after. *)
Definition layer (move : string) (p : Z * Z * Z) : Prop :=
  let '(x, y, z) := p in
  (move ∈ ["U"; "U'"; "U2"]%string ∧ y = 1)
  ∨ (move ∈ ["D"; "D'"; "D2"]%string ∧ y = -1)
  ∨ (move ∈ ["R"; "R'"; "R2"]%string ∧ x = 1)
  ∨ (move ∈ ["L"; "L'"; "L2"]%string ∧ x = -1).

#[global] Instance layer_dec move p : Decision (layer move p).
Proof. destruct p as [[x y] z]. unfold layer. apply _. Defined.

(** The quarter turn of space about the axis of the face a quarter turn is
    named after, looking at that face: clockwise. *)
Definition rotation (move : string) (p : Z * Z * Z) : Z * Z * Z :=
  let '(x, y, z) := p in
  if decide (move = "U"%string) then (- z, y, x)
  else if decide (move = "D"%string) then (z, y, - x)
  else if decide (move = "R"%string) then (x, z, - y)
  else if decide (move = "L"%string) then (x, - z, y)
  else p.

(** The sides of a cubelet, with the direction each one faces. *)
Definition sides : list (string * (Z * Z * Z)) :=
  [("top", (0, 1, 0)); ("bottom", (0, -1, 0)); ("front", (0, 0, 1));
   ("back", (0, 0, -1)); ("right", (1, 0, 0)); ("left", (-1, 0, 0))]%string.

(** ** The manual move input ([handleManualMoveInput] of [page.tsx]) *)

(** [s.split(/\s+/)], for the ASCII white space: the pieces between the
    maximal runs of white space.  [piece] is the piece being read and
    [inSpaces] tells that the character before was white space. *)
Fixpoint splitFrom (s piece : string) (inSpaces : bool) : list string :=
  match s with
  | EmptyString => [piece]
  | String c s' =>
      if isSpace c then
        if inSpaces then splitFrom s' piece true
        else piece :: splitFrom s' EmptyString true
      else splitFrom s' (piece ++ String c EmptyString)%string false
  end.

Definition splitSpaces (s : string) : list string :=
  splitFrom s EmptyString false.

(** [Boolean(piece)]: the empty string is the only falsy string. *)
Definition truthy (piece : string) : Prop := piece ≠ EmptyString.

#[global] Instance truthy_dec piece : Decision (truthy piece).
Proof. unfold truthy. apply _. Defined.

(** [manualMove.trim().split(/\s+/).filter(Boolean)] *)
Definition inputMoves (manualMove : string) : list string :=
  filter truthy (splitSpaces (trim manualMove)).

(** The new cube state [handleManualMoveInput] sets. *)
Definition handleManualMoveInput (manualMove : string) (cubeState : CubeState)
    : option CubeState :=
  manualMoves cubeState (inputMoves manualMove).

(** A string without white space. *)
Fixpoint noSpace (s : string) : bool :=
  match s with
  | EmptyString => true
  | String c s' => negb (isSpace c) && noSpace s'
  end.

(** * The page ([page.tsx]): scrambling, solving and playing the solution *)

(** The React state of [RubiksCubeSolver] that the handlers below read and
    set.  Of [solveStats] the number of moves and of states are kept; the
    time is not modelled. *)
Record Page : Type := {
  cubeState : CubeState;
  solution : list string;
  currentMoveIndex : Z;
  isPlaying : bool;
  isSolving : bool;
  solveStats : option (nat * nat)
}.

(** [setIsPlaying(b)] *)
Definition setIsPlaying (b : bool) (page : Page) : Page :=
  {| cubeState := cubeState page; solution := solution page;
     currentMoveIndex := currentMoveIndex page; isPlaying := b;
     isSolving := isSolving page; solveStats := solveStats page |}.

(** [handleScramble], with the random draws of [scrambleCube]. *)
Definition handleScramble (draws : nat → fin 12) (scrambleCount : nat)
    (page : Page) : option Page :=
  scrambled ← scrambleCube draws scrambleCount;
  Some {| cubeState := scrambled.1; solution := []; currentMoveIndex := -1;
          isPlaying := isPlaying page; isSolving := isSolving page;
          solveStats := None |}.

(** How a call of an [async] handler ends: it returns, leaving the page in
    a state; it waits for a promise that has not settled, the page being in
    the state set so far; or it raises. *)
Inductive Handled : Type :=
  | Finished (page : Page)
  | Awaiting (page : Page)
  | Threw.

(** [handleSolve], the search observed after [turns] turns of the event
    loop.  The goal is [createSolvedCube()]. *)
Definition handleSolve (genAI : option Oracle) (globals : HeuristicState)
    (turns : nat) (page : Page) : Handled :=
  let goalCube := createSolvedCube in
  match isGoal (cubeState page) goalCube with
  | None => Threw
  | Some true => Finished page
  | Some false =>
      let solving :=
        {| cubeState := cubeState page; solution := solution page;
           currentMoveIndex := currentMoveIndex page;
           isPlaying := isPlaying page; isSolving := true;
           solveStats := None |} in
      match solveCube genAI globals turns (cubeState page) goalCube with
      | Resolved result =>
          if decide (0 < length (resultMoves result))%nat then
            Finished
              {| cubeState := cubeState page;
                 solution := resultMoves result;
                 currentMoveIndex := -1;
                 isPlaying := isPlaying page; isSolving := false;
                 solveStats := Some (length (resultMoves result),
                                     statesExplored result) |}
          else
            Finished
              {| cubeState := cubeState page; solution := solution page;
                 currentMoveIndex := currentMoveIndex page;
                 isPlaying := isPlaying page; isSolving := false;
                 solveStats := None |}
      | Pending _ | Stuck => Awaiting solving
      end
  end.

(** An interval started by [handlePlaySolution]: its identifier, a positive
    number and so truthy, and the [solution] and the variable [moveIndex]
    its callback closes over. *)
Record Interval : Type := {
  ident : positive;
  playing : list string;
  moveIndex : Z
}.

(** The page with its timers: the intervals that are active, the identifier
    [intervalRef.current] holds, and the next identifier [setInterval]
    gives out. *)
Record Player : Type := {
  page : Page;
  intervalRef : option positive;
  intervals : list Interval;
  nextIdent : positive
}.

(** [if (intervalRef.current) clearInterval(intervalRef.current)] *)
Definition clearInterval (ref : option positive) (active : list Interval)
    : list Interval :=
  match ref with
  | Some i => filter (λ t, ident t ≠ i) active
  | None => active
  end.

(** [handlePlaySolution] *)
Definition handlePlaySolution (pl : Player) : Player :=
  if decide (length (solution (page pl)) = 0%nat) then pl
  else if isPlaying (page pl) then
    {| page := setIsPlaying false (page pl);
       intervalRef := intervalRef pl;
       intervals := clearInterval (intervalRef pl) (intervals pl);
       nextIdent := nextIdent pl |}
  else
    {| page := setIsPlaying true (page pl);
       intervalRef := Some (nextIdent pl);
       intervals :=
         {| ident := nextIdent pl; playing := solution (page pl);
            moveIndex := currentMoveIndex (page pl) + 1 |}
         :: intervals pl;
       nextIdent := Pos.succ (nextIdent pl) |}.

(** [solution[moveIndex]]: a string, or [undefined], which as a move matches
    no case of the switch, like the empty string. *)
Definition moveAt (solution : list string) (moveIndex : Z) : string :=
  if decide (0 ≤ moveIndex) then
    default EmptyString (solution !! Z.to_nat moveIndex)
  else EmptyString.

(** The callback of an interval, run when the interval fires. *)
Definition playNext (t : Interval) (pl : Player) : option Player :=
  if decide (Z.of_nat (length (playing t)) ≤ moveIndex t) then
    Some {| page := setIsPlaying false (page pl);
            intervalRef := intervalRef pl;
            intervals := clearInterval (intervalRef pl) (intervals pl);
            nextIdent := nextIdent pl |}
  else
    newState ← applyMove (cubeState (page pl))
                  (moveAt (playing t) (moveIndex t));
    Some {| page :=
              {| cubeState := newState; solution := solution (page pl);
                 currentMoveIndex := moveIndex t;
                 isPlaying := isPlaying (page pl);
                 isSolving := isSolving (page pl);
                 solveStats := solveStats (page pl) |};
            intervalRef := intervalRef pl;
            intervals :=
              (λ t', if decide (ident t' = ident t)
                     then {| ident := ident t; playing := playing t;
                             moveIndex := moveIndex t + 1 |}
                     else t') <$> intervals pl;
            nextIdent := nextIdent pl |}.

(** What happens to the player: a click on the play button, or the interval
    with an identifier firing. *)
Inductive Event : Type :=
  | ClickPlay
  | Fire (i : positive).

Definition handleEvent (e : Event) (pl : Player) : option Player :=
  match e with
  | ClickPlay => Some (handlePlaySolution pl)
  | Fire i =>
      match list_find (λ t, ident t = i) (intervals pl) with
      | Some (_, t) => playNext t pl
      | None => Some pl
      end
  end.

Fixpoint handleEvents (es : list Event) (pl : Player) : option Player :=
  match es with
  | [] => Some pl
  | e :: es' =>
      match handleEvent e pl with
      | Some pl' => handleEvents es' pl'
      | None => None
      end
  end.

(** A page on which nothing is being played, with no interval active. *)
Definition idle (p : Page) (ref : option positive) (next : positive)
    : Player :=
  {| page := p; intervalRef := ref; intervals := []; nextIdent := next |}.

(** What holds of the player while and after the solution [sol] is played
    on the state [start]. *)
Record playingOf (start : CubeState) (sol : list string) (pl : Player)
    : Prop := {
  playing_solution : solution (page pl) = sol;
  playing_index : -1 ≤ currentMoveIndex (page pl) < Z.of_nat (length sol)
                  ∨ currentMoveIndex (page pl) = -1;
  playing_cube :
    applyMoves start (take (Z.to_nat (currentMoveIndex (page pl) + 1)) sol)
    = Some (cubeState (page pl));
  playing_timer :
    (intervals pl = [] ∧ isPlaying (page pl) = false)
    ∨ ∃ t, intervals pl = [t] ∧ intervalRef pl = Some (ident t)
           ∧ isPlaying (page pl) = true ∧ playing t = sol
           ∧ moveIndex t = currentMoveIndex (page pl) + 1
}.


(** Notions for the prompt. *)

(** A facelet that holds one of the six colours. *)
Definition isColor (v : value) : Prop :=
  match v with
  | VNum n => 0 ≤ n ≤ 5
  | VUndef => False
  end.

#[global] Instance isColor_dec v : Decision (isColor v).
Proof. destruct v; simpl; apply _. Defined.

Definition colorState (s : CubeState) : Prop := Forall (Forall isColor) s.

(** The first character of the name of a colour. *)
Definition letterOf (v : value) : ascii :=
  match colorName v with
  | String c _ => c
  | EmptyString => Ascii.zero
  end.

(** ** Properties of the move engine on the grid *)

(** Naming the elements of a list whose length is known. *)
Ltac explode l H :=
  repeat (destruct l as [|? l]; simpl in H;
          try discriminate H; try apply eq_add_S in H).

(** Naming the 54 facelets of a well-formed state. *)
Ltac open_cube s Hwf :=
  let Hlen := fresh "Hlen" in
  let Hall := fresh "Hall" in
  destruct Hwf as [Hlen Hall];
  explode s Hlen;
  repeat match goal with
         | H : Forall _ (_ :: _) |- _ => apply Forall_cons in H as [? H]
         end;
  repeat match goal with
         | H : length ?f = _ |- _ => explode f H
         end;
  clear Hlen Hall.

(** Membership in an explicit list, case by case. *)
Ltac each_case HX :=
  repeat (apply elem_of_cons in HX as [-> | HX]);
  [ .. | by apply elem_of_nil in HX ].

(** An explicit list is a rearrangement of another. *)
Ltac split_at x l :=
  lazymatch l with
  | x :: ?l2 => constr:((@nil value, l2))
  | ?y :: ?l' =>
      let r := split_at x l' in
      lazymatch r with
      | (?l1, ?l2) => constr:((y :: l1, l2))
      end
  end.

Ltac rearranged :=
  repeat first
    [ reflexivity
    | apply Permutation_skip
    | lazymatch goal with
      | |- ?x :: ?l ≡ₚ ?r =>
          let p := split_at x r in
          lazymatch p with
          | (?l1, ?l2) =>
              change r with (l1 ++ x :: l2);
              apply Permutation_cons_app; simpl
          end
      end ].

Lemma switchMove_unknown `{FaceStore St} (m : string) :
  m ∉ validMoves → switchMove (St := St) m = ret tt.
Proof.
  intros Hm. unfold switchMove.
  repeat lazymatch goal with
  | |- (if String.eqb m ?tok then _ else _) = _ =>
      destruct (String.eqb_spec m tok) as [-> | _];
      [ exfalso; apply Hm; unfold validMoves; set_solver | ]
  end.
  reflexivity.
Qed.

Lemma applyMove_unknown (s : CubeState) (m : string) :
  m ∉ validMoves → applyMove s m = Some s.
Proof.
  intros Hm. unfold applyMove. rewrite switchMove_unknown by done.
  simpl. by rewrite list_fmap_id.
Qed.

(** A move on a well-formed state does not raise, and rearranges the 54
    facelets into a well-formed state. *)
Lemma applyMove_valid (s : CubeState) (m : string) :
  wellFormed s → m ∈ validMoves →
  ∃ s', applyMove s m = Some s' ∧ wellFormed s' ∧ facelets s' ≡ₚ facelets s.
Proof.
  intros Hwf Hm. open_cube s Hwf.
  each_case Hm;
    (eexists; split; [ cbv; reflexivity | split; [ by compute; auto 20 | ] ]);
    cbn; rearranged.
Qed.

Lemma applyMove_total (s : CubeState) (m : string) :
  wellFormed s →
  ∃ s', applyMove s m = Some s' ∧ wellFormed s' ∧ facelets s' ≡ₚ facelets s.
Proof.
  intros Hwf. destruct (decide (m ∈ validMoves)) as [Hm | Hm].
  - by apply applyMove_valid.
  - exists s. by rewrite applyMove_unknown.
Qed.

Lemma applyMoves_total (ms : list string) (s : CubeState) :
  wellFormed s →
  ∃ s', applyMoves s ms = Some s' ∧ wellFormed s' ∧ facelets s' ≡ₚ facelets s.
Proof.
  revert s. induction ms as [|m ms IH]; intros s Hwf; simpl.
  - by exists s.
  - destruct (applyMove_total s m Hwf) as (s1 & -> & Hwf1 & Hp1).
    destruct (IH s1 Hwf1) as (s2 & -> & Hwf2 & Hp2).
    exists s2. split; [done | split; [done | by etrans]].
Qed.

Lemma applyMoves_app (ms1 ms2 : list string) (s : CubeState) :
  applyMoves s (ms1 ++ ms2) = applyMoves s ms1 ≫= (λ s', applyMoves s' ms2).
Proof.
  revert s. induction ms1 as [|m ms1 IH]; intros s; simpl; [done |].
  destruct (applyMove s m); simpl; [apply IH | done].
Qed.

Lemma wellFormed_solved : wellFormed createSolvedCube.
Proof. by compute; auto 20. Qed.

Lemma occurrences_rearranged (v : value) (s s' : CubeState) :
  facelets s' ≡ₚ facelets s → occurrences v s' = occurrences v s.
Proof. unfold occurrences. by intros ->. Qed.

(** ** Move engine: inverses, closure and conservation *)

(** C1. Move invertibility: on a state of six faces of nine facelets, every
    move of the vocabulary followed by its inverse gives back the state,
    facelet for facelet, and neither call raises. *)
Theorem move_then_inverse_is_identity (s : CubeState) (X : string) :
  wellFormed s → X ∈ validMoves →
  ∃ s', applyMove s X = Some s' ∧ applyMove s' (inverseMove X) = Some s.
Proof.
  intros Hwf HX. open_cube s Hwf.
  each_case HX; (eexists; split; [cbv; reflexivity | vm_compute; reflexivity]).
Qed.

Lemma move_then_inverse_is_identity_witness :
  ∃ s', applyMove createSolvedCube "R" = Some s'
        ∧ applyMove s' (inverseMove "R") = Some createSolvedCube.
Proof.
  apply (move_then_inverse_is_identity createSolvedCube "R").
  - apply wellFormed_solved.
  - unfold validMoves. set_solver.
Defined.

(** C3. Move closure: for each face, the half turn is the quarter turn twice,
    four quarter turns or two half turns give back the state, and three
    quarter turns are the primed turn. *)
Theorem quarter_and_half_turn_closure (s : CubeState) (F : string) :
  wellFormed s → F ∈ quarterTurns →
  (∃ s2, applyMove s (F ++ "2") = Some s2 ∧ applyMoves s [F; F] = Some s2)
  ∧ applyMoves s [F; F; F; F] = Some s
  ∧ applyMoves s [F ++ "2"; F ++ "2"]%string = Some s
  ∧ (∃ s3, applyMoves s [F; F; F] = Some s3
           ∧ applyMove s (F ++ "'") = Some s3).
Proof.
  intros Hwf HF. open_cube s Hwf.
  each_case HF;
    (split; [ eexists; split; [cbv; reflexivity | vm_compute; reflexivity] | ];
     split; [ vm_compute; reflexivity | ];
     split; [ vm_compute; reflexivity | ];
     eexists; split; [cbv; reflexivity | vm_compute; reflexivity]).
Qed.

Lemma quarter_and_half_turn_closure_witness :
  (∃ s2, applyMove createSolvedCube "L2" = Some s2
         ∧ applyMoves createSolvedCube ["L"; "L"]%string = Some s2)
  ∧ applyMoves createSolvedCube ["L"; "L"; "L"; "L"]%string
    = Some createSolvedCube
  ∧ applyMoves createSolvedCube ["L2"; "L2"]%string = Some createSolvedCube
  ∧ (∃ s3, applyMoves createSolvedCube ["L"; "L"; "L"]%string = Some s3
           ∧ applyMove createSolvedCube "L'" = Some s3).
Proof.
  apply (quarter_and_half_turn_closure createSolvedCube "L").
  - apply wellFormed_solved.
  - unfold quarterTurns. set_solver.
Defined.

(** C5. Facelet values are conserved: a move of the vocabulary on a
    well-formed state of arbitrary values yields a state with every value as
    often as before, and every state reached from the solved one by moves of
    the vocabulary holds each of the values 0 to 5 nine times. *)
Theorem moves_preserve_value_counts :
  (∀ (s : CubeState) (m : string),
     wellFormed s → m ∈ validMoves →
     ∃ s', applyMove s m = Some s'
           ∧ ∀ v, occurrences v s' = occurrences v s)
  ∧ (∀ ms : list string,
       Forall (λ m, m ∈ validMoves) ms →
       ∃ s', applyMoves createSolvedCube ms = Some s'
             ∧ ∀ c, 0 ≤ c < 6 → occurrences (VNum c) s' = 9%nat).
Proof.
  split.
  - intros s m Hwf Hm.
    destruct (applyMove_valid s m Hwf Hm) as (s' & Hs' & _ & Hp).
    exists s'. split; [done |]. intros v. by apply occurrences_rearranged.
  - intros ms _.
    destruct (applyMoves_total ms createSolvedCube wellFormed_solved)
      as (s' & Hs' & _ & Hp).
    exists s'. split; [done |]. intros c Hc.
    rewrite (occurrences_rearranged _ _ _ Hp).
    assert (c = 0 ∨ c = 1 ∨ c = 2 ∨ c = 3 ∨ c = 4 ∨ c = 5) as Hcases by lia.
    destruct Hcases as [-> | [-> | [-> | [-> | [-> | ->]]]]]; reflexivity.
Qed.

Lemma moves_preserve_value_counts_witness :
  (∃ s', applyMove createSolvedCube "U" = Some s'
         ∧ ∀ v, occurrences v s' = occurrences v createSolvedCube)
  ∧ (∃ s', applyMoves createSolvedCube ["R"; "U2"; "L'"]%string = Some s'
           ∧ ∀ c, 0 ≤ c < 6 → occurrences (VNum c) s' = 9%nat).
Proof.
  split.
  - apply (proj1 moves_preserve_value_counts createSolvedCube "U").
    + apply wellFormed_solved.
    + unfold validMoves. set_solver.
  - apply (proj2 moves_preserve_value_counts ["R"; "U2"; "L'"]%string).
    unfold validMoves. repeat constructor; set_solver.
Defined.

(** ** The heap engine against the grid engine *)

Lemma facesAt_Forall2 (h : heap) (refs : list loc) (s : CubeState) :
  facesAt h refs = Some s ↔
  Forall2 (λ l face, h !! l = Some (FaceArr face)) refs s.
Proof.
  revert s. induction refs as [|l refs IH]; intros s; simpl.
  - split; [intros [= <-]; constructor | by inversion 1].
  - split.
    + destruct (h !! l) as [[| |vals]|] eqn:Hl; try done.
      destruct (facesAt h refs) as [rest|] eqn:Hrest; try done.
      intros [= <-]. constructor; [done | by apply IH].
    + inversion 1 as [|? face ? rest Hl Hrest]; subst.
      rewrite Hl. apply IH in Hrest. by rewrite Hrest.
Qed.

Section HeapSimulation.
(** The heap before the call, and the storage of [newCube]. *)
Variables (base : heap) (newCube newFaces : loc) (copies : list loc).
Hypothesis fresh_storage :
  Forall (λ l, l ∉ dom base) (newCube :: newFaces :: copies).
Hypothesis distinct_storage : NoDup (newCube :: newFaces :: copies).

Local Abbreviation related := (related base newCube newFaces copies).
Local Abbreviation sim := (sim base newCube newFaces copies).

Lemma sim_ret {A} (a : A) : sim (ret a) (ret a).
Proof. by intros s h Hrel. Qed.

Lemma sim_bind {A B} (c1 : Op CubeState A) (c2 : Op heap A)
    (k1 : A → Op CubeState B) (k2 : A → Op heap B) :
  sim c1 c2 → (∀ a, sim (k1 a) (k2 a)) → sim (bind c1 k1) (bind c2 k2).
Proof.
  intros Hc Hk s h Hrel. unfold bind. specialize (Hc s h Hrel).
  destruct (c1 s) as [[a s']|], (c2 h) as [[b h']|]; try done.
  destruct Hc as [<- Hrel']. by apply Hk.
Qed.

Lemma faceRef_related (s : CubeState) (h : heap) (f : nat) :
  related s h →
  faceRef newCube f h =
    match copies !! f with Some l => Some (l, h) | None => None end.
Proof.
  intros [Hobj Hfaces _ _]. unfold faceRef, bind, loadFaces, loadRefs.
  rewrite Hobj, Hfaces. by destruct (copies !! f).
Qed.

Lemma related_lookup (s : CubeState) (h : heap) (f : nat) :
  related s h →
  match s !! f with
  | Some face => ∃ l, copies !! f = Some l ∧ h !! l = Some (FaceArr face)
  | None => copies !! f = None
  end.
Proof.
  intros [_ _ Hvals _]. destruct (s !! f) as [face|] eqn:Hf.
  - by eapply Forall2_lookup_r in Hvals.
  - apply lookup_ge_None. apply lookup_ge_None in Hf.
    by rewrite (Forall2_length _ _ _ Hvals).
Qed.

Lemma sim_readFacelet (f i : nat) :
  sim (readFacelet f i) (@readFacelet heap (heap_store newCube) f i).
Proof.
  intros s h Hrel. simpl. unfold bind.
  rewrite (faceRef_related s h f Hrel).
  pose proof (related_lookup s h f Hrel) as Hf.
  destruct (s !! f) as [face|].
  - destruct Hf as (l & -> & Hl). unfold loadVals. by rewrite Hl.
  - by rewrite Hf.
Qed.

Lemma sim_spreadFace (f : nat) :
  sim (spreadFace f) (@spreadFace heap (heap_store newCube) f).
Proof.
  intros s h Hrel. simpl. unfold bind.
  rewrite (faceRef_related s h f Hrel).
  pose proof (related_lookup s h f Hrel) as Hf.
  destruct (s !! f) as [face|].
  - destruct Hf as (l & -> & Hl). unfold loadVals. by rewrite Hl.
  - by rewrite Hf.
Qed.

Lemma related_store (s : CubeState) (h : heap) (f : nat) (l : loc)
    (vals : list value) :
  related s h → copies !! f = Some l →
  related (<[f := vals]> s) (<[l := FaceArr vals]> h).
Proof.
  intros [Hobj Hfaces Hvals Hframe] Hl.
  assert (l ∈ copies) as Hin by (by eapply list_elem_of_lookup_2).
  apply NoDup_cons in distinct_storage as [Hn1 Hnd].
  apply NoDup_cons in Hnd as [Hn2 Hnd].
  split.
  - rewrite lookup_insert_ne; [done |]. intros ->. apply Hn1. set_solver.
  - rewrite lookup_insert_ne; [done |]. by intros ->.
  - apply Forall2_same_length_lookup. split.
    + rewrite length_insert. by eapply Forall2_length.
    + intros j l' face Hl' Hface.
      destruct (decide (f = j)) as [<- | Hne].
      * assert (l' = l) as -> by congruence.
        rewrite lookup_insert_eq.
        rewrite list_lookup_insert_eq in Hface; [congruence |].
        rewrite <- (Forall2_length _ _ _ Hvals). by eapply lookup_lt_Some.
      * rewrite list_lookup_insert_ne in Hface by done.
        rewrite lookup_insert_ne.
        -- by eapply (Forall2_lookup_lr _ _ _ j) in Hvals.
        -- intros ->. apply Hne. by eapply NoDup_lookup.
  - intros l0 Hl0. rewrite lookup_insert_ne; [by apply Hframe |].
    intros ->. rewrite !Forall_cons in fresh_storage.
    destruct fresh_storage as (_ & _ & Hfresh).
    rewrite Forall_forall in Hfresh. by apply (Hfresh l0).
Qed.

Lemma sim_writeFacelet (f i : nat) (v : value) :
  sim (writeFacelet f i v) (@writeFacelet heap (heap_store newCube) f i v).
Proof.
  intros s h Hrel. simpl. unfold bind.
  rewrite (faceRef_related s h f Hrel).
  pose proof (related_lookup s h f Hrel) as Hf.
  destruct (s !! f) as [face|].
  - destruct Hf as (l & Hl & Hh). rewrite Hl. unfold loadVals, storeVals.
    rewrite Hh. split; [done |]. by apply related_store.
  - by rewrite Hf.
Qed.

Lemma sim_assign (f i : nat) (rhs1 : Op CubeState value)
    (rhs2 : Op heap value) :
  sim rhs1 rhs2 →
  sim (assign f i rhs1) (@assign heap (heap_store newCube) f i rhs2).
Proof.
  intros Hrhs. apply sim_bind; [done |]. intros v. apply sim_writeFacelet.
Qed.

Lemma sim_permuteFrom (f : nat) (temp : list value) (perm : list nat) (i : nat) :
  sim (permuteFrom f temp i perm)
      (@permuteFrom heap (heap_store newCube) f temp i perm).
Proof.
  revert i. induction perm as [|p perm IH]; intros i; simpl.
  - apply sim_ret.
  - apply sim_bind; [apply sim_writeFacelet | intros _; apply IH].
Qed.

Lemma sim_applyPermutation (f : nat) (perm : list nat) :
  sim (applyPermutation f perm)
      (@applyPermutation heap (heap_store newCube) f perm).
Proof.
  apply sim_bind; [apply sim_spreadFace |].
  intros temp. apply sim_permuteFrom.
Qed.

Lemma sim_readTriple (f a b c : nat) :
  sim (readTriple f a b c) (@readTriple heap (heap_store newCube) f a b c).
Proof.
  repeat (apply sim_bind; [apply sim_readFacelet | intros ?]).
  apply sim_ret.
Qed.

(** One statement of a [case] after the other. *)
Ltac sim_steps :=
  repeat first
    [ apply sim_ret
    | apply sim_readFacelet
    | apply sim_applyPermutation
    | apply sim_readTriple
    | apply sim_assign
    | apply sim_bind; [ | intros ? ] ].

Lemma sim_switchMove (move : string) :
  sim (switchMove move) (@switchMove heap (heap_store newCube) move).
Proof.
  unfold switchMove.
  repeat lazymatch goal with
  | |- sim (if ?b then _ else _) _ => destruct b
  end;
  first [ apply sim_ret
        | unfold case_U, case_U', case_U2, case_D, case_D', case_D2,
            case_R, case_R', case_R2, case_L, case_L', case_L2; sim_steps ].
Qed.
End HeapSimulation.

Lemma alloc_spec (c : cell) (h : heap) :
  ∃ l, alloc c h = Some (l, <[l := c]> h) ∧ l ∉ dom h.
Proof. exists (fresh (dom h)). split; [done | apply is_fresh]. Qed.

(** Copying the faces: the copies hold the same facelets, are new and
    pairwise distinct, and nothing that was there changes. *)
Lemma copyFaces_spec (base : heap) (refs : list loc) (s : CubeState) (h : heap) :
  facesAt base refs = Some s →
  (∀ l, l ∈ dom base → h !! l = base !! l) →
  ∃ copies h1,
    copyFaces refs h = Some (copies, h1)
    ∧ Forall2 (λ l face, h1 !! l = Some (FaceArr face)) copies s
    ∧ (∀ l, l ∈ dom h → h1 !! l = h !! l)
    ∧ Forall (λ l, l ∉ dom h) copies
    ∧ NoDup copies.
Proof.
  revert s h. induction refs as [|face refs IH]; intros s h Hs Hframe; simpl.
  - injection Hs as <-. exists [], h. repeat split; by constructor.
  - simpl in Hs.
    destruct (base !! face) as [[| |vals]|] eqn:Hface; try done.
    destruct (facesAt base refs) as [rest|] eqn:Hrest; try done.
    injection Hs as <-.
    assert (h !! face = Some (FaceArr vals)) as Hh.
    { rewrite Hframe; [done |]. apply elem_of_dom. by eexists. }
    unfold bind at 1, loadVals. rewrite Hh.
    destruct (alloc_spec (FaceArr vals) h) as (l & Hl & Hfresh).
    unfold bind at 1. rewrite Hl.
    destruct (IH rest (<[l := FaceArr vals]> h) eq_refl)
      as (copies & h1 & Hcopy & Hvals & Hframe1 & Hnew & Hnd).
    { intros l0 Hl0. rewrite lookup_insert_ne; [by apply Hframe |].
      intros ->. apply Hfresh. apply elem_of_dom.
      rewrite Hframe by done. by apply elem_of_dom. }
    unfold bind. rewrite Hcopy. exists (l :: copies), h1.
    assert (∀ l0, l0 ∈ copies → (l0 ∉ dom h) ∧ (l0 ≠ l)) as Hother.
    { intros l0 Hl0. rewrite Forall_forall in Hnew.
      specialize (Hnew l0 Hl0). rewrite dom_insert_L in Hnew. set_solver. }
    split; [done |]. split; [| split; [| split]].
    + constructor; [| done]. rewrite Hframe1.
      * by rewrite lookup_insert_eq.
      * rewrite dom_insert_L. set_solver.
    + intros l0 Hl0. rewrite Hframe1.
      * rewrite lookup_insert_ne; [done |]. by intros ->.
      * rewrite dom_insert_L. set_solver.
    + constructor; [done |]. apply Forall_forall. intros l0 Hl0.
      by apply Hother.
    + constructor; [| done]. intros Hin. by destruct (Hother l Hin).
Qed.

(** [applyMoveHeap] does on the heap what [applyMove] does on the grid: it
    raises when [applyMove] does, and otherwise returns a reference to a cube
    that holds the result, in storage the heap did not have before, and
    leaves every object that was there as it was. *)
Lemma applyMoveHeap_refines (h : heap) (cube : loc) (s : CubeState)
    (move : string) :
  cubeAt h cube = Some s →
  match applyMove s move with
  | Some s' =>
      ∃ r h', applyMoveHeap cube move h = Some (r, h')
              ∧ cubeAt h' r = Some s'
              ∧ (∀ l, l ∈ dom h → h' !! l = h !! l)
              ∧ Forall (λ l, l ∉ dom h) (storageOf h' r)
  | None => applyMoveHeap cube move h = None
  end.
Proof.
  unfold cubeAt. intros Hcube.
  destruct (h !! cube) as [[faces| |]|] eqn:Hobj; try done.
  destruct (h !! faces) as [[|refs|]|] eqn:Hfaces; try done.
  destruct (copyFaces_spec h refs s h Hcube (λ _ _, eq_refl))
    as (copies & h1 & Hcopy & Hvals & Hframe1 & Hnew & Hnd).
  destruct (alloc_spec (FacesArr copies) h1) as (newFaces & HnewFaces & Hfr2).
  set (h2 := <[newFaces := FacesArr copies]> h1) in *.
  destruct (alloc_spec (CubeObj newFaces) h2) as (newCube & HnewCube & Hfr3).
  set (h3 := <[newCube := CubeObj newFaces]> h2) in *.
  assert (dom h ⊆ dom h1) as Hsub.
  { intros l Hl. apply elem_of_dom. rewrite Hframe1 by done.
    by apply elem_of_dom. }
  assert (Forall (λ l, l ∈ dom h1) copies) as Hin1.
  { apply Forall_forall. intros l Hl. apply list_elem_of_lookup in Hl as [i Hi].
    destruct (Forall2_lookup_l _ _ _ _ _ Hvals Hi) as (face & _ & Hface).
    apply elem_of_dom. by eexists. }
  rewrite Forall_forall in Hin1, Hnew.
  assert (newFaces ∉ copies) as Hn2 by (intros Hc; by apply Hfr2, Hin1).
  assert (newCube ≠ newFaces) as Hn3.
  { intros ->. apply Hfr3. unfold h2. rewrite dom_insert_L. set_solver. }
  assert (newCube ∉ copies) as Hn4.
  { intros Hc. apply Hfr3. unfold h2. rewrite dom_insert_L.
    specialize (Hin1 _ Hc). set_solver. }
  assert (Forall (λ l, l ∉ dom h) (newCube :: newFaces :: copies)) as Hfresh.
  { repeat constructor.
    - intros Hc. apply Hfr3. unfold h2. rewrite dom_insert_L. set_solver.
    - intros Hc. apply Hfr2. set_solver.
    - by apply Forall_forall. }
  assert (NoDup (newCube :: newFaces :: copies)) as Hdistinct.
  { repeat constructor; [set_solver | done | done]. }
  assert (related h newCube newFaces copies s h3) as Hrel.
  { split.
    - unfold h3. by rewrite lookup_insert_eq.
    - unfold h3, h2. rewrite lookup_insert_ne by done.
      by rewrite lookup_insert_eq.
    - eapply Forall2_impl; [exact Hvals |]. intros l face Hl. simpl in Hl.
      assert (l ∈ dom h1) as Hd by (apply elem_of_dom; by eexists).
      unfold h3, h2. rewrite !lookup_insert_ne; [done | | ].
      + by intros ->.
      + intros ->. apply Hfr3. unfold h2. rewrite dom_insert_L. set_solver.
    - intros l Hl. unfold h3, h2.
      rewrite !lookup_insert_ne; [by apply Hframe1 | | ].
      + intros ->. apply Hfr2. by apply Hsub.
      + intros ->. apply Hfr3. unfold h2. rewrite dom_insert_L.
        specialize (Hsub _ Hl). set_solver. }
  pose proof (sim_switchMove h newCube newFaces copies Hfresh Hdistinct
                move s h3 Hrel) as Hsim.
  unfold applyMove. rewrite list_fmap_id.
  unfold applyMoveHeap, bind, loadFaces, loadRefs.
  rewrite Hobj, Hfaces, Hcopy, HnewFaces. fold h2. rewrite HnewCube. fold h3.
  destruct (switchMove move s) as [[[] s']|];
    destruct (@switchMove heap (heap_store newCube) move h3) as [[[] h']|];
    try done.
  destruct Hsim as [_ [Hobj' Hfaces' Hvals' Hframe']]. simpl.
  exists newCube, h'. unfold ret, cubeAt, storageOf.
  rewrite Hobj', Hfaces'.
  split; [done |]. split; [by apply facesAt_Forall2 |]. by split.
Qed.

(** What a heap that keeps its old objects still holds. *)
Lemma facesAt_frame (h h' : heap) (refs : list loc) (s : CubeState) :
  (∀ l, l ∈ dom h → h' !! l = h !! l) →
  facesAt h refs = Some s →
  facesAt h' refs = Some s ∧ Forall (λ l, l ∈ dom h) refs.
Proof.
  intros Hframe. revert s. induction refs as [|l refs IH]; intros s; simpl.
  - by intros [= <-].
  - destruct (h !! l) as [[| |vals]|] eqn:Hl; try done.
    destruct (facesAt h refs) as [rest|]; try done. intros [= <-].
    assert (l ∈ dom h) as Hd by (apply elem_of_dom; by eexists).
    destruct (IH rest eq_refl) as [-> Hall].
    rewrite Hframe, Hl by done. by split; [| constructor].
Qed.

Lemma cubeAt_frame (h h' : heap) (cube : loc) (s : CubeState) :
  (∀ l, l ∈ dom h → h' !! l = h !! l) →
  cubeAt h cube = Some s →
  cubeAt h' cube = Some s
  ∧ storageOf h' cube = storageOf h cube
  ∧ Forall (λ l, l ∈ dom h) (storageOf h cube).
Proof.
  intros Hframe. unfold cubeAt, storageOf.
  destruct (h !! cube) as [[faces| |]|] eqn:Hobj; try done.
  destruct (h !! faces) as [[|refs|]|] eqn:Hfaces; try done.
  intros Hs.
  assert (cube ∈ dom h) as Hd1 by (apply elem_of_dom; by eexists).
  assert (faces ∈ dom h) as Hd2 by (apply elem_of_dom; by eexists).
  rewrite (Hframe _ Hd1), Hobj, (Hframe _ Hd2), Hfaces.
  destruct (facesAt_frame h h' refs s Hframe Hs) as [-> Hall].
  by repeat constructor.
Qed.

(** C4. [applyMove] is pure with respect to its input.  On a heap that
    holds a state [s] at [cube]: when [s] is well-formed the call returns;
    and whenever it returns, it returns a reference to a cube that holds the
    moved state, every object the heap had still has its contents, so [cube]
    still holds the 54 facelets of [s], and no part of the storage of the
    result was in the heap before or belongs to the input. *)
Theorem applyMove_leaves_input_alone (h : heap) (cube : loc) (s : CubeState)
    (move : string) :
  cubeAt h cube = Some s →
  (wellFormed s → is_Some (applyMove s move))
  ∧ ∀ s', applyMove s move = Some s' →
      ∃ r h',
        applyMoveHeap cube move h = Some (r, h')
        ∧ cubeAt h' r = Some s'
        ∧ cubeAt h' cube = Some s
        ∧ (∀ l, l ∈ dom h → h' !! l = h !! l)
        ∧ (∀ l, l ∈ storageOf h' r →
                (l ∉ dom h) ∧ (l ∉ storageOf h' cube)).
Proof.
  intros Hcube. split.
  - intros Hwf. destruct (applyMove_total s move Hwf) as (s' & -> & _ & _).
    by eexists.
  - intros s' Hs'.
    pose proof (applyMoveHeap_refines h cube s move Hcube) as Href.
    rewrite Hs' in Href. destruct Href as (r & h' & Hrun & Hr & Hframe & Hnew).
    destruct (cubeAt_frame h h' cube s Hframe Hcube) as (Hkept & Hsame & Hold).
    exists r, h'. repeat (split; [done |]).
    intros l Hl. rewrite Forall_forall in Hnew, Hold.
    split; [by apply Hnew |]. rewrite Hsame. intros Hc.
    by apply (Hnew l Hl), Hold.
Qed.

Lemma applyMove_leaves_input_alone_witness :
  (wellFormed createSolvedCube → is_Some (applyMove createSolvedCube "R"))
  ∧ ∀ s', applyMove createSolvedCube "R" = Some s' →
      ∃ r h',
        applyMoveHeap 8%positive "R" solvedHeap = Some (r, h')
        ∧ cubeAt h' r = Some s'
        ∧ cubeAt h' 8%positive = Some createSolvedCube
        ∧ (∀ l, l ∈ dom solvedHeap → h' !! l = solvedHeap !! l)
        ∧ (∀ l, l ∈ storageOf h' r →
                (l ∉ dom solvedHeap) ∧ (l ∉ storageOf h' 8%positive)).
Proof.
  apply (applyMove_leaves_input_alone solvedHeap 8%positive
           createSolvedCube "R").
  vm_compute. reflexivity.
Defined.

(** C10. A string outside the vocabulary is the identity of [applyMove]: on
    every state, whatever its shape, the call does not raise and returns a
    state with the same facelets; on the heap the result is a copy in storage
    of its own, and the input is as it was. *)
Theorem unknown_move_is_identity (s : CubeState) (m : string) :
  m ∉ validMoves →
  applyMove s m = Some s
  ∧ ∀ (h : heap) (cube : loc),
      cubeAt h cube = Some s →
      ∃ r h', applyMoveHeap cube m h = Some (r, h')
              ∧ cubeAt h' r = Some s
              ∧ cubeAt h' cube = Some s
              ∧ ∀ l, l ∈ storageOf h' r → l ∉ dom h.
Proof.
  intros Hm. pose proof (applyMove_unknown s m Hm) as Hid.
  split; [done |]. intros h cube Hcube.
  pose proof (applyMoveHeap_refines h cube s m Hcube) as Href.
  rewrite Hid in Href. destruct Href as (r & h' & Hrun & Hr & Hframe & Hnew).
  destruct (cubeAt_frame h h' cube s Hframe Hcube) as (Hkept & _ & _).
  exists r, h'. repeat (split; [done |]).
  intros l Hl. rewrite Forall_forall in Hnew. by apply Hnew.
Qed.

Lemma unknown_move_is_identity_witness :
  applyMove [[VNum 1; VNum 2]; []] "F" = Some [[VNum 1; VNum 2]; []]
  ∧ ∀ (h : heap) (cube : loc),
      cubeAt h cube = Some [[VNum 1; VNum 2]; []] →
      ∃ r h', applyMoveHeap cube "F" h = Some (r, h')
              ∧ cubeAt h' r = Some [[VNum 1; VNum 2]; []]
              ∧ cubeAt h' cube = Some [[VNum 1; VNum 2]; []]
              ∧ ∀ l, l ∈ storageOf h' r → l ∉ dom h.
Proof.
  apply (unknown_move_is_identity [[VNum 1; VNum 2]; []] "F").
  unfold validMoves. set_solver.
Defined.

(** ** The canonical key *)

Lemma append_String (x : ascii) (a b : string) :
  (String x a ++ b)%string = String x (a ++ b).
Proof. reflexivity. Qed.

Lemma append_empty_l (a : string) : ("" ++ a)%string = a.
Proof. reflexivity. Qed.

Lemma append_assoc (a b c : string) : ((a ++ b) ++ c = a ++ (b ++ c))%string.
Proof.
  induction a as [|x a IH]; [done |]. by rewrite !append_String, IH.
Qed.

Lemma append_empty_r (a : string) : (a ++ "")%string = a.
Proof.
  induction a as [|x a IH]; [done |]. by rewrite append_String, IH.
Qed.

Lemma faceKey_cons (v : value) (face : Face) :
  faceKey (v :: face) = (valueToString v ++ faceKey face)%string.
Proof.
  unfold faceKey. destruct face as [|w face]; simpl.
  - by rewrite append_empty_r.
  - done.
Qed.

Lemma singleDigit_cases (v : value) :
  singleDigit v →
  v ∈ (VNum <$> [-9; -8; -7; -6; -5; -4; -3; -2; -1; 0;
                 1; 2; 3; 4; 5; 6; 7; 8; 9]).
Proof.
  destruct v as [n|]; simpl; [| done]. intros Hn.
  assert (n = -9 ∨ n = -8 ∨ n = -7 ∨ n = -6 ∨ n = -5 ∨ n = -4 ∨ n = -3
          ∨ n = -2 ∨ n = -1 ∨ n = 0 ∨ n = 1 ∨ n = 2 ∨ n = 3 ∨ n = 4
          ∨ n = 5 ∨ n = 6 ∨ n = 7 ∨ n = 8 ∨ n = 9) as Hcases by lia.
  simpl. set_solver.
Qed.

(** The numerals of one-digit integers are a prefix code. *)
Lemma valueToString_prefix_code (a b : value) (r1 r2 : string) :
  singleDigit a → singleDigit b →
  (valueToString a ++ r1 = valueToString b ++ r2)%string →
  a = b ∧ r1 = r2.
Proof.
  intros Ha Hb. apply singleDigit_cases in Ha, Hb. simpl in Ha, Hb.
  each_case Ha; each_case Hb; vm_compute; intros H;
    first [ discriminate H | by injection H ].
Qed.

Lemma valueToString_not_after (v : value) (r r' : string) :
  singleDigit v → afterFace r' → (valueToString v ++ r)%string ≠ r'.
Proof.
  intros Hv Hr'. apply singleDigit_cases in Hv. simpl in Hv.
  destruct Hr' as [-> | [r'' ->]]; each_case Hv; vm_compute; discriminate.
Qed.

Lemma faceKey_injective (f1 f2 : Face) (r1 r2 : string) :
  Forall singleDigit f1 → Forall singleDigit f2 →
  afterFace r1 → afterFace r2 →
  (faceKey f1 ++ r1 = faceKey f2 ++ r2)%string →
  f1 = f2 ∧ r1 = r2.
Proof.
  intros Hf1. revert f2. induction Hf1 as [|a f1 Ha Hf1 IH];
    intros f2 Hf2 Hr1 Hr2 Heq; destruct Hf2 as [|b f2 Hb Hf2].
  - done.
  - rewrite faceKey_cons, append_assoc in Heq. symmetry in Heq.
    destruct (valueToString_not_after _ _ _ Hb Hr1 Heq).
  - rewrite faceKey_cons, append_assoc in Heq.
    destruct (valueToString_not_after _ _ _ Ha Hr2 Heq).
  - rewrite !faceKey_cons, !append_assoc in Heq.
    apply valueToString_prefix_code in Heq as [-> Heq]; [| done | done].
    by destruct (IH f2 Hf2 Hr1 Hr2 Heq) as [-> ->].
Qed.

Lemma hashCubeState_cons (face : Face) (s : CubeState) :
  hashCubeState (face :: s) = (faceKey face ++ keyTail s)%string.
Proof.
  unfold hashCubeState, faceKey. destruct s as [|face' s]; simpl.
  - by rewrite append_empty_r.
  - done.
Qed.

Lemma keyTail_afterFace (s : CubeState) : afterFace (keyTail s).
Proof. destruct s; [by left | right; by eexists]. Qed.

Lemma hashCubeState_injective (s1 s2 : CubeState) (face1 face2 : Face) :
  digitState (face1 :: s1) → digitState (face2 :: s2) →
  hashCubeState (face1 :: s1) = hashCubeState (face2 :: s2) →
  face1 :: s1 = face2 :: s2.
Proof.
  revert face1 face2 s2. induction s1 as [|f1 s1 IH];
    intros face1 face2 s2 Hd1 Hd2 Heq;
    rewrite !hashCubeState_cons in Heq;
    apply Forall_cons in Hd1 as [Hface1 Hd1];
    apply Forall_cons in Hd2 as [Hface2 Hd2];
    apply faceKey_injective in Heq as [-> Htail];
    auto using keyTail_afterFace.
  - destruct s2; [done | discriminate Htail].
  - destruct s2 as [|f2 s2]; [discriminate Htail |].
    injection Htail as Htail. f_equal. by apply IH.
Qed.

(** C9. The canonical key is a function of the facelets, and on well-formed
    states whose facelets are one-digit integers it is injective: two such
    states have the same key exactly when they are equal facelet for
    facelet. *)
Theorem hashCubeState_key_iff_equal (s1 s2 : CubeState) :
  wellFormed s1 → wellFormed s2 → digitState s1 → digitState s2 →
  hashCubeState s1 = hashCubeState s2 ↔ s1 = s2.
Proof.
  intros [Hlen1 _] [Hlen2 _] Hd1 Hd2. split; [| by intros ->].
  destruct s1 as [|face1 s1], s2 as [|face2 s2]; try discriminate.
  by apply hashCubeState_injective.
Qed.

Lemma digitState_solved : digitState createSolvedCube.
Proof. unfold digitState. repeat constructor; simpl; lia. Qed.

Lemma hashCubeState_key_iff_equal_witness :
  hashCubeState createSolvedCube = hashCubeState createSolvedCube
  ↔ createSolvedCube = createSolvedCube.
Proof.
  apply (hashCubeState_key_iff_equal createSolvedCube createSolvedCube).
  - apply wellFormed_solved.
  - apply wellFormed_solved.
  - apply digitState_solved.
  - apply digitState_solved.
Defined.

(** ** The heuristic *)

Lemma faceletAt_is_Some (s : CubeState) (i j : nat) :
  (i < length s)%nat → ∃ v, faceletAt s i j = Some v.
Proof.
  intros Hi. unfold faceletAt.
  destruct (lookup_lt_is_Some_2 s i Hi) as [face ->]. by eexists.
Qed.

Lemma positions_in_range (i j : nat) : (i, j) ∈ positions → (i < 6)%nat.
Proof.
  unfold positions. rewrite list_elem_of_In, in_flat_map.
  intros (i' & Hi' & Hin). apply in_seq in Hi'.
  apply list_elem_of_In, list_elem_of_fmap in Hin as (j' & [= -> _] & _). lia.
Qed.

Lemma displacedFrom_is_Some (current goal : CubeState) (ps : list (nat * nat))
    (count : Z) :
  Forall (λ p, p.1 < length current ∧ p.1 < length goal)%nat ps →
  ∃ n, displacedFrom current goal ps count = Some n.
Proof.
  intros Hps. revert count.
  induction Hps as [|[i j] ps [Hc Hg] _ IH]; intros count; simpl.
  - by eexists.
  - destruct (faceletAt_is_Some current i j Hc) as [a ->].
    destruct (faceletAt_is_Some goal i j Hg) as [b ->]. apply IH.
Qed.

Lemma isGoalFrom_is_Some (current goal : CubeState) (ps : list (nat * nat)) :
  Forall (λ p, p.1 < length current ∧ p.1 < length goal)%nat ps →
  ∃ b, isGoalFrom current goal ps = Some b.
Proof.
  induction 1 as [|[i j] ps [Hc Hg] _ IH]; simpl.
  - by eexists.
  - destruct (faceletAt_is_Some current i j Hc) as [a ->].
    destruct (faceletAt_is_Some goal i j Hg) as [b ->].
    destruct (decide (a ≠ b)); [by eexists | apply IH].
Qed.

Lemma positions_covered (current goal : CubeState) :
  wellFormed current → wellFormed goal →
  Forall (λ p, p.1 < length current ∧ p.1 < length goal)%nat positions.
Proof.
  intros [Hc _] [Hg _]. apply Forall_forall. intros [i j] Hp.
  apply positions_in_range in Hp. simpl. lia.
Qed.

(** On well-formed states the local estimate and the goal test return. *)
Lemma getDisplacedPiecesHeuristic_total (current goal : CubeState) :
  wellFormed current → wellFormed goal →
  ∃ h, getDisplacedPiecesHeuristic current goal = Some h.
Proof.
  intros Hc Hg. unfold getDisplacedPiecesHeuristic.
  destruct (displacedFrom_is_Some current goal positions 0
              (positions_covered _ _ Hc Hg)) as [n ->]. by eexists.
Qed.

Lemma isGoal_total (current goal : CubeState) :
  wellFormed current → wellFormed goal → ∃ b, isGoal current goal = Some b.
Proof.
  intros Hc Hg. apply isGoalFrom_is_Some. by apply positions_covered.
Qed.

Lemma formatFacesFrom_is_Some (cube : CubeState) (n i : nat) (acc : string) :
  (i + n ≤ length cube)%nat → ∃ text, formatFacesFrom cube i n acc = Some text.
Proof.
  revert i acc. induction n as [|n IH]; intros i acc Hn; simpl.
  - by eexists.
  - destruct (lookup_lt_is_Some_2 cube i) as [face ->]; [lia |].
    apply IH. lia.
Qed.

Lemma formatCubeStateForAI_total (cube : CubeState) :
  wellFormed cube → ∃ text, formatCubeStateForAI cube = Some text.
Proof. intros [Hlen _]. apply formatFacesFrom_is_Some. lia. Qed.

(** C8. The oracle path degrades without aborting.  On well-formed states
    the local estimate [local] exists, and [getAIEnhancedHeuristic] returns
    it with the cache as it was when no oracle is configured, when the
    request fails, and when the first integer of the response is not strictly
    between 0 and 50; an estimate in that range is cached under the canonical
    key and returned; a cached key is answered from the cache with no request
    sent; and [getSmartHeuristic] counts the call and goes to the oracle path
    exactly when the count is a multiple of 15 and an oracle is configured. *)
Theorem oracle_path_degrades_to_local_estimate
    (current goal : CubeState) (st : HeuristicState) :
  wellFormed current → wellFormed goal →
  ∃ (local : Z) (formatted : string),
    getDisplacedPiecesHeuristic current goal = Some local
    ∧ formatCubeStateForAI current = Some formatted
    ∧ let prompt := (promptHead ++ formatted ++ promptTail)%string in
      let stateKey := hashCubeState current in
      let asked :=
        {| heuristicCallCount := heuristicCallCount st;
           aiHeuristicCache := aiHeuristicCache st;
           oracleRequests := oracleRequests st ++ [prompt] |} in
      let counted :=
        {| heuristicCallCount := S (heuristicCallCount st);
           aiHeuristicCache := aiHeuristicCache st;
           oracleRequests := oracleRequests st |} in
      getAIEnhancedHeuristic None current goal st = Some (local, st)
      ∧ (∀ (oracle : Oracle) (cached : Z),
           aiHeuristicCache st !! stateKey = Some cached →
           getAIEnhancedHeuristic (Some oracle) current goal st
           = Some (cached, st))
      ∧ (∀ oracle : Oracle,
           aiHeuristicCache st !! stateKey = None →
           oracle (oracleRequests st) prompt = None →
           getAIEnhancedHeuristic (Some oracle) current goal st
           = Some (local, asked))
      ∧ (∀ (oracle : Oracle) (text : string),
           aiHeuristicCache st !! stateKey = None →
           oracle (oracleRequests st) prompt = Some text →
           ¬ (0 < parseEstimate (trim text) < 50) →
           getAIEnhancedHeuristic (Some oracle) current goal st
           = Some (local, asked))
      ∧ (∀ (oracle : Oracle) (text : string),
           aiHeuristicCache st !! stateKey = None →
           oracle (oracleRequests st) prompt = Some text →
           0 < parseEstimate (trim text) < 50 →
           getAIEnhancedHeuristic (Some oracle) current goal st
           = Some (parseEstimate (trim text),
                   {| heuristicCallCount := heuristicCallCount st;
                      aiHeuristicCache :=
                        <[stateKey := parseEstimate (trim text)]>
                          (aiHeuristicCache st);
                      oracleRequests := oracleRequests st ++ [prompt] |}))
      ∧ (∀ genAI : option Oracle,
           getSmartHeuristic genAI current goal st
           = if decide ((S (heuristicCallCount st) `mod` 15 = 0)%nat
                        ∧ is_Some genAI)
             then getAIEnhancedHeuristic genAI current goal counted
             else Some (local, counted)).
Proof.
  intros Hc Hg.
  destruct (getDisplacedPiecesHeuristic_total current goal Hc Hg)
    as [local Hlocal].
  destruct (formatCubeStateForAI_total current Hc) as [formatted Hfmt].
  exists local, formatted. split; [done |]. split; [done |]. simpl.
  split; [| split; [| split; [| split; [| split]]]].
  - unfold localEstimate. by rewrite Hlocal.
  - intros oracle cached Hcached. by rewrite Hcached.
  - intros oracle Hmiss Hfail. rewrite Hmiss. unfold tryOracle.
    rewrite Hfmt, Hfail. unfold localEstimate. by rewrite Hlocal.
  - intros oracle text Hmiss Htext Hout. rewrite Hmiss. unfold tryOracle.
    rewrite Hfmt, Htext. rewrite decide_False by lia.
    unfold localEstimate. by rewrite Hlocal.
  - intros oracle text Hmiss Htext Hin. rewrite Hmiss. unfold tryOracle.
    rewrite Hfmt, Htext. by rewrite decide_True by lia.
  - intros genAI. unfold getSmartHeuristic. simpl.
    destruct (decide _); [done |]. unfold localEstimate. by rewrite Hlocal.
Qed.

Lemma wellFormed_solvedAfterR : wellFormed solvedAfterR.
Proof. by compute; auto 20. Qed.

Lemma oracle_path_degrades_to_local_estimate_witness :
  fst <$> getAIEnhancedHeuristic (Some sevenMoves)
            solvedAfterR createSolvedCube freshHeuristics
  = Some 7.
Proof.
  destruct (oracle_path_degrades_to_local_estimate
              solvedAfterR createSolvedCube freshHeuristics
              wellFormed_solvedAfterR wellFormed_solved)
    as (local & formatted & _ & _ & _ & _ & _ & _ & Haccepted & _).
  rewrite (Haccepted sevenMoves " 7 moves"%string).
  - reflexivity.
  - reflexivity.
  - reflexivity.
  - vm_compute. split; reflexivity.
Defined.

(** ** The search *)

Lemma insertByF_Permutation (x : State) (l : list State) :
  insertByF x l ≡ₚ x :: l.
Proof.
  induction l as [|y l IH]; simpl; [done |].
  destruct (decide (fScore x ≤ fScore y)); [done |].
  rewrite IH. apply Permutation_swap.
Qed.

Lemma sortByF_Permutation (l : list State) : sortByF l ≡ₚ l.
Proof.
  induction l as [|x l IH]; simpl; [done |].
  by rewrite insertByF_Permutation, IH.
Qed.

Lemma pushNeighbors_pathTo (genAI : option Oracle) (start goal : CubeState)
    (current : State) (seen : gset string) (todo : list string)
    (frontier frontier' : list State) (hst hst' : HeuristicState) :
  pathTo start current →
  Forall (pathTo start) frontier →
  pushNeighbors genAI goal current seen todo (frontier, hst)
  = Some (tt, (frontier', hst')) →
  Forall (pathTo start) frontier'.
Proof.
  intros Hcur. revert frontier hst.
  induction todo as [|move todo IH]; intros frontier hst Hall; simpl.
  - by intros [= <- <-].
  - destruct (applyMove (cube current) move) as [neighbor|] eqn:Hmove;
      [| done].
    destruct (decide _); [| by apply IH].
    destruct (getSmartHeuristic _ _ _ _) as [[h hst1]|]; [| done].
    apply IH. apply Forall_app. split; [done |]. constructor; [| done].
    unfold pathTo. simpl. rewrite applyMoves_app, Hcur. simpl.
    by rewrite Hmove.
Qed.

Lemma processNextState_pathTo (genAI : option Oracle) (start goal : CubeState)
    (st : SearchState) :
  Forall (pathTo start) (openSet st) →
  match processNextState genAI goal st with
  | Resolve result =>
      resultMoves result = []
      ∨ ∃ s', applyMoves start (resultMoves result) = Some s'
              ∧ isGoal s' goal = Some true
  | Reschedule st' => Forall (pathTo start) (openSet st')
  | Raise => True
  end.
Proof.
  intros Hall. unfold processNextState.
  rewrite <- (sortByF_Permutation (openSet st)) in Hall.
  destruct (sortByF (openSet st)) as [|current rest]; [by left |].
  apply Forall_cons in Hall as [Hcur Hrest].
  destruct (decide _); [done |].
  destruct (isGoal (cube current) goal) as [[]|] eqn:Hgoal; [| | done].
  - right. by exists (cube current).
  - destruct (pushNeighbors _ _ _ _ _ _) as [[[] [frontier hst]]|] eqn:Hpush;
      [| done].
    simpl. by eapply pushNeighbors_pathTo.
Qed.

Lemma runSearch_pathTo (genAI : option Oracle) (start goal : CubeState)
    (turns : nat) (st : SearchState) (result : SolveResult) :
  Forall (pathTo start) (openSet st) →
  runSearch genAI goal turns st = Resolved result →
  resultMoves result = []
  ∨ ∃ s', applyMoves start (resultMoves result) = Some s'
          ∧ isGoal s' goal = Some true.
Proof.
  revert st. induction turns as [|turns IH]; intros st Hall; simpl; [done |].
  pose proof (processNextState_pathTo genAI start goal st Hall) as Hstep.
  destruct (processNextState genAI goal st) as [r|st'|]; [| by apply IH | done].
  by intros [= <-].
Qed.

Lemma initialSearch_pathTo (genAI : option Oracle) (globals : HeuristicState)
    (start goal : CubeState) (st : SearchState) :
  initialSearch genAI globals start goal = Some st →
  Forall (pathTo start) (openSet st) ∧ visited st = ∅.
Proof.
  unfold initialSearch.
  destruct (getSmartHeuristic _ _ _ _) as [[h hst]|]; [| done].
  intros [= <-]. simpl. split; [| done]. by repeat constructor.
Qed.

Lemma scrambleFrom_spec (draws : nat → fin 12) (count i : nat)
    (state scrambled : CubeState) (done applied : list string) :
  scrambleFrom draws i count state done = Some (scrambled, applied) →
  ∃ more, applied = done ++ more
          ∧ Forall (λ m, m ∈ validMoves) more
          ∧ applyMoves state more = Some scrambled.
Proof.
  revert i state done. induction count as [|count IH]; intros i state done; simpl.
  - intros [= <- <-]. exists []. by rewrite app_nil_r.
  - destruct (applyMove state _) as [state'|] eqn:Hmove; [| done].
    intros (more & -> & Hvalid & Hmore)%IH.
    exists (validMoves !!! fin_to_nat (draws i) :: more).
    rewrite <- app_assoc. split; [done |]. split.
    + constructor; [| done]. apply list_elem_of_lookup_total_2.
      pose proof (fin_to_nat_lt (draws i)). simpl. lia.
    + simpl. by rewrite Hmove.
Qed.

(** C2. A solution that [solveCube] resolves with leads to the goal: when
    the promise resolves with a non-empty list of moves, applying them in
    order to the scrambled state raises nothing and yields a state that
    [isGoal] accepts.  In particular so for a state that [scrambleCube]
    produced, whose scramble followed by the solution then leads from the
    solved cube to the goal. *)
Theorem solveCube_solution_reaches_goal (genAI : option Oracle)
    (globals : HeuristicState) (turns : nat) (goalCube : CubeState) :
  (∀ (scrambledCube : CubeState) (result : SolveResult),
     solveCube genAI globals turns scrambledCube goalCube = Resolved result →
     resultMoves result ≠ [] →
     ∃ s', applyMoves scrambledCube (resultMoves result) = Some s'
           ∧ isGoal s' goalCube = Some true)
  ∧ (∀ (draws : nat → fin 12) (count : nat) (scrambledCube : CubeState)
       (applied : list string) (result : SolveResult),
       scrambleCube draws count = Some (scrambledCube, applied) →
       solveCube genAI globals turns scrambledCube goalCube = Resolved result →
       resultMoves result ≠ [] →
       ∃ s', applyMoves scrambledCube (resultMoves result) = Some s'
             ∧ isGoal s' goalCube = Some true
             ∧ applyMoves createSolvedCube (applied ++ resultMoves result)
               = Some s').
Proof.
  assert (∀ (scrambledCube : CubeState) (result : SolveResult),
     solveCube genAI globals turns scrambledCube goalCube = Resolved result →
     resultMoves result ≠ [] →
     ∃ s', applyMoves scrambledCube (resultMoves result) = Some s'
           ∧ isGoal s' goalCube = Some true) as Hmain.
  { intros scrambledCube result Hsolve Hmoves. unfold solveCube in Hsolve.
    destruct (initialSearch genAI globals scrambledCube goalCube)
      as [st|] eqn:Hinit; [| done].
    apply initialSearch_pathTo in Hinit as [Hall _].
    by destruct (runSearch_pathTo _ _ _ _ _ _ Hall Hsolve). }
  split; [done |].
  intros draws count scrambledCube applied result Hscramble Hsolve Hmoves.
  destruct (Hmain scrambledCube result Hsolve Hmoves) as (s' & Hs' & Hgoal).
  exists s'. split; [done |]. split; [done |].
  apply scrambleFrom_spec in Hscramble as (more & -> & _ & Hmore).
  rewrite applyMoves_app. simpl. by rewrite Hmore.
Qed.

Lemma solveCube_solution_reaches_goal_witness :
  ∃ s', applyMoves solvedAfterR ["R'"]%string = Some s'
        ∧ isGoal s' createSolvedCube = Some true
        ∧ applyMoves createSolvedCube (["R"%string] ++ ["R'"%string]) = Some s'.
Proof.
  apply (proj2 (solveCube_solution_reaches_goal None freshHeuristics 2
                  createSolvedCube)
           (λ _, 6%fin) 1%nat solvedAfterR ["R"]%string
           {| resultMoves := ["R'"]%string; statesExplored := 2 |}).
  - vm_compute. reflexivity.
  - vm_compute. reflexivity.
  - discriminate.
Defined.

Lemma processNextState_discards (genAI : option Oracle) (goal : CubeState)
    (st : SearchState) (current : State) (rest : list State) :
  sortByF (openSet st) = current :: rest →
  hashCubeState (cube current) ∈ visited st →
  processNextState genAI goal st
  = Reschedule {| openSet := rest; visited := visited st;
                  heuristics := heuristics st |}.
Proof.
  intros Hsort Hseen. unfold processNextState. rewrite Hsort.
  by rewrite decide_True.
Qed.

Lemma processNextState_marks (genAI : option Oracle) (goal : CubeState)
    (st : SearchState) (current : State) :
  expanding st = Some current →
  (hashCubeState (cube current) ∉ visited st)
  ∧ match processNextState genAI goal st with
    | Resolve result =>
        resultMoves result = moves current
        ∧ statesExplored result
          = size (visited st ∪ {[hashCubeState (cube current)]})
    | Reschedule st' =>
        visited st' = visited st ∪ {[hashCubeState (cube current)]}
    | Raise => True
    end.
Proof.
  unfold expanding, processNextState.
  destruct (sortByF (openSet st)) as [|node rest]; [done |].
  destruct (decide _) as [| Hnew]; [done |]. intros [= ->].
  split; [done |].
  destruct (isGoal (cube current) goal) as [[]|]; [done | | done].
  by destruct (pushNeighbors _ _ _ _ _ _) as [[[] [frontier hst]]|].
Qed.

Lemma processNextState_not_expanding (genAI : option Oracle)
    (goal : CubeState) (st : SearchState) :
  expanding st = None →
  match processNextState genAI goal st with
  | Resolve result => statesExplored result = size (visited st)
  | Reschedule st' =>
      visited st' = visited st ∧ heuristics st' = heuristics st
      ∧ ∃ current, sortByF (openSet st) = current :: openSet st'
  | Raise => False
  end.
Proof.
  unfold expanding, processNextState.
  destruct (sortByF (openSet st)) as [|node rest]; [done |].
  destruct (decide _); [| done]. intros _. simpl. eauto.
Qed.

Lemma processNextState_visited_grows (genAI : option Oracle)
    (goal : CubeState) (st st' : SearchState) :
  processNextState genAI goal st = Reschedule st' → visited st ⊆ visited st'.
Proof.
  intros Hstep. destruct (expanding st) as [current|] eqn:Hexp.
  - destruct (processNextState_marks genAI goal st current Hexp) as [_ Hm].
    rewrite Hstep in Hm. set_solver.
  - pose proof (processNextState_not_expanding genAI goal st Hexp) as Hm.
    rewrite Hstep in Hm. destruct Hm as [-> _]. done.
Qed.

(** The keys expanded in a run are new each time, and the visited set is
    what it was plus these keys. *)
Lemma expandedStates_spec (genAI : option Oracle) (goal : CubeState)
    (turns : nat) (st : SearchState) :
  let keys := hashCubeState <$> expandedStates genAI goal turns st in
  NoDup keys
  ∧ (∀ k, k ∈ keys → k ∉ visited st)
  ∧ (∀ result, runSearch genAI goal turns st = Resolved result →
       statesExplored result = (size (visited st) + length keys)%nat)
  ∧ (∀ st', runSearch genAI goal turns st = Pending st' →
       visited st' = visited st ∪ list_to_set keys).
Proof.
  revert st. induction turns as [|turns IH]; intros st; simpl.
  - split; [constructor |]. split; [by intros k ?%elem_of_nil |].
    split; [done |]. intros st' [= <-]. set_solver.
  - destruct (expanding st) as [current|] eqn:Hexp.
    + destruct (processNextState_marks genAI goal st current Hexp)
        as [Hnew Hm].
      destruct (processNextState genAI goal st) as [r|st1|].
      * destruct Hm as [_ Hsize]. simpl.
        split; [repeat constructor; set_solver |].
        split; [set_solver |]. split; [| done]. intros result [= <-].
        rewrite Hsize, size_union, size_singleton by set_solver. lia.
      * destruct (IH st1) as (Hnd & Hfresh & Hres & Hpend). simpl.
        rewrite Hm in Hfresh, Hres, Hpend.
        split; [constructor; [| done]; intros Hin; apply (Hfresh _ Hin);
                set_solver |].
        split; [intros k [-> | Hk]%elem_of_cons;
                [done | specialize (Hfresh k Hk); set_solver] |].
        split.
        -- intros result Hrun. rewrite (Hres result Hrun).
           rewrite size_union, size_singleton by set_solver.
           unfold fmap. lia.
        -- intros st' Hrun. rewrite (Hpend st' Hrun). set_solver.
      * simpl. split; [repeat constructor; set_solver |].
        split; [set_solver |]. done.
    + pose proof (processNextState_not_expanding genAI goal st Hexp) as Hm.
      destruct (processNextState genAI goal st) as [r|st1|]; [| | done].
      * simpl. split; [constructor |]. split; [set_solver |].
        split; [| done]. intros result [= <-]. lia.
      * destruct Hm as (Hv & _ & _). rewrite <- Hv. apply IH.
Qed.

(** C6. Visited keys are only added; a popped node whose key is visited is
    discarded with nothing tested, pushed or estimated; a node that is
    expanded has a key that was not visited and is visited afterwards; so in
    a run of [solveCube] the expanded states are pairwise distinct, with
    pairwise distinct keys, and [statesExplored] is their number. *)
Theorem each_state_is_expanded_at_most_once (genAI : option Oracle)
    (goalCube : CubeState) :
  (∀ st st',
     processNextState genAI goalCube st = Reschedule st' →
     visited st ⊆ visited st')
  ∧ (∀ st currentState rest,
       sortByF (openSet st) = currentState :: rest →
       hashCubeState (cube currentState) ∈ visited st →
       expanding st = None
       ∧ processNextState genAI goalCube st
         = Reschedule {| openSet := rest; visited := visited st;
                         heuristics := heuristics st |})
  ∧ (∀ st currentState,
       expanding st = Some currentState →
       (hashCubeState (cube currentState) ∉ visited st)
       ∧ ∀ st', processNextState genAI goalCube st = Reschedule st' →
                hashCubeState (cube currentState) ∈ visited st')
  ∧ (∀ globals scrambledCube st0 turns,
       initialSearch genAI globals scrambledCube goalCube = Some st0 →
       NoDup (expandedStates genAI goalCube turns st0)
       ∧ NoDup (hashCubeState <$> expandedStates genAI goalCube turns st0)
       ∧ (∀ result,
            solveCube genAI globals turns scrambledCube goalCube
            = Resolved result →
            statesExplored result
            = length (expandedStates genAI goalCube turns st0))
       ∧ (∀ st,
            solveCube genAI globals turns scrambledCube goalCube
            = Pending st →
            visited st
            = list_to_set
                (hashCubeState <$> expandedStates genAI goalCube turns st0))).
Proof.
  split; [apply processNextState_visited_grows |]. split; [| split].
  - intros st current rest Hsort Hseen. split.
    + unfold expanding. rewrite Hsort. by rewrite decide_True.
    + by apply (processNextState_discards genAI goalCube st current).
  - intros st current Hexp.
    destruct (processNextState_marks genAI goalCube st current Hexp)
      as [Hnew Hm].
    split; [done |]. intros st' Hstep. rewrite Hstep in Hm. set_solver.
  - intros globals scrambledCube st0 turns Hinit.
    destruct (expandedStates_spec genAI goalCube turns st0)
      as (Hnd & _ & Hres & Hpend).
    unfold solveCube. rewrite Hinit.
    apply initialSearch_pathTo in Hinit as [_ Hempty].
    rewrite Hempty in Hres, Hpend.
    split; [by eapply NoDup_fmap_1 |]. split; [done |]. split.
    + intros result Hrun. rewrite (Hres result Hrun).
      rewrite size_empty, length_fmap. lia.
    + intros st Hrun. rewrite (Hpend st Hrun). set_solver.
Qed.

Lemma each_state_is_expanded_at_most_once_witness :
  ∃ st0,
    initialSearch None freshHeuristics solvedAfterR createSolvedCube = Some st0
    ∧ NoDup (expandedStates None createSolvedCube 2 st0)
    ∧ length (expandedStates None createSolvedCube 2 st0) = 2%nat.
Proof.
  destruct (initialSearch None freshHeuristics solvedAfterR createSolvedCube)
    as [st0|] eqn:Hinit; [| by vm_compute in Hinit].
  exists st0.
  destruct (proj2 (proj2 (proj2
              (each_state_is_expanded_at_most_once None createSolvedCube)))
              freshHeuristics solvedAfterR st0 2%nat Hinit)
    as (Hnd & _ & Hres & _).
  split; [done |]. split; [done |]. symmetry.
  apply (Hres {| resultMoves := ["R'"]%string; statesExplored := 2 |}).
  vm_compute. reflexivity.
Defined.

(** ** Termination of the search *)

Lemma reshape_facelets (s : CubeState) :
  wellFormed s → reshape (replicate 6 9%nat) (facelets s) = s.
Proof. intros Hwf. open_cube s Hwf. reflexivity. Qed.

Lemma arranged_key (start s : CubeState) :
  wellFormed s → facelets s ≡ₚ facelets start →
  hashCubeState s ∈ arrangementKeys start.
Proof.
  intros Hwf Hperm. unfold arrangementKeys.
  apply elem_of_list_to_set, list_elem_of_fmap. exists (facelets s).
  split; [by rewrite reshape_facelets |].
  by apply permutations_Permutation.
Qed.

Lemma getAIEnhancedHeuristic_total (genAI : option Oracle)
    (current goal : CubeState) (st : HeuristicState) :
  wellFormed current → wellFormed goal →
  ∃ h st', getAIEnhancedHeuristic genAI current goal st = Some (h, st').
Proof.
  intros Hc Hg.
  destruct (getDisplacedPiecesHeuristic_total current goal Hc Hg)
    as [local Hlocal].
  unfold getAIEnhancedHeuristic, localEstimate. rewrite Hlocal.
  destruct genAI as [oracle|]; [| by eauto].
  destruct (aiHeuristicCache st !! _); [by eauto |].
  destruct (tryOracle _ _ _ _) as [[est|] st']; by eauto.
Qed.

Lemma getSmartHeuristic_total (genAI : option Oracle)
    (current goal : CubeState) (st : HeuristicState) :
  wellFormed current → wellFormed goal →
  ∃ h st', getSmartHeuristic genAI current goal st = Some (h, st').
Proof.
  intros Hc Hg. unfold getSmartHeuristic. destruct (decide _).
  - by apply getAIEnhancedHeuristic_total.
  - destruct (getDisplacedPiecesHeuristic_total current goal Hc Hg)
      as [local Hlocal].
    unfold localEstimate. rewrite Hlocal. by eauto.
Qed.

Lemma pushNeighbors_total (genAI : option Oracle) (start goal : CubeState)
    (current : State) (seen : gset string) (todo : list string)
    (frontier : list State) (hst : HeuristicState) :
  wellFormed goal → arranged start current →
  Forall (arranged start) frontier →
  ∃ frontier' hst',
    pushNeighbors genAI goal current seen todo (frontier, hst)
    = Some (tt, (frontier', hst'))
    ∧ Forall (arranged start) frontier'.
Proof.
  intros Hg [Hwf Hperm]. revert frontier hst.
  induction todo as [|move todo IH]; intros frontier hst Hall; simpl.
  - by exists frontier, hst.
  - destruct (applyMove_total (cube current) move Hwf)
      as (neighbor & -> & Hwf' & Hperm').
    destruct (decide _); [| by apply IH].
    destruct (getSmartHeuristic_total genAI neighbor goal hst Hwf' Hg)
      as (h & hst1 & ->).
    apply IH. apply Forall_app. split; [done |]. constructor; [| done].
    split; [done |]. simpl. by etrans.
Qed.

(** One call of [processNextState] on a frontier of arrangements does not
    raise, and when it reschedules, either the frontier is shorter and the
    visited set the same, or the visited set has one more key of the
    arrangements. *)
Lemma processNextState_progress (genAI : option Oracle)
    (start goal : CubeState) (st : SearchState) :
  wellFormed goal → Forall (arranged start) (openSet st) →
  match processNextState genAI goal st with
  | Resolve _ => True
  | Reschedule st' =>
      Forall (arranged start) (openSet st')
      ∧ ((visited st' = visited st
          ∧ length (openSet st') < length (openSet st))%nat
         ∨ ∃ k, k ∈ arrangementKeys start ∧ (k ∉ visited st)
                ∧ visited st' = visited st ∪ {[k]})
  | Raise => False
  end.
Proof.
  intros Hg Hall. unfold processNextState.
  pose proof (sortByF_Permutation (openSet st)) as Hsort.
  rewrite <- Hsort in Hall. apply Permutation_length in Hsort.
  destruct (sortByF (openSet st)) as [|current rest]; [done |].
  apply Forall_cons in Hall as [Hcur Hrest].
  destruct (decide _) as [Hseen | Hnew].
  - simpl. split; [done |]. left. simpl in Hsort. split; [done | lia].
  - destruct (isGoal_total (cube current) goal (proj1 Hcur) Hg) as [b ->].
    destruct b; [done |].
    destruct (pushNeighbors_total genAI start goal current
                (visited st ∪ {[hashCubeState (cube current)]})
                validMoves rest (heuristics st) Hg Hcur Hrest)
      as (frontier' & hst' & -> & Hall').
    simpl. split; [done |]. right. exists (hashCubeState (cube current)).
    split; [| done]. destruct Hcur. by apply arranged_key.
Qed.

Lemma runSearch_never_stuck (genAI : option Oracle) (start goal : CubeState)
    (turns : nat) (st : SearchState) :
  wellFormed goal → Forall (arranged start) (openSet st) →
  runSearch genAI goal turns st ≠ Stuck.
Proof.
  intros Hg. revert st. induction turns as [|turns IH]; intros st Hall; simpl;
    [done |].
  pose proof (processNextState_progress genAI start goal st Hg Hall) as Hstep.
  destruct (processNextState genAI goal st) as [r|st'|]; [done | | done].
  apply IH. by destruct Hstep.
Qed.

(** The search resolves: the pair of the number of arrangement keys not yet
    visited and the length of the frontier decreases with every call. *)
Lemma runSearch_resolves (genAI : option Oracle) (start goal : CubeState) :
  wellFormed goal →
  ∀ (unseen pending : nat) (st : SearchState),
    Forall (arranged start) (openSet st) →
    size (arrangementKeys start ∖ visited st) = unseen →
    length (openSet st) = pending →
    ∃ turns result, runSearch genAI goal turns st = Resolved result.
Proof.
  intros Hg unseen.
  induction unseen as [unseen IHunseen] using lt_wf_ind.
  intros pending.
  induction pending as [pending IHpending] using lt_wf_ind.
  intros st Hall Hunseen Hpending.
  pose proof (processNextState_progress genAI start goal st Hg Hall) as Hstep.
  destruct (processNextState genAI goal st) as [r|st'|] eqn:Hproc; [| | done].
  - exists 1%nat, r. simpl. by rewrite Hproc.
  - destruct Hstep as [Hall' [[Hsame Hshorter] | (k & Hk & Hnew & Hmore)]].
    + destruct (IHpending (length (openSet st')) ltac:(lia) st' Hall')
        as (turns & result & Hrun); [by rewrite Hsame | done |].
      exists (S turns), result. simpl. by rewrite Hproc.
    + destruct (IHunseen (size (arrangementKeys start ∖ visited st')))
        with (pending := length (openSet st')) (st := st')
        as (turns & result & Hrun); [| done | done | done |].
      * subst unseen. apply subset_size. rewrite Hmore. set_solver.
      * exists (S turns), result. simpl. by rewrite Hproc.
Qed.

Lemma initialSearch_total (genAI : option Oracle) (globals : HeuristicState)
    (start goal : CubeState) :
  wellFormed start → wellFormed goal →
  ∃ st, initialSearch genAI globals start goal = Some st
        ∧ Forall (arranged start) (openSet st).
Proof.
  intros Hs Hg. unfold initialSearch.
  destruct (getSmartHeuristic_total genAI start goal
              {| heuristicCallCount := 0; aiHeuristicCache := ∅;
                 oracleRequests := oracleRequests globals |} Hs Hg)
    as (h & hst & ->).
  eexists. split; [done |]. simpl.
  constructor; [by split | constructor].
Qed.

(** C7. [solveCube] resolves and does not raise: on well-formed states,
    whatever the oracle answers, after enough turns of the event loop the
    promise is resolved with a result, and at no time is the search stuck on
    an exception; and a call of [processNextState] that finds the frontier
    empty resolves with the empty list of moves and the number of visited
    states. *)
Theorem solveCube_always_resolves (genAI : option Oracle)
    (globals : HeuristicState) (scrambledCube goalCube : CubeState) :
  wellFormed scrambledCube → wellFormed goalCube →
  (∃ turns result,
     solveCube genAI globals turns scrambledCube goalCube = Resolved result)
  ∧ (∀ turns, solveCube genAI globals turns scrambledCube goalCube ≠ Stuck)
  ∧ (∀ st, openSet st = [] →
           processNextState genAI goalCube st
           = Resolve {| resultMoves := [];
                        statesExplored := size (visited st) |}).
Proof.
  intros Hs Hg.
  destruct (initialSearch_total genAI globals scrambledCube goalCube Hs Hg)
    as (st & Hinit & Hall).
  unfold solveCube. rewrite Hinit. split; [| split].
  - by eapply runSearch_resolves.
  - intros turns. by eapply runSearch_never_stuck.
  - intros st' Hempty. unfold processNextState. by rewrite Hempty.
Qed.

Lemma solveCube_always_resolves_witness :
  (∃ turns result,
     solveCube None freshHeuristics turns solvedAfterR createSolvedCube
     = Resolved result)
  ∧ (∀ turns,
       solveCube None freshHeuristics turns solvedAfterR createSolvedCube
       ≠ Stuck)
  ∧ (∀ st, openSet st = [] →
           processNextState None createSolvedCube st
           = Resolve {| resultMoves := [];
                        statesExplored := size (visited st) |}).
Proof.
  apply (solveCube_always_resolves None freshHeuristics solvedAfterR
           createSolvedCube).
  - apply wellFormed_solvedAfterR.
  - apply wellFormed_solved.
Defined.

(** ** Further facts about the model *)

(** The goal test is equality of the facelets. *)
Lemma isGoalFrom_same (s : CubeState) (ps : list (nat * nat)) :
  Forall (λ p, p.1 < length s)%nat ps → isGoalFrom s s ps = Some true.
Proof.
  induction 1 as [|[i j] ps Hi _ IH]; simpl; [done |].
  destruct (faceletAt_is_Some s i j Hi) as [a ->].
  by rewrite decide_False by (by intros ?).
Qed.

Lemma isGoal_true_iff (current goal : CubeState) :
  wellFormed current → wellFormed goal →
  isGoal current goal = Some true ↔ current = goal.
Proof.
  intros Hc Hg. split.
  - open_cube current Hc. open_cube goal Hg. unfold isGoal.
    cbn [positions flat_map seq fmap list_fmap app isGoalFrom faceletAt
         lookup list_lookup arrayGet default from_option id].
    repeat lazymatch goal with
    | |- context [decide (?a ≠ ?b)] =>
        destruct (decide (a ≠ b)) as [_ | ->%dec_stable]; [discriminate |]
    end.
    done.
  - intros <-. apply isGoalFrom_same. apply Forall_forall. intros [i j] Hp.
    apply positions_in_range in Hp. destruct Hc as [-> _]. done.
Qed.

(** Trimming removes white space only, so the estimate read from a response
    does not depend on it. *)
Lemma isSpace_not_digit (c : ascii) : isSpace c = true → isDigit c = false.
Proof.
  unfold isSpace, isDigit. intros Hs.
  apply andb_false_iff. apply orb_true_iff in Hs.
  destruct Hs as [[H1 H2]%andb_true_iff | H3].
  - left. apply Nat.leb_gt. apply Nat.leb_le in H2. lia.
  - left. apply Nat.leb_gt. apply Nat.eqb_eq in H3. lia.
Qed.

Lemma firstDigits_trimStart (s : string) :
  firstDigits (trimStart s) = firstDigits s.
Proof.
  induction s as [|c s IH]; [done |]. simpl.
  destruct (isSpace c) eqn:Hc; [| done].
  by rewrite (isSpace_not_digit c Hc).
Qed.

Lemma takeDigits_trimEnd (s : string) :
  takeDigits (trimEnd s) = takeDigits s.
Proof.
  induction s as [|c s IH]; [done |]. simpl.
  destruct (trimEnd s) as [|d t] eqn:Ht.
  - destruct (isSpace c) eqn:Hc; simpl.
    + by rewrite (isSpace_not_digit c Hc).
    + by rewrite <- IH.
  - simpl. simpl in IH. by rewrite IH.
Qed.

Lemma firstDigits_trimEnd (s : string) :
  firstDigits (trimEnd s) = firstDigits s.
Proof.
  induction s as [|c s IH]; [done |].
  destruct (isDigit c) eqn:Hd.
  - pose proof (takeDigits_trimEnd (String c s)) as Htake.
    assert (∃ t, trimEnd (String c s) = String c t) as [t Ht].
    { simpl. destruct (trimEnd s); [| by eexists].
      destruct (isSpace c) eqn:Hc; [| by eexists].
      by rewrite (isSpace_not_digit c Hc) in Hd. }
    rewrite Ht in Htake |- *. simpl. rewrite Hd. simpl in Htake.
    rewrite Hd in Htake. by rewrite Htake.
  - simpl. rewrite Hd. destruct (trimEnd s) as [|d t] eqn:Ht.
    + rewrite <- IH. simpl. destruct (isSpace c); simpl; [done |].
      by rewrite Hd.
    + simpl firstDigits at 1. by rewrite Hd.
Qed.

Lemma parseEstimate_trim (response : string) :
  parseEstimate (trim response) = parseEstimate response.
Proof.
  unfold parseEstimate, trim.
  by rewrite firstDigits_trimEnd, firstDigits_trimStart.
Qed.

(** The manual input applies the tokens of the vocabulary and skips the
    others. *)
Lemma manualMoves_skips_unknown (ms : list string) (s : CubeState) :
  manualMoves s ms = applyMoves s (filter (λ m, m ∈ validMoves) ms).
Proof.
  revert s. induction ms as [|m ms IH]; intros s; simpl; [done |].
  destruct (decide (m ∈ validMoves)) as [Hm | Hm].
  - rewrite filter_cons_True by done. simpl.
    destruct (applyMove s m); [apply IH | done].
  - by rewrite filter_cons_False.
Qed.

(** A scramble returns, with as many moves as asked for. *)
Lemma scrambleFrom_total (draws : nat → fin 12) (count i : nat)
    (state : CubeState) (done : list string) :
  wellFormed state →
  ∃ scrambled applied,
    scrambleFrom draws i count state done = Some (scrambled, applied)
    ∧ wellFormed scrambled
    ∧ length applied = (length done + count)%nat.
Proof.
  revert i state done. induction count as [|count IH];
    intros i state done Hwf; simpl.
  - exists state, done. split; [done |]. split; [done | lia].
  - destruct (applyMove_total state (validMoves !!! fin_to_nat (draws i)) Hwf)
      as (state' & -> & Hwf' & _).
    destruct (IH (S i) state' (done ++ [validMoves !!! fin_to_nat (draws i)])
                Hwf') as (scrambled & applied & -> & Hwf'' & Hlen).
    exists scrambled, applied. split; [done |]. split; [done |].
    rewrite Hlen, length_app. simpl. lia.
Qed.

Lemma scrambleCube_total (draws : nat → fin 12) (moves : nat) :
  ∃ scrambled applied,
    scrambleCube draws moves = Some (scrambled, applied)
    ∧ wellFormed scrambled ∧ length applied = moves.
Proof.
  destruct (scrambleFrom_total draws moves 0 createSolvedCube []
              wellFormed_solved) as (scrambled & applied & H1 & H2 & H3).
  by exists scrambled, applied.
Qed.

(** The popped node has the least [fScore] of the frontier. *)
Lemma insertByF_sorted (x : State) (l : list State) :
  Sorted (λ a b, fScore a ≤ fScore b) l →
  Sorted (λ a b, fScore a ≤ fScore b) (insertByF x l).
Proof.
  induction 1 as [|y l Hl IH Hy]; simpl.
  - by repeat constructor.
  - destruct (decide (fScore x ≤ fScore y)).
    + by repeat constructor.
    + constructor; [done |]. destruct Hy as [|z l Hz]; simpl.
      * constructor. lia.
      * destruct (decide (fScore x ≤ fScore z)); constructor; lia.
Qed.

Lemma sortByF_sorted (l : list State) :
  Sorted (λ a b, fScore a ≤ fScore b) (sortByF l).
Proof.
  induction l as [|x l IH]; simpl; [constructor | by apply insertByF_sorted].
Qed.

(** ** Outside the hypotheses *)

(** Beyond one digit the key no longer separates the facelets. *)
Example hashCubeState_collides_beyond_one_digit :
  hashCubeState [[VNum 1; VNum 11]] = hashCubeState [[VNum 11; VNum 1]].
Proof. reflexivity. Qed.

(** With a face missing, the first estimate raises inside the executor and
    the promise is never settled. *)
Example solveCube_stuck_on_missing_faces :
  solveCube None freshHeuristics 1 [] createSolvedCube = Stuck.
Proof. reflexivity. Qed.

(** On a face that is too short, a move reads [undefined] and grows the
    array. *)
Example applyMove_grows_short_faces :
  applyMove [[VNum 1]; []; []; []; []] "U"
  = Some [[VUndef; VUndef; VNum 1; VUndef; VUndef; VUndef; VUndef; VUndef;
           VUndef];
          [VUndef; VUndef; VUndef]; [VUndef; VUndef; VUndef];
          [VUndef; VUndef; VUndef]; [VUndef; VUndef; VUndef]].
Proof. reflexivity. Qed.

(** * Further properties of the code *)

(** ** The move engine: when it raises *)

Lemma returnsFrom_ret {A} (n : nat) (a : A) : returnsFrom n (ret a).
Proof. intros s Hs. by exists a, s. Qed.

Lemma returnsFrom_bind {A B} (n : nat) (c : Op CubeState A)
    (k : A → Op CubeState B) :
  returnsFrom n c → (∀ a, returnsFrom n (k a)) → returnsFrom n (bind c k).
Proof.
  intros Hc Hk s Hs. unfold bind.
  destruct (Hc s Hs) as (a & s1 & -> & Hlen).
  destruct (Hk a s1) as (b & s2 & -> & Hlen2); [lia |].
  exists b, s2. split; [done | lia].
Qed.

Lemma returnsFrom_readFacelet (n f i : nat) :
  (f < n)%nat → returnsFrom n (readFacelet f i).
Proof.
  intros Hf s Hs. simpl.
  destruct (lookup_lt_is_Some_2 s f) as [face ->]; [lia |]. by eexists _, _.
Qed.

Lemma returnsFrom_spreadFace (n f : nat) :
  (f < n)%nat → returnsFrom n (spreadFace f).
Proof.
  intros Hf s Hs. simpl.
  destruct (lookup_lt_is_Some_2 s f) as [face ->]; [lia |]. by eexists _, _.
Qed.

Lemma returnsFrom_writeFacelet (n f i : nat) (v : value) :
  (f < n)%nat → returnsFrom n (writeFacelet f i v).
Proof.
  intros Hf s Hs. simpl.
  destruct (lookup_lt_is_Some_2 s f) as [face ->]; [lia |].
  eexists _, _. split; [done |]. by rewrite length_insert.
Qed.

Lemma keepsLength_ret {A} (a : A) : keepsLength (ret a).
Proof. by intros s. Qed.

Lemma keepsLength_bind {A B} (c : Op CubeState A) (k : A → Op CubeState B) :
  keepsLength c → (∀ a, keepsLength (k a)) → keepsLength (bind c k).
Proof.
  intros Hc Hk s. unfold bind. specialize (Hc s).
  destruct (c s) as [[a s1]|]; [| done]. specialize (Hk a s1).
  destruct (k a s1) as [[b s2]|]; [| done]. congruence.
Qed.

Lemma keepsLength_readFacelet (f i : nat) : keepsLength (readFacelet f i).
Proof. intros s. simpl. by destruct (s !! f). Qed.

Lemma keepsLength_spreadFace (f : nat) : keepsLength (spreadFace f).
Proof. intros s. simpl. by destruct (s !! f). Qed.

Lemma keepsLength_writeFacelet (f i : nat) (v : value) :
  keepsLength (writeFacelet f i v).
Proof.
  intros s. simpl. destruct (s !! f); [| done]. by rewrite length_insert.
Qed.

Lemma raisesOn_bind_l {A B} (n : nat) (c : Op CubeState A)
    (k : A → Op CubeState B) :
  raisesOn n c → raisesOn n (bind c k).
Proof. intros Hc s Hs. unfold bind. by rewrite (Hc s Hs). Qed.

Lemma raisesOn_bind_r {A B} (n : nat) (c : Op CubeState A)
    (k : A → Op CubeState B) :
  keepsLength c → (∀ a, raisesOn n (k a)) → raisesOn n (bind c k).
Proof.
  intros Hc Hk s Hs. unfold bind. specialize (Hc s).
  destruct (c s) as [[a s1]|]; [| done]. apply Hk. congruence.
Qed.

Lemma raisesOn_readFacelet (n f i : nat) :
  (n ≤ f)%nat → raisesOn n (readFacelet f i).
Proof.
  intros Hf s Hs. simpl. by rewrite (proj2 (lookup_ge_None s f)) by lia.
Qed.

Lemma raisesOn_spreadFace (n f : nat) :
  (n ≤ f)%nat → raisesOn n (spreadFace f).
Proof.
  intros Hf s Hs. simpl. by rewrite (proj2 (lookup_ge_None s f)) by lia.
Qed.

Lemma raisesOn_writeFacelet (n f i : nat) (v : value) :
  (n ≤ f)%nat → raisesOn n (writeFacelet f i v).
Proof.
  intros Hf s Hs. simpl. by rewrite (proj2 (lookup_ge_None s f)) by lia.
Qed.

(** The statements of a [case], down to the reads and writes. *)
Ltac open_cases :=
  unfold case_U, case_U', case_U2, case_D, case_D', case_D2,
    case_R, case_R', case_R2, case_L, case_L', case_L2,
    assign, applyPermutation, readTriple,
    facePermutation, facePermutationPrime, facePermutation2;
  cbn [permuteFrom].

Ltac returns_steps :=
  repeat first
    [ apply returnsFrom_ret
    | apply returnsFrom_readFacelet; lia
    | apply returnsFrom_spreadFace; lia
    | apply returnsFrom_writeFacelet; lia
    | apply returnsFrom_bind; [ | intros ? ] ].

Ltac keeps_steps :=
  repeat first
    [ apply keepsLength_ret
    | apply keepsLength_readFacelet
    | apply keepsLength_spreadFace
    | apply keepsLength_writeFacelet
    | apply keepsLength_bind; [ | intros ? ] ].

Ltac raises_steps :=
  first
    [ apply raisesOn_readFacelet; lia
    | apply raisesOn_spreadFace; lia
    | apply raisesOn_writeFacelet; lia
    | apply raisesOn_bind_l; raises_steps
    | apply raisesOn_bind_r; [ solve [keeps_steps] | intros ?; raises_steps ] ].

Lemma returnsFrom_switchMove (move : string) :
  returnsFrom (if decide (move ∈ validMoves) then facesNeeded move else 0)
    (switchMove move).
Proof.
  destruct (decide (move ∈ validMoves)) as [Hm | Hm].
  - unfold validMoves in Hm.
    each_case Hm; vm_compute facesNeeded; vm_compute switchMove;
      open_cases; returns_steps.
  - rewrite switchMove_unknown by done. apply returnsFrom_ret.
Qed.

Lemma raisesOn_switchMove (move : string) (n : nat) :
  move ∈ validMoves → (n < facesNeeded move)%nat →
  raisesOn n (switchMove move).
Proof.
  intros Hm. unfold validMoves in Hm.
  each_case Hm; vm_compute facesNeeded; intros Hn;
    vm_compute switchMove; open_cases;
    (destruct n as [|[|[|[|[|[|n]]]]]]; [.. | lia]);
    first [ lia | raises_steps ].
Qed.

(** X1. [applyMove] raises only for a missing face: on a state of at least
    six faces, of whatever lengths, every call returns, for every string, and
    the result has as many faces as the input. *)
Theorem applyMove_returns_on_six_faces (s : CubeState) (move : string) :
  (6 ≤ length s)%nat →
  ∃ s', applyMove s move = Some s' ∧ length s' = length s.
Proof.
  intros Hs. unfold applyMove. rewrite list_fmap_id.
  destruct (returnsFrom_switchMove move s) as ([] & s' & -> & Hlen).
  - destruct (decide _); [| lia]. unfold facesNeeded. destruct (decide _); lia.
  - by exists s'.
Qed.

Lemma applyMove_returns_on_six_faces_witness :
  ∃ s', applyMove [[]; [VNum 1]; []; []; []; []; [VNum 2]] "D'" = Some s'
        ∧ length s' = length [[]; [VNum 1]; []; []; []; []; [VNum 2]].
Proof.
  apply (applyMove_returns_on_six_faces
           [[]; [VNum 1]; []; []; []; []; [VNum 2]] "D'").
  simpl. lia.
Defined.

(** X2. When [applyMove] raises: a move of the vocabulary raises exactly on
    the states that lack a face it indexes, which are the states of fewer
    than five faces for the turns of the Up face and of fewer than six for
    the others. *)
Theorem applyMove_raises_iff_face_missing (s : CubeState) (move : string) :
  move ∈ validMoves →
  applyMove s move = None ↔ (length s < facesNeeded move)%nat.
Proof.
  intros Hm. unfold applyMove. rewrite list_fmap_id. split.
  - intros Hnone.
    destruct (decide (length s < facesNeeded move)%nat) as [| Hge]; [done |].
    pose proof (returnsFrom_switchMove move s) as Hret.
    rewrite decide_True in Hret by done.
    destruct Hret as ([] & s' & Hs' & _); [lia |].
    by rewrite Hs' in Hnone.
  - intros Hlt.
    by rewrite (raisesOn_switchMove move (length s) Hm Hlt s eq_refl).
Qed.

Lemma applyMove_raises_iff_face_missing_witness :
  applyMove [[]; []; []; []; []] "R2" = None
  ↔ (length ([[]; []; []; []; []] : CubeState) < facesNeeded "R2")%nat.
Proof.
  apply (applyMove_raises_iff_face_missing [[]; []; []; []; []] "R2").
  unfold validMoves. set_solver.
Defined.


(** ** The move engine: what a move leaves in place and how moves compose *)

(** X3. The centre of every face stays where it is: after any call of
    [applyMove] on a well-formed state, with a move of the vocabulary or any
    other string, facelet 4 of each face is what it was. *)
Theorem applyMove_fixes_centres (s : CubeState) (move : string) :
  wellFormed s →
  ∃ s', applyMove s move = Some s'
        ∧ ∀ f, (f < 6)%nat → faceletAt s' f 4 = faceletAt s f 4.
Proof.
  intros Hwf. destruct (decide (move ∈ validMoves)) as [Hm | Hm].
  - open_cube s Hwf. unfold validMoves in Hm.
    each_case Hm;
      (eexists; split; [cbv; reflexivity |]; intros f Hf;
       do 6 (destruct f as [|f]; [reflexivity |]); lia).
  - exists s. by rewrite applyMove_unknown.
Qed.

Lemma applyMove_fixes_centres_witness :
  ∃ s', applyMove createSolvedCube "L'" = Some s'
        ∧ ∀ f, (f < 6)%nat
               → faceletAt s' f 4 = faceletAt createSolvedCube f 4.
Proof.
  apply (applyMove_fixes_centres createSolvedCube "L'").
  apply wellFormed_solved.
Defined.

(** X4. Turns of opposite faces commute: a turn of the Up face and a turn of
    the Down face give the same state in either order, and so do a turn of
    the Right face and a turn of the Left face. *)
Theorem opposite_turns_commute (s : CubeState) (m1 m2 : string) :
  wellFormed s →
  (m1 ∈ ["U"; "U'"; "U2"]%string ∧ m2 ∈ ["D"; "D'"; "D2"]%string)
  ∨ (m1 ∈ ["R"; "R'"; "R2"]%string ∧ m2 ∈ ["L"; "L'"; "L2"]%string) →
  ∃ s', applyMoves s [m1; m2] = Some s' ∧ applyMoves s [m2; m1] = Some s'.
Proof.
  intros Hwf Hm. open_cube s Hwf.
  destruct Hm as [[Hm1 Hm2] | [Hm1 Hm2]]; each_case Hm1; each_case Hm2;
    (eexists; split; [cbv; reflexivity | vm_compute; reflexivity]).
Qed.

Lemma opposite_turns_commute_witness :
  ∃ s', applyMoves solvedAfterR ["U'"; "D2"]%string = Some s'
        ∧ applyMoves solvedAfterR ["D2"; "U'"]%string = Some s'.
Proof.
  apply (opposite_turns_commute solvedAfterR "U'" "D2").
  - apply wellFormed_solvedAfterR.
  - left. split; set_solver.
Defined.

Lemma arraySet_split (arr : Face) (i : nat) (v : value) :
  (i ≤ length arr)%nat →
  arraySet arr i v = take i arr ++ v :: drop (S i) arr.
Proof.
  intros Hi. unfold arraySet. destruct (decide (i < length arr)%nat).
  - by rewrite insert_take_drop.
  - assert (i = length arr) as -> by lia.
    rewrite Nat.sub_diag, firstn_all, drop_ge by lia. done.
Qed.

Lemma permuteFrom_grid (f : nat) (temp : list value) (perm : list nat)
    (i : nat) (s : CubeState) (cur : Face) :
  s !! f = Some cur → (i ≤ length cur)%nat →
  permuteFrom f temp i perm s
  = Some (tt, <[f := take i cur ++ (arrayGet temp <$> perm)
                     ++ drop (i + length perm) cur]> s).
Proof.
  revert i s cur. induction perm as [|p perm IH]; intros i s cur Hf Hi; simpl.
  - rewrite Nat.add_0_r, take_drop. by rewrite list_insert_id.
  - unfold bind. rewrite Hf.
    assert (f < length s)%nat as Hlt by (by eapply lookup_lt_Some).
    set (v := arrayGet temp p).
    assert (length (take i cur) = i) as Hti by (rewrite length_take; lia).
    rewrite (IH (S i) _ (arraySet cur i v)).
    + rewrite list_insert_insert_eq. do 3 f_equal.
      rewrite arraySet_split by done.
      rewrite take_app, drop_app, Hti, take_take.
      replace (S i `min` i)%nat with i by lia.
      replace (S i - i)%nat with 1%nat by lia.
      replace (S i + length perm - i)%nat with (S (length perm)) by lia.
      rewrite (drop_ge (take i cur)) by lia. simpl.
      rewrite drop_drop, take_0, <- app_assoc. simpl.
      by replace (i + S (length perm))%nat with (S (i + length perm)) by lia.
    + by rewrite list_lookup_insert_eq.
    + rewrite arraySet_split by done.
      rewrite length_app, Hti. simpl. lia.
Qed.

(** X5. [applyPermutation] reads from the copy it took: face [f] becomes
    the old facelets at the indices [perm] lists, in that order, followed by
    the old facelets past the length of [perm]; and when [perm] lists each
    index of the face once, the new face is a rearrangement of the old. *)
Theorem applyPermutation_reads_the_snapshot (s : CubeState) (f : nat)
    (face : Face) (perm : list nat) :
  s !! f = Some face →
  applyPermutation f perm s
  = Some (tt, <[f := (arrayGet face <$> perm) ++ drop (length perm) face]> s)
  ∧ (perm ≡ₚ seq 0 (length face) →
     (arrayGet face <$> perm) ++ drop (length perm) face ≡ₚ face).
Proof.
  intros Hf. split.
  - unfold applyPermutation, bind. simpl. rewrite Hf.
    rewrite (permuteFrom_grid f face perm 0 s face Hf) by lia. done.
  - intros Hperm. rewrite (Permutation_length Hperm), length_seq.
    rewrite drop_all, app_nil_r, Hperm.
    assert (arrayGet face <$> seq 0 (length face) = face) as ->; [| done].
    apply list_eq. intros i. rewrite list_lookup_fmap.
    destruct (face !! i) as [v|] eqn:Hi.
    + rewrite lookup_seq_lt by (by eapply lookup_lt_Some). simpl.
      unfold arrayGet. by rewrite Hi.
    + rewrite lookup_seq_ge; [done |]. by apply lookup_ge_None.
Qed.

Lemma applyPermutation_reads_the_snapshot_witness :
  applyPermutation 0 [1; 2; 0]%nat [[VNum 7; VNum 8; VNum 9]]
  = Some (tt, <[0%nat := (arrayGet [VNum 7; VNum 8; VNum 9] <$> [1; 2; 0]%nat)
                  ++ drop (length [1; 2; 0]%nat) [VNum 7; VNum 8; VNum 9]]>
                [[VNum 7; VNum 8; VNum 9]])
  ∧ ([1; 2; 0]%nat ≡ₚ seq 0 (length [VNum 7; VNum 8; VNum 9]) →
     (arrayGet [VNum 7; VNum 8; VNum 9] <$> [1; 2; 0]%nat)
       ++ drop (length [1; 2; 0]%nat) [VNum 7; VNum 8; VNum 9]
     ≡ₚ [VNum 7; VNum 8; VNum 9]).
Proof.
  apply (applyPermutation_reads_the_snapshot
           [[VNum 7; VNum 8; VNum 9]] 0 [VNum 7; VNum 8; VNum 9]
           [1; 2; 0]%nat).
  reflexivity.
Defined.

Lemma applyMove_inverse (s : CubeState) (X : string) :
  wellFormed s → X ∈ validMoves →
  ∃ s', applyMove s X = Some s' ∧ wellFormed s'
        ∧ applyMove s' (inverseMove X) = Some s
        ∧ inverseMove X ∈ validMoves.
Proof.
  intros Hwf HX. open_cube s Hwf. unfold validMoves in HX.
  each_case HX;
    (eexists; split; [cbv; reflexivity |];
     split; [by compute; auto 20 |];
     split; [vm_compute; reflexivity | vm_compute; set_solver]).
Qed.

Lemma applyMoves_undo (ms : list string) (s s' : CubeState) :
  wellFormed s → Forall (λ m, m ∈ validMoves) ms →
  applyMoves s ms = Some s' →
  applyMoves s' (inverseMove <$> reverse ms) = Some s
  ∧ Forall (λ m, m ∈ validMoves) (inverseMove <$> reverse ms).
Proof.
  revert s. induction ms as [|m ms IH]; intros s Hwf Hms; simpl.
  - intros [= <-]. by split; [| constructor].
  - apply Forall_cons in Hms as [Hm Hms].
    destruct (applyMove_inverse s m Hwf Hm) as (s1 & -> & Hwf1 & Hback & Hinv).
    intros Hrest. destruct (IH s1 Hwf1 Hms Hrest) as [Hundo Hvalid].
    rewrite reverse_cons, fmap_app. split.
    + rewrite applyMoves_app, Hundo. simpl. by rewrite Hback.
    + apply Forall_app. split; [done |]. constructor; [done | constructor].
Qed.

(** X6. Every sequence of moves is undone by the inverses of its moves in
    reverse order: from the state the sequence leads to, they lead back to
    the state it started from. *)
Theorem moves_undone_by_reversed_inverses (ms : list string)
    (s s' : CubeState) :
  wellFormed s → Forall (λ m, m ∈ validMoves) ms →
  applyMoves s ms = Some s' →
  applyMoves s' (inverseMove <$> reverse ms) = Some s
  ∧ Forall (λ m, m ∈ validMoves) (inverseMove <$> reverse ms).
Proof. apply applyMoves_undo. Qed.

Lemma moves_undone_by_reversed_inverses_witness :
  applyMoves solvedAfterR (inverseMove <$> reverse ["R"]%string)
  = Some createSolvedCube
  ∧ Forall (λ m, m ∈ validMoves) (inverseMove <$> reverse ["R"]%string).
Proof.
  apply (moves_undone_by_reversed_inverses ["R"]%string createSolvedCube
           solvedAfterR).
  - apply wellFormed_solved.
  - unfold validMoves. repeat constructor.
  - vm_compute. reflexivity.
Defined.

(** ** The goal test and the local estimate *)

(** X7. On well-formed states [isGoal] decides equality: it returns
    [true] when the two states are equal facelet for facelet and [false]
    otherwise, and it does not raise. *)
Theorem isGoal_decides_equality (current goal : CubeState) :
  wellFormed current → wellFormed goal →
  isGoal current goal = Some (bool_decide (current = goal)).
Proof.
  intros Hc Hg. destruct (isGoal_total current goal Hc Hg) as [b Hb].
  rewrite Hb. f_equal. destruct b.
  - apply isGoal_true_iff in Hb; [| done | done]. by rewrite bool_decide_true.
  - rewrite bool_decide_false; [done |]. intros Heq.
    apply isGoal_true_iff in Heq; [| done | done]. congruence.
Qed.

Lemma isGoal_decides_equality_witness :
  isGoal solvedAfterR createSolvedCube
  = Some (bool_decide (solvedAfterR = createSolvedCube)).
Proof.
  apply (isGoal_decides_equality solvedAfterR createSolvedCube).
  - apply wellFormed_solvedAfterR.
  - apply wellFormed_solved.
Defined.

(** The count of displaced facelets grows by at most one per position, and
    stays where it was exactly when the goal test passes. *)
Lemma displacedFrom_spec (current goal : CubeState) (ps : list (nat * nat))
    (n r : Z) :
  displacedFrom current goal ps n = Some r →
  n ≤ r ≤ n + Z.of_nat (length ps)
  ∧ (r = n ↔ isGoalFrom current goal ps = Some true).
Proof.
  revert n. induction ps as [|[i j] ps IH]; intros n; simpl.
  - intros [= <-]. split; [lia | done].
  - destruct (faceletAt current i j) as [a|]; [| done].
    destruct (faceletAt goal i j) as [b|]; [| done].
    destruct (decide (a ≠ b)); intros Hr; apply IH in Hr as [Hrange Hiff].
    + split; [lia |]. split; [lia | done].
    + split; [lia | done].
Qed.

(** X8. The local estimate on well-formed states lies between 0 and 7, and
    it is 0 exactly when the state is the goal. *)
Theorem getDisplacedPiecesHeuristic_zero_iff_goal (current goal : CubeState) :
  wellFormed current → wellFormed goal →
  ∃ h, getDisplacedPiecesHeuristic current goal = Some h
       ∧ 0 ≤ h ≤ 7
       ∧ (h = 0 ↔ current = goal).
Proof.
  intros Hc Hg. unfold getDisplacedPiecesHeuristic.
  destruct (displacedFrom current goal positions 0) as [d|] eqn:Hd.
  - destruct (displacedFrom_spec _ _ _ _ _ Hd) as [Hrange Hiff].
    change (Z.of_nat (length positions)) with 54 in Hrange.
    exists (ceilDiv d 8). split; [done |]. unfold ceilDiv.
    pose proof (Z.div_mod (- d) 8 ltac:(lia)) as Hdiv.
    pose proof (Z.mod_pos_bound (- d) 8 ltac:(lia)) as Hmod.
    split; [lia |].
    rewrite <- (isGoal_true_iff current goal Hc Hg). unfold isGoal.
    rewrite <- Hiff. lia.
  - destruct (getDisplacedPiecesHeuristic_total current goal Hc Hg) as [h Hh].
    unfold getDisplacedPiecesHeuristic in Hh. by rewrite Hd in Hh.
Qed.

Lemma getDisplacedPiecesHeuristic_zero_iff_goal_witness :
  ∃ h, getDisplacedPiecesHeuristic solvedAfterR createSolvedCube = Some h
       ∧ 0 ≤ h ≤ 7
       ∧ (h = 0 ↔ solvedAfterR = createSolvedCube).
Proof.
  apply (getDisplacedPiecesHeuristic_zero_iff_goal solvedAfterR
           createSolvedCube).
  - apply wellFormed_solvedAfterR.
  - apply wellFormed_solved.
Defined.

(** X9. The local estimate is not a lower bound on the number of moves
    left: after any one move of the vocabulary from the solved cube the
    estimate is 2, and one move, the inverse, leads back to the solved
    cube. *)
Theorem getDisplacedPiecesHeuristic_overestimates (move : string) :
  move ∈ validMoves →
  ∃ s, applyMove createSolvedCube move = Some s
       ∧ getDisplacedPiecesHeuristic s createSolvedCube = Some 2
       ∧ applyMove s (inverseMove move) = Some createSolvedCube.
Proof.
  intros Hm. unfold validMoves in Hm.
  each_case Hm;
    (eexists; split; [cbv; reflexivity |];
     split; vm_compute; reflexivity).
Qed.

Lemma getDisplacedPiecesHeuristic_overestimates_witness :
  ∃ s, applyMove createSolvedCube "U2" = Some s
       ∧ getDisplacedPiecesHeuristic s createSolvedCube = Some 2
       ∧ applyMove s (inverseMove "U2") = Some createSolvedCube.
Proof.
  apply (getDisplacedPiecesHeuristic_overestimates "U2").
  unfold validMoves. repeat constructor.
Defined.

(** ** Reading the estimate out of a response *)

Lemma firstDigits_noDigit_prefix (p r : string) :
  noDigit p = true → firstDigits (p ++ r) = firstDigits r.
Proof.
  induction p as [|c p IH]; [done |]. simpl.
  intros [Hc Hp]%andb_true_iff.
  apply negb_true_iff in Hc. rewrite Hc. by apply IH.
Qed.

Lemma firstDigits_noDigit (r : string) :
  noDigit r = true → firstDigits r = None.
Proof.
  intros Hr. rewrite <- (append_empty_r r).
  by rewrite firstDigits_noDigit_prefix.
Qed.

Lemma takeDigits_all_digits (s : string) :
  Forall (λ c, isDigit c = true) (list_ascii_of_string (takeDigits s)).
Proof.
  induction s as [|c s IH]; simpl; [constructor |].
  destruct (isDigit c) eqn:Hc; simpl; by constructor.
Qed.

Lemma isDigit_value (c : ascii) :
  isDigit c = true → 0 ≤ Z.of_nat (nat_of_ascii c) - 48 ≤ 9.
Proof.
  unfold isDigit. intros [H1 H2]%andb_true_iff.
  apply Nat.leb_le in H1, H2. lia.
Qed.

Lemma foldl_digits_nonneg (l : list ascii) (acc : Z) :
  Forall (λ c, isDigit c = true) l → 0 ≤ acc →
  0 ≤ foldl (λ acc c, 10 * acc + (Z.of_nat (nat_of_ascii c) - 48)) acc l.
Proof.
  intros Hl. revert acc. induction Hl as [|c l Hc _ IH]; intros acc Hacc; simpl.
  - done.
  - apply IH. pose proof (isDigit_value c Hc). lia.
Qed.

Lemma parseDigits_nonneg (s : string) :
  Forall (λ c, isDigit c = true) (list_ascii_of_string s) →
  0 ≤ parseDigits s.
Proof. intros Hs. unfold parseDigits. by apply foldl_digits_nonneg. Qed.

(** X10. What [parseEstimate] makes of text that is not a number: a
    response without a digit reads as 0, which the range check rejects; text
    without a digit in front of the response does not change what is read, so
    a minus sign is dropped and a negative numeral reads as its absolute
    value; and what is read is never negative. *)
Theorem parseEstimate_of_text_without_digits (p r : string) :
  noDigit p = true →
  parseEstimate p = 0
  ∧ parseEstimate (p ++ r) = parseEstimate r
  ∧ parseEstimate ("-" ++ r) = parseEstimate r
  ∧ 0 ≤ parseEstimate r.
Proof.
  intros Hp. unfold parseEstimate.
  split; [by rewrite firstDigits_noDigit |].
  split; [by rewrite firstDigits_noDigit_prefix |].
  split; [by rewrite (firstDigits_noDigit_prefix "-" r) |].
  destruct (firstDigits r) as [ds|] eqn:Hds; simpl; [| done].
  apply parseDigits_nonneg.
  assert (∃ t, ds = takeDigits t) as [t ->]; [| apply takeDigits_all_digits].
  clear Hp. induction r as [|c r IH]; simpl in Hds; [done |].
  destruct (isDigit c) eqn:Hc.
  - injection Hds as <-. exists (String c r). simpl. by rewrite Hc.
  - by apply IH.
Qed.

Lemma parseEstimate_of_text_without_digits_witness :
  parseEstimate "about " = 0
  ∧ parseEstimate ("about " ++ "12 moves") = parseEstimate "12 moves"
  ∧ parseEstimate ("-" ++ "12 moves") = parseEstimate "12 moves"
  ∧ 0 ≤ parseEstimate "12 moves".
Proof.
  apply (parseEstimate_of_text_without_digits "about " "12 moves").
  reflexivity.
Defined.









(** ** The heuristic provider: what it keeps in the cache and what it asks *)

Lemma localEstimate_range (current goal : CubeState) (h : Z) :
  getDisplacedPiecesHeuristic current goal = Some h → 0 ≤ h ≤ 7.
Proof.
  unfold getDisplacedPiecesHeuristic.
  destruct (displacedFrom current goal positions 0) as [d|] eqn:Hd; [| done].
  intros [= <-]. destruct (displacedFrom_spec _ _ _ _ _ Hd) as [Hrange _].
  change (Z.of_nat (length positions)) with 54 in Hrange. unfold ceilDiv.
  pose proof (Z.div_mod (- d) 8 ltac:(lia)) as Hdiv.
  pose proof (Z.mod_pos_bound (- d) 8 ltac:(lia)) as Hmod. lia.
Qed.

Lemma tryOracle_spec (oracle : Oracle) (key : string) (current : CubeState)
    (st st' : HeuristicState) (result : option Z) :
  tryOracle oracle key current st = (result, st') →
  heuristicCallCount st' = heuristicCallCount st
  ∧ (oracleRequests st' = oracleRequests st
     ∨ ∃ prompt, oracleRequests st' = oracleRequests st ++ [prompt])
  ∧ match result with
    | Some estimate =>
        0 < estimate < 50
        ∧ aiHeuristicCache st' = <[key := estimate]> (aiHeuristicCache st)
    | None => aiHeuristicCache st' = aiHeuristicCache st
    end.
Proof.
  unfold tryOracle.
  destruct (formatCubeStateForAI current) as [formatted|];
    [| by intros [= <- <-]; auto].
  destruct (oracle _ _) as [text|]; [| by intros [= <- <-]; simpl; eauto].
  destruct (decide _) as [Hin | Hout]; intros [= <- <-]; simpl.
  - split; [done |]. split; [by eauto |]. split; [lia | done].
  - by eauto.
Qed.

Lemma getAIEnhancedHeuristic_spec (genAI : option Oracle)
    (current goal : CubeState) (st st' : HeuristicState) (h : Z) :
  getAIEnhancedHeuristic genAI current goal st = Some (h, st') →
  heuristicCallCount st' = heuristicCallCount st
  ∧ (oracleRequests st' = oracleRequests st
     ∨ is_Some genAI
       ∧ ∃ prompt, oracleRequests st' = oracleRequests st ++ [prompt])
  ∧ (genAI = None → st' = st)
  ∧ (cacheInRange st → cacheInRange st' ∧ 0 ≤ h < 50).
Proof.
  unfold getAIEnhancedHeuristic.
  assert (∀ s0, localEstimate current goal s0 = Some (h, st') →
            st' = s0 ∧ 0 ≤ h ≤ 7) as Hlocal.
  { intros s0. unfold localEstimate.
    destruct (getDisplacedPiecesHeuristic current goal) as [h0|] eqn:Hh;
      [| done].
    intros [= <- <-]. split; [done |]. by eapply localEstimate_range. }
  destruct genAI as [oracle|].
  - destruct (aiHeuristicCache st !! hashCubeState current)
      as [cached|] eqn:Hcache.
    + intros [= <- <-]. split; [done |]. split; [by left |].
      split; [done |]. intros Hrange. split; [done |].
      specialize (Hrange _ _ Hcache). simpl in Hrange. lia.
    + destruct (tryOracle oracle (hashCubeState current) current st)
        as [result st1] eqn:Htry.
      apply tryOracle_spec in Htry as (Hcount & Hreq & Hres).
      assert (oracleRequests st1 = oracleRequests st
              ∨ is_Some (Some oracle)
                ∧ ∃ prompt, oracleRequests st1 = oracleRequests st ++ [prompt])
        as Hreq'.
      { destruct Hreq as [-> | Hreq]; [by left | right; by split]. }
      destruct result as [estimate|].
      * intros [= <- <-]. split; [done |]. split; [done |].
        split; [done |]. intros Hrange. destruct Hres as [Hest Hcache'].
        split; [| lia]. unfold cacheInRange. rewrite Hcache'.
        by apply map_Forall_insert_2.
      * intros [-> Hh]%Hlocal. split; [done |]. split; [done |].
        split; [done |]. intros Hrange. split; [| lia].
        unfold cacheInRange. by rewrite Hres.
  - intros [-> Hh]%Hlocal. split; [done |]. split; [by left |].
    split; [done |]. intros Hrange. split; [done | lia].
Qed.

(** What one call of [getSmartHeuristic] does to the module variables. *)
Lemma getSmartHeuristic_spec (genAI : option Oracle)
    (current goal : CubeState) (st st' : HeuristicState) (h : Z) :
  getSmartHeuristic genAI current goal st = Some (h, st') →
  heuristicCallCount st' = S (heuristicCallCount st)
  ∧ (oracleRequests st' = oracleRequests st
     ∨ (S (heuristicCallCount st) `mod` 15 = 0)%nat ∧ is_Some genAI
       ∧ ∃ prompt, oracleRequests st' = oracleRequests st ++ [prompt])
  ∧ (genAI = None → st' = countCall st)
  ∧ (cacheInRange st → cacheInRange st' ∧ 0 ≤ h < 50).
Proof.
  unfold getSmartHeuristic. destruct (decide _) as [[Hmod Hsome] | Hnot].
  - intros (Hcount & Hreq & Hnone & Hrange)%getAIEnhancedHeuristic_spec.
    simpl in *. split; [done |]. split; [| split; [done |]; done].
    destruct Hreq as [-> | [_ Hreq]]; [by left | by right].
  - unfold localEstimate.
    destruct (getDisplacedPiecesHeuristic current goal) as [h0|] eqn:Hh;
      [| done].
    intros [= <- <-]. simpl. split; [done |]. split; [by left |].
    split; [done |]. intros Hrange. split; [done |].
    apply localEstimate_range in Hh. lia.
Qed.




(** A property of the module variables that every call of
    [getSmartHeuristic] keeps is kept by the search. *)
Lemma pushNeighbors_heuristics (P : HeuristicState → Prop)
    (genAI : option Oracle) (goal : CubeState) (current : State)
    (seen : gset string) (todo : list string)
    (frontier frontier' : list State) (hst hst' : HeuristicState) :
  (∀ c st h st',
     P st → getSmartHeuristic genAI c goal st = Some (h, st') → P st') →
  P hst →
  pushNeighbors genAI goal current seen todo (frontier, hst)
  = Some (tt, (frontier', hst')) →
  P hst'.
Proof.
  intros Hkeeps. revert frontier hst.
  induction todo as [|move todo IH]; intros frontier hst HP; simpl.
  - by intros [= <- <-].
  - destruct (applyMove (cube current) move) as [neighbor|]; [| done].
    destruct (decide _); [| by apply IH].
    destruct (getSmartHeuristic _ _ _ _) as [[h hst1]|] eqn:Hcall; [| done].
    apply IH. by eapply Hkeeps.
Qed.

Lemma runSearch_heuristics (P : HeuristicState → Prop)
    (genAI : option Oracle) (goal : CubeState) (turns : nat)
    (st st' : SearchState) :
  (∀ c st h st',
     P st → getSmartHeuristic genAI c goal st = Some (h, st') → P st') →
  P (heuristics st) →
  runSearch genAI goal turns st = Pending st' →
  P (heuristics st').
Proof.
  intros Hkeeps. revert st. induction turns as [|turns IH]; intros st HP; simpl.
  - by intros [= <-].
  - unfold processNextState.
    destruct (sortByF (openSet st)) as [|current rest]; [done |].
    destruct (decide _); [by apply IH |].
    destruct (isGoal (cube current) goal) as [[]|]; [done | | done].
    destruct (pushNeighbors _ _ _ _ _ _) as [[[] [frontier hst]]|] eqn:Hpush;
      [| done].
    apply IH. simpl. by eapply pushNeighbors_heuristics.
Qed.

(** X13. The oracle is asked at most once in fifteen calls of the
    heuristic: at every turn of a search, the prompts sent since the search
    began number at most the count of heuristic calls divided by 15; the
    cache holds only estimates strictly between 0 and 50; and without an
    oracle nothing is sent and nothing is cached. *)
Theorem solveCube_oracle_budget (genAI : option Oracle)
    (globals : HeuristicState) (turns : nat)
    (scrambledCube goalCube : CubeState) (st : SearchState) :
  solveCube genAI globals turns scrambledCube goalCube = Pending st →
  (length (oracleRequests (heuristics st))
   ≤ length (oracleRequests globals)
     + heuristicCallCount (heuristics st) `div` 15)%nat
  ∧ cacheInRange (heuristics st)
  ∧ (genAI = None →
     oracleRequests (heuristics st) = oracleRequests globals
     ∧ aiHeuristicCache (heuristics st) = ∅).
Proof.
  set (P := λ hst : HeuristicState,
         (length (oracleRequests hst)
          ≤ length (oracleRequests globals) + heuristicCallCount hst `div` 15)%nat
         ∧ cacheInRange hst
         ∧ (genAI = None →
            oracleRequests hst = oracleRequests globals
            ∧ aiHeuristicCache hst = ∅)).
  assert (∀ c hst h hst',
            P hst → getSmartHeuristic genAI c goalCube hst = Some (h, hst') →
            P hst') as Hkeeps.
  { intros c hst h hst' (Hbudget & Hrange & Hnone)
      (Hcount & Hreq & Hno & Hcache)%getSmartHeuristic_spec.
    split; [| split].
    - rewrite Hcount.
      pose proof (Nat.div_mod_eq (heuristicCallCount hst) 15) as Hd1.
      pose proof (Nat.mod_upper_bound (heuristicCallCount hst) 15) as Hm1.
      pose proof (Nat.div_mod_eq (S (heuristicCallCount hst)) 15) as Hd2.
      pose proof (Nat.mod_upper_bound (S (heuristicCallCount hst)) 15) as Hm2.
      destruct Hreq as [-> | (Hmod & _ & prompt & ->)].
      + lia.
      + rewrite length_app. change (length [prompt]) with 1%nat. lia.
    - by apply Hcache.
    - intros ->. rewrite (Hno eq_refl). simpl. by apply Hnone. }
  unfold solveCube, initialSearch.
  destruct (getSmartHeuristic _ _ _ _) as [[h hst]|] eqn:Hcall; [| done].
  intros Hrun.
  eapply (runSearch_heuristics P genAI goalCube turns); [done | | done].
  simpl. apply (λ HP, Hkeeps _ _ _ _ HP Hcall).
  split; [simpl; lia |]. split; [apply map_Forall_empty | done].
Qed.

Lemma solveCube_oracle_budget_witness :
  ∃ st,
    solveCube (Some sevenMoves) freshHeuristics 1 solvedAfterR
      createSolvedCube = Pending st
    ∧ (length (oracleRequests (heuristics st))
       ≤ length (oracleRequests freshHeuristics)
         + heuristicCallCount (heuristics st) `div` 15)%nat
    ∧ cacheInRange (heuristics st).
Proof.
  destruct (solveCube (Some sevenMoves) freshHeuristics 1 solvedAfterR
              createSolvedCube) as [r|st|] eqn:Hrun;
    [by vm_compute in Hrun | | by vm_compute in Hrun].
  exists st. split; [done |].
  destruct (solveCube_oracle_budget _ _ _ _ _ _ Hrun) as (Hb & Hc & _).
  by split.
Defined.

(** ** The search: what its nodes and its result satisfy *)

(** A property of nodes that passes from a node to its neighbours holds of
    everything [pushNeighbors] pushes. *)
Lemma pushNeighbors_frontier (Q : State → Prop) (genAI : option Oracle)
    (goal : CubeState) (current : State) (seen : gset string)
    (todo : list string) (frontier frontier' : list State)
    (hst hst' : HeuristicState) :
  (∀ move neighbor h,
     move ∈ todo → applyMove (cube current) move = Some neighbor →
     Q {| cube := neighbor; gScore := gScore current + 1; hScore := h;
          fScore := gScore current + 1 + h;
          moves := moves current ++ [move] |}) →
  Forall Q frontier →
  pushNeighbors genAI goal current seen todo (frontier, hst)
  = Some (tt, (frontier', hst')) →
  Forall Q frontier'.
Proof.
  revert frontier hst.
  induction todo as [|move todo IH]; intros frontier hst Hstep Hall; simpl.
  - by intros [= <- <-].
  - destruct (applyMove (cube current) move) as [neighbor|] eqn:Hmove;
      [| done].
    assert (∀ move' neighbor' h,
              move' ∈ todo →
              applyMove (cube current) move' = Some neighbor' →
              Q {| cube := neighbor'; gScore := gScore current + 1;
                   hScore := h; fScore := gScore current + 1 + h;
                   moves := moves current ++ [move'] |}) as Hstep'.
    { intros move' neighbor' h Hin. apply Hstep. by right. }
    destruct (decide _); [| by apply IH].
    destruct (getSmartHeuristic _ _ _ _) as [[h hst1]|]; [| done].
    apply IH; [done |]. apply Forall_app. split; [done |].
    constructor; [| done]. apply Hstep; [by left | done].
Qed.

Lemma wellScored_neighbor (current : State) (move : string)
    (neighbor : CubeState) (h : Z) :
  wellScored current → move ∈ validMoves →
  wellScored {| cube := neighbor; gScore := gScore current + 1; hScore := h;
                fScore := gScore current + 1 + h;
                moves := moves current ++ [move] |}.
Proof.
  intros (Hg & Hf & Hm) Hmove. unfold wellScored. simpl.
  split; [rewrite length_app; simpl; lia |]. split; [done |].
  apply Forall_app. split; [done |]. constructor; [done | constructor].
Qed.

Lemma processNextState_wellScored (genAI : option Oracle) (goal : CubeState)
    (st : SearchState) :
  Forall wellScored (openSet st) →
  match processNextState genAI goal st with
  | Resolve result => Forall (λ m, m ∈ validMoves) (resultMoves result)
  | Reschedule st' => Forall wellScored (openSet st')
  | Raise => True
  end.
Proof.
  intros Hall. unfold processNextState.
  rewrite <- (sortByF_Permutation (openSet st)) in Hall.
  destruct (sortByF (openSet st)) as [|current rest]; [constructor |].
  apply Forall_cons in Hall as [Hcur Hrest].
  destruct (decide _); [done |].
  destruct (isGoal (cube current) goal) as [[]|]; [by destruct Hcur as (_ & _ & ?) | | done].
  destruct (pushNeighbors _ _ _ _ _ _) as [[[] [frontier hst]]|] eqn:Hpush;
    [| done].
  simpl. eapply pushNeighbors_frontier; [| exact Hrest | exact Hpush].
  intros move neighbor h Hin _. by apply wellScored_neighbor.
Qed.

(** X14. The scores of the search agree with the paths: at every turn each
    node of the frontier has as cost the number of its moves, as total its
    cost plus its estimate, and moves of the vocabulary only; and the moves
    of a result are all of the vocabulary. *)
Theorem solveCube_nodes_are_well_scored (genAI : option Oracle)
    (globals : HeuristicState) (turns : nat)
    (scrambledCube goalCube : CubeState) :
  match solveCube genAI globals turns scrambledCube goalCube with
  | Resolved result => Forall (λ m, m ∈ validMoves) (resultMoves result)
  | Pending st =>
      Forall (λ node,
                gScore node = Z.of_nat (length (moves node))
                ∧ fScore node = gScore node + hScore node
                ∧ Forall (λ m, m ∈ validMoves) (moves node))
             (openSet st)
  | Stuck => True
  end.
Proof.
  unfold solveCube, initialSearch.
  destruct (getSmartHeuristic _ _ _ _) as [[h hst]|]; [| done].
  match goal with |- context [runSearch _ _ _ ?st0] => set (st := st0) end.
  assert (Forall wellScored (openSet st)) as Hall.
  { repeat constructor. }
  clearbody st. revert st Hall.
  induction turns as [|turns IH]; intros st Hall; simpl; [done |].
  pose proof (processNextState_wellScored genAI goalCube st Hall) as Hstep.
  destruct (processNextState genAI goalCube st) as [r|st'|]; [done | | done].
  by apply IH.
Qed.

(** X15. A start state that is the goal already: on a well-formed state
    given as both start and goal, the first call of [processNextState]
    resolves with the empty list of moves and one state explored, whatever
    the oracle answers. *)
Theorem solveCube_on_the_goal_itself (genAI : option Oracle)
    (globals : HeuristicState) (turns : nat) (s : CubeState) :
  wellFormed s →
  solveCube genAI globals (S turns) s s
  = Resolved {| resultMoves := []; statesExplored := 1 |}.
Proof.
  intros Hwf. unfold solveCube, initialSearch.
  destruct (getSmartHeuristic_total genAI s s
              {| heuristicCallCount := 0; aiHeuristicCache := ∅;
                 oracleRequests := oracleRequests globals |} Hwf Hwf)
    as (h & hst & ->).
  cbn [runSearch]. unfold processNextState.
  cbn [openSet sortByF foldr insertByF cube visited moves].
  rewrite decide_False by set_solver.
  rewrite (proj2 (isGoal_true_iff s s Hwf Hwf) eq_refl).
  by rewrite (left_id_L ∅ (∪)), size_singleton.
Qed.

Lemma solveCube_on_the_goal_itself_witness :
  solveCube None freshHeuristics 1 solvedAfterR solvedAfterR
  = Resolved {| resultMoves := []; statesExplored := 1 |}.
Proof.
  apply (solveCube_on_the_goal_itself None freshHeuristics 0 solvedAfterR).
  apply wellFormed_solvedAfterR.
Defined.

Lemma processNextState_path_below_visited (genAI : option Oracle)
    (goal : CubeState) (st : SearchState) :
  (openSet st ≠ [] ∨ 0 < size (visited st))%nat →
  Forall (λ n, length (moves n) ≤ size (visited st))%nat (openSet st) →
  match processNextState genAI goal st with
  | Resolve result =>
      (length (resultMoves result) < statesExplored result)%nat
  | Reschedule st' =>
      (0 < size (visited st'))%nat
      ∧ Forall (λ n, length (moves n) ≤ size (visited st'))%nat (openSet st')
  | Raise => True
  end.
Proof.
  intros Hsome Hall. unfold processNextState.
  pose proof (sortByF_Permutation (openSet st)) as Hsort.
  rewrite <- Hsort in Hall.
  destruct (sortByF (openSet st)) as [|current rest].
  - apply Permutation_nil_l in Hsort. simpl.
    destruct Hsome as [Hne | Hpos]; [by rewrite <- Hsort in Hne | done].
  - apply Forall_cons in Hall as [Hcur Hrest].
    destruct (decide _) as [Hseen | Hnew].
    + simpl. split; [| done].
      destruct (decide (size (visited st) = 0%nat)) as [Hz | ]; [| lia].
      apply size_empty_iff in Hz. set_solver.
    + assert (size (visited st ∪ {[hashCubeState (cube current)]})
              = S (size (visited st))) as Hsize.
      { rewrite size_union, size_singleton by set_solver. lia. }
      destruct (isGoal (cube current) goal) as [[]|]; [simpl; lia | | done].
      destruct (pushNeighbors _ _ _ _ _ _) as [[[] [frontier hst]]|] eqn:Hpush;
        [| done].
      simpl. split; [lia |].
      eapply pushNeighbors_frontier; [| | exact Hpush].
      * intros move neighbor h _ _. simpl. rewrite length_app. simpl. lia.
      * eapply Forall_impl; [exact Hrest |]. simpl. intros n Hn. lia.
Qed.

(** X16. A solution is shorter than the count of explored states: whenever
    [solveCube] resolves, [moves] has fewer entries than [statesExplored]
    says; in particular [statesExplored] is at least 1. *)
Theorem solveCube_solution_shorter_than_explored (genAI : option Oracle)
    (globals : HeuristicState) (turns : nat)
    (scrambledCube goalCube : CubeState) (result : SolveResult) :
  solveCube genAI globals turns scrambledCube goalCube = Resolved result →
  (length (resultMoves result) < statesExplored result)%nat.
Proof.
  unfold solveCube, initialSearch.
  destruct (getSmartHeuristic _ _ _ _) as [[h hst]|]; [| done].
  match goal with |- context [runSearch _ _ _ ?st0] => set (st := st0) end.
  assert ((openSet st ≠ [] ∨ 0 < size (visited st))%nat
          ∧ Forall (λ n, length (moves n) ≤ size (visited st))%nat
                   (openSet st)) as Hinv.
  { split; [by left |]. repeat constructor. }
  clearbody st. revert st Hinv.
  induction turns as [|turns IH]; intros st [Hsome Hall]; simpl; [done |].
  pose proof (processNextState_path_below_visited genAI goalCube st Hsome Hall)
    as Hstep.
  destruct (processNextState genAI goalCube st) as [r|st'|]; [| | done].
  - by intros [= <-].
  - apply IH. destruct Hstep. split; [by right | done].
Qed.

Lemma solveCube_solution_shorter_than_explored_witness :
  (length (resultMoves {| resultMoves := ["R'"]%string;
                          statesExplored := 2 |})
   < statesExplored {| resultMoves := ["R'"]%string;
                       statesExplored := 2 |})%nat.
Proof.
  apply (solveCube_solution_shorter_than_explored None freshHeuristics 2
           solvedAfterR createSolvedCube).
  vm_compute. reflexivity.
Defined.

(** ** The search finds the goal *)

Lemma hashCubeState_separates (s1 s2 : CubeState) :
  wellFormed s1 → wellFormed s2 → digitState s1 → digitState s2 →
  hashCubeState s1 = hashCubeState s2 → s1 = s2.
Proof.
  intros [Hlen1 _] [Hlen2 _] Hd1 Hd2.
  destruct s1 as [|face1 s1], s2 as [|face2 s2]; try discriminate.
  by apply hashCubeState_injective.
Qed.

Lemma Forall_join_inv {A} (P : A → Prop) (ls : list (list A)) :
  Forall P (mjoin ls) → Forall (Forall P) ls.
Proof.
  induction ls as [|l ls IH]; simpl; [constructor |].
  intros [Hl Hls]%Forall_app. constructor; [done | by apply IH].
Qed.

Lemma digitState_arranged (start s : CubeState) :
  digitState start → facelets s ≡ₚ facelets start → digitState s.
Proof.
  intros Hd Hperm. apply Forall_join_inv. unfold facelets in Hperm.
  rewrite Hperm. by apply Forall_join.
Qed.

Lemma pushNeighbors_covers (genAI : option Oracle) (goal : CubeState)
    (current : State) (seen : gset string) (todo : list string)
    (frontier frontier' : list State) (hst hst' : HeuristicState) :
  pushNeighbors genAI goal current seen todo (frontier, hst)
  = Some (tt, (frontier', hst')) →
  (∀ n, n ∈ frontier → n ∈ frontier')
  ∧ ∀ m c, m ∈ todo → applyMove (cube current) m = Some c →
           hashCubeState c ∈ seen ∨ ∃ n, n ∈ frontier' ∧ cube n = c.
Proof.
  revert frontier hst.
  induction todo as [|move todo IH]; intros frontier hst; simpl.
  - intros [= <- <-]. split; [done |]. by intros m c ?%elem_of_nil.
  - destruct (applyMove (cube current) move) as [neighbor|] eqn:Hmove;
      [| done].
    destruct (decide (hashCubeState neighbor ∉ seen)) as [Hnew | Hseen].
    + destruct (getSmartHeuristic _ _ _ _) as [[h hst1]|]; [| done].
      intros [Hmono Hcov]%IH. split.
      * intros n Hn. apply Hmono. apply elem_of_app. by left.
      * intros m c [-> | Hm]%elem_of_cons Hc; [| by eapply Hcov].
        right. eexists. split.
        -- apply Hmono. apply elem_of_app. right. by left.
        -- simpl. congruence.
    + intros [Hmono Hcov]%IH. split; [done |].
      intros m c [-> | Hm]%elem_of_cons Hc; [| by eapply Hcov].
      left. apply dec_stable in Hseen. congruence.
Qed.

Section Completeness.
Variables (genAI : option Oracle) (start goal : CubeState).
Hypothesis start_wellFormed : wellFormed start.
Hypothesis start_digits : digitState start.
Variable path : list string.
Hypothesis path_valid : Forall (λ m, m ∈ validMoves) path.
Hypothesis path_leads : applyMoves start path = Some goal.

Lemma goal_arranged : wellFormed goal ∧ facelets goal ≡ₚ facelets start.
Proof.
  destruct (applyMoves_total path start start_wellFormed)
    as (s' & Hs' & Hwf & Hperm).
  rewrite path_leads in Hs'. by injection Hs' as <-.
Qed.

(** With the frontier empty, the keys of everything reachable are
    visited. *)
Lemma closed_reachable (expanded : list CubeState) (st : SearchState)
    (ms : list string) (t u : CubeState) :
  closedUnder start goal expanded st → openSet st = [] →
  wellFormed t → facelets t ≡ₚ facelets start →
  hashCubeState t ∈ visited st →
  Forall (λ m, m ∈ validMoves) ms →
  applyMoves t ms = Some u →
  hashCubeState u ∈ visited st.
Proof.
  intros [Hkeys Hstates Hmoves Hstart] Hempty.
  revert t. induction ms as [|m ms IH]; intros t Hwf Hperm Ht Hms; simpl.
  - by intros [= <-].
  - apply Forall_cons in Hms as [Hm Hms].
    destruct (applyMove_total t m Hwf) as (c & Hc & Hwfc & Hpermc).
    rewrite Hc. apply IH; [done | by etrans | | done].
    rewrite Hkeys in Ht.
    apply elem_of_list_to_set, list_elem_of_fmap in Ht as (v & Hv & Hin).
    rewrite Forall_forall in Hstates.
    destruct (Hstates v Hin) as (Hwfv & Hpermv & _).
    assert (v = t) as ->.
    { apply hashCubeState_separates; try done.
      - by eapply digitState_arranged.
      - by eapply digitState_arranged. }
    destruct (Hmoves t m c Hin Hm Hc) as [Hseen | (n & Hn & _)]; [done |].
    rewrite Hempty in Hn. by apply elem_of_nil in Hn.
Qed.

(** So the frontier does not run out before the goal is popped. *)
Lemma closed_not_exhausted (expanded : list CubeState) (st : SearchState) :
  closedUnder start goal expanded st → openSet st ≠ [].
Proof.
  intros Hclosed Hempty.
  destruct goal_arranged as [Hwfg Hpermg].
  assert (hashCubeState goal ∈ visited st) as Hgoal.
  { eapply (closed_reachable expanded st path start goal); try done.
    destruct Hclosed as [_ _ _ [Hs | (n & Hn & _)]]; [done |].
    rewrite Hempty in Hn. by apply elem_of_nil in Hn. }
  destruct Hclosed as [Hkeys Hstates _ _]. rewrite Hkeys in Hgoal.
  apply elem_of_list_to_set, list_elem_of_fmap in Hgoal as (v & Hv & Hin).
  rewrite Forall_forall in Hstates.
  destruct (Hstates v Hin) as (Hwfv & Hpermv & Hne).
  apply Hne. symmetry. apply hashCubeState_separates; try done.
  - by eapply digitState_arranged.
  - by eapply digitState_arranged.
Qed.

Lemma processNextState_closed (expanded : list CubeState) (st : SearchState) :
  Forall (arranged start) (openSet st) →
  Forall (pathTo start) (openSet st) →
  closedUnder start goal expanded st →
  match processNextState genAI goal st with
  | Resolve result => applyMoves start (resultMoves result) = Some goal
  | Reschedule st' =>
      Forall (arranged start) (openSet st')
      ∧ Forall (pathTo start) (openSet st')
      ∧ ∃ expanded', closedUnder start goal expanded' st'
  | Raise => False
  end.
Proof.
  intros Harr Hpath Hclosed.
  pose proof (closed_not_exhausted expanded st Hclosed) as Hne.
  destruct goal_arranged as [Hwfg Hpermg].
  pose proof (processNextState_pathTo genAI start goal st Hpath) as Hp.
  pose proof (processNextState_progress genAI start goal st Hwfg Harr) as Hq.
  unfold processNextState in *.
  pose proof (sortByF_Permutation (openSet st)) as Hsort.
  rewrite <- Hsort in Harr, Hpath.
  destruct (sortByF (openSet st)) as [|current rest].
  { apply Permutation_nil_l in Hsort. by destruct Hne. }
  apply Forall_cons in Harr as [[Hwfc Hpermc] Harr].
  apply Forall_cons in Hpath as [Hpathc Hpath].
  assert (∀ n, n ∈ openSet st → n = current ∨ n ∈ rest) as Hsplit.
  { intros n Hn. rewrite <- Hsort in Hn. by apply elem_of_cons in Hn. }
  destruct Hclosed as [Hkeys Hstates Hmoves Hstart].
  destruct (decide (hashCubeState (cube current) ∈ visited st))
    as [Hseen | Hnew].
  - split; [done |]. split; [done |]. exists expanded.
    split; simpl; [done | done | |].
    + intros v m c Hv Hm Hc.
      destruct (Hmoves v m c Hv Hm Hc) as [? | (n & Hn & Hcn)]; [by left |].
      destruct (Hsplit n Hn) as [-> | Hin]; [left; by rewrite <- Hcn | eauto].
    + destruct Hstart as [? | (n & Hn & Hcn)]; [by left |].
      destruct (Hsplit n Hn) as [-> | Hin]; [left; by rewrite <- Hcn | eauto].
  - destruct (isGoal (cube current) goal) as [[]|] eqn:Hgoal; [| | done].
    + apply isGoal_true_iff in Hgoal; [| done | done]. simpl.
      by rewrite <- Hgoal.
    + assert (cube current ≠ goal) as Hnot.
      { intros Heq. apply isGoal_true_iff in Heq; [| done | done].
        congruence. }
      destruct (pushNeighbors genAI goal current _ validMoves
                  (rest, heuristics st))
        as [[[] [frontier hst]]|] eqn:Hpush; [| done].
      destruct Hq as [Harr' _]. simpl in Hp, Harr'.
      apply pushNeighbors_covers in Hpush as [Hmono Hcov].
      split; [done |]. split; [done |]. exists (cube current :: expanded).
      split; simpl.
      * rewrite Hkeys. set_solver.
      * by constructor.
      * intros v m c [-> | Hv]%elem_of_cons Hm Hc.
        -- by apply (Hcov m c).
        -- destruct (Hmoves v m c Hv Hm Hc) as [? | (n & Hn & Hcn)];
             [left; set_solver |].
           destruct (Hsplit n Hn) as [-> | Hin].
           ++ left. rewrite <- Hcn. set_solver.
           ++ right. exists n. split; [by apply Hmono | done].
      * destruct Hstart as [? | (n & Hn & Hcn)]; [left; set_solver |].
        destruct (Hsplit n Hn) as [-> | Hin].
        -- left. rewrite <- Hcn. set_solver.
        -- right. exists n. split; [by apply Hmono | done].
Qed.

Lemma runSearch_closed (turns : nat) (expanded : list CubeState)
    (st : SearchState) (result : SolveResult) :
  Forall (arranged start) (openSet st) →
  Forall (pathTo start) (openSet st) →
  closedUnder start goal expanded st →
  runSearch genAI goal turns st = Resolved result →
  applyMoves start (resultMoves result) = Some goal.
Proof.
  revert expanded st.
  induction turns as [|turns IH]; intros expanded st Harr Hpath Hclosed;
    simpl; [done |].
  pose proof (processNextState_closed expanded st Harr Hpath Hclosed) as Hstep.
  destruct (processNextState genAI goal st) as [r|st'|]; [| | done].
  - by intros [= <-].
  - destruct Hstep as (Harr' & Hpath' & expanded' & Hclosed'). by eapply IH.
Qed.

Lemma solveCube_complete (globals : HeuristicState) :
  ∃ turns result,
    solveCube genAI globals turns start goal = Resolved result
    ∧ applyMoves start (resultMoves result) = Some goal.
Proof.
  destruct goal_arranged as [Hwfg Hpermg].
  destruct (initialSearch_total genAI globals start goal start_wellFormed Hwfg)
    as (st & Hinit & Harr).
  destruct (initialSearch_pathTo genAI globals start goal st Hinit)
    as [Hpath Hempty].
  destruct (runSearch_resolves genAI start goal Hwfg _ _ st Harr eq_refl
              eq_refl) as (turns & result & Hrun).
  exists turns, result. unfold solveCube. rewrite Hinit. split; [done |].
  eapply (runSearch_closed turns [] st); try done.
  split.
  - by rewrite Hempty.
  - constructor.
  - by intros v m c ?%elem_of_nil.
  - right. unfold initialSearch in Hinit.
    destruct (getSmartHeuristic _ _ _ _) as [[h hst]|]; [| done].
    injection Hinit as <-. simpl. eexists. split; [by left | done].
Qed.
End Completeness.

(** X17. The search finds a goal that can be reached: from a well-formed
    start state of one-digit facelets, when some sequence of moves of the
    vocabulary leads to the goal, [solveCube] resolves, whatever the oracle
    answers, with moves that lead from the start to the goal. *)
Theorem solveCube_finds_reachable_goal (genAI : option Oracle)
    (globals : HeuristicState) (start goal : CubeState)
    (path : list string) :
  wellFormed start → digitState start →
  Forall (λ m, m ∈ validMoves) path →
  applyMoves start path = Some goal →
  ∃ turns result,
    solveCube genAI globals turns start goal = Resolved result
    ∧ applyMoves start (resultMoves result) = Some goal.
Proof. intros. by eapply solveCube_complete. Qed.

Lemma solveCube_finds_reachable_goal_witness :
  ∃ turns result,
    solveCube None freshHeuristics turns solvedAfterR createSolvedCube
    = Resolved result
    ∧ applyMoves solvedAfterR (resultMoves result) = Some createSolvedCube.
Proof.
  apply (solveCube_finds_reachable_goal None freshHeuristics solvedAfterR
           createSolvedCube ["R'"]%string).
  - apply wellFormed_solvedAfterR.
  - unfold digitState. repeat constructor; simpl; lia.
  - unfold validMoves. repeat constructor.
  - vm_compute. reflexivity.
Defined.

(** ** Scrambling, and solving a scramble *)

Lemma scrambleCube_spec (draws : nat → fin 12) (count : nat) :
  ∃ scrambled applied,
    scrambleCube draws count = Some (scrambled, applied)
    ∧ length applied = count
    ∧ Forall (λ m, m ∈ validMoves) applied
    ∧ applyMoves createSolvedCube applied = Some scrambled
    ∧ wellFormed scrambled
    ∧ facelets scrambled ≡ₚ facelets createSolvedCube.
Proof.
  destruct (scrambleFrom_total draws count 0 createSolvedCube []
              wellFormed_solved) as (scrambled & applied & Hrun & Hwf & Hlen).
  exists scrambled, applied. split; [done |]. split; [done |].
  apply scrambleFrom_spec in Hrun as (more & -> & Hvalid & Hmore).
  split; [done |]. split; [done |]. split; [done |].
  destruct (applyMoves_total more createSolvedCube wellFormed_solved)
    as (s' & Hs' & _ & Hperm).
  rewrite Hmore in Hs'. by injection Hs' as <-.
Qed.

(** X18. A scramble is replayable: whatever the random draws, [scrambleCube]
    returns a state and as many moves as asked for, all of the vocabulary;
    applying the returned moves to the solved cube gives the returned state,
    which is well-formed and has the facelets of the solved cube,
    rearranged. *)
Theorem scrambleCube_returns_its_own_moves (draws : nat → fin 12)
    (count : nat) :
  ∃ scrambled applied,
    scrambleCube draws count = Some (scrambled, applied)
    ∧ length applied = count
    ∧ Forall (λ m, m ∈ validMoves) applied
    ∧ applyMoves createSolvedCube applied = Some scrambled
    ∧ wellFormed scrambled
    ∧ facelets scrambled ≡ₚ facelets createSolvedCube.
Proof. apply scrambleCube_spec. Qed.

(** X19. Every scramble is solved: whatever the random draws and the
    oracle, the search from the scrambled state to the solved cube resolves
    with moves that lead from the one to the other. *)
Theorem solveCube_solves_every_scramble (genAI : option Oracle)
    (globals : HeuristicState) (draws : nat → fin 12) (count : nat) :
  ∃ scrambled applied turns result,
    scrambleCube draws count = Some (scrambled, applied)
    ∧ solveCube genAI globals turns scrambled createSolvedCube
      = Resolved result
    ∧ applyMoves scrambled (resultMoves result) = Some createSolvedCube.
Proof.
  destruct (scrambleCube_spec draws count)
    as (scrambled & applied & Hrun & _ & Hvalid & Hreplay & Hwf & Hperm).
  destruct (applyMoves_undo applied createSolvedCube scrambled
              wellFormed_solved Hvalid Hreplay) as [Hback Hvalid'].
  destruct (solveCube_complete genAI scrambled createSolvedCube Hwf
              (digitState_arranged _ _ digitState_solved Hperm)
              _ Hvalid' Hback globals) as (turns & result & Hsolve & Hmoves).
  by exists scrambled, applied, turns, result.
Qed.

(** * The renderer *)

Ltac split_any x l :=
  lazymatch l with
  | x :: ?l2 =>
      lazymatch type of x with
      | ?T => constr:((@nil T, l2))
      end
  | ?y :: ?l' =>
      let r := split_any x l' in
      lazymatch r with
      | (?l1, ?l2) => constr:((y :: l1, l2))
      end
  end.

Ltac rearranged_any :=
  repeat first
    [ reflexivity
    | apply Permutation_skip
    | lazymatch goal with
      | |- ?x :: ?l ≡ₚ ?r =>
          let p := split_any x r in
          lazymatch p with
          | (?l1, ?l2) =>
              change r with (l1 ++ x :: l2);
              apply Permutation_cons_app; simpl
          end
      end ].

Ltac all_numbers H :=
  repeat match goal with
         | H : Forall _ (_ :: _) |- _ => apply Forall_cons in H as [? H]
         end;
  repeat match goal with
         | Hv : ?v ≠ VUndef |- _ =>
             is_var v; destruct v as [?|]; [clear Hv | by destruct Hv]
         end.

(** X20. Every facelet is drawn once: for a well-formed state whose facelets
    all hold numbers, the loops of the renderer return 26 cubelets, each
    with as many stickers as it has sides on the surface, and the colours
    of all the stickers are the colours [COLORS[v]] of the 54 facelets [v],
    rearranged. *)
Theorem every_facelet_is_drawn_once (s : CubeState) :
  wellFormed s → allNumbers s →
  ∃ drawn,
    cubelets s = Some drawn
    ∧ length drawn = 26%nat
    ∧ Forall (λ c, length (stickers c) = exposed (place c)) drawn
    ∧ (drawn ≫= stickers).*2 ≡ₚ colorOf <$> facelets s.
Proof.
  intros Hwf Hnum. open_cube s Hwf. unfold allNumbers in Hnum.
  all_numbers Hnum.
  eexists. split; [reflexivity |].
  split; [vm_compute; reflexivity |]. split.
  - repeat (constructor; [vm_compute; reflexivity |]). constructor.
  - vm_compute.
    repeat match goal with
           | z : Z |- _ =>
               let paint := eval vm_compute in (colorOf (VNum z)) in
               generalize paint; intros ?; clear z
           end.
    rearranged_any.
Qed.

Lemma every_facelet_is_drawn_once_witness :
  ∃ drawn,
    cubelets solvedAfterR = Some drawn
    ∧ length drawn = 26%nat
    ∧ Forall (λ c, length (stickers c) = exposed (place c)) drawn
    ∧ (drawn ≫= stickers).*2 ≡ₚ colorOf <$> facelets solvedAfterR.
Proof.
  apply (every_facelet_is_drawn_once solvedAfterR).
  - apply wellFormed_solvedAfterR.
  - unfold allNumbers. repeat constructor; done.
Defined.

Ltac each_place Hp :=
  vm_compute in Hp;
  repeat (apply elem_of_cons in Hp as [-> | Hp]);
  [ .. | by apply elem_of_nil in Hp ].

Ltac in_layer_or H tac :=
  lazymatch type of H with
  | ¬ ?P =>
      let b := eval vm_compute in (bool_decide P) in
      lazymatch b with
      | true => exfalso; apply H; apply (bool_decide_unpack _); vm_compute; exact I
      | false => tac
      end
  | ?P =>
      let b := eval vm_compute in (bool_decide P) in
      lazymatch b with
      | true => tac
      | false =>
          exfalso; apply (bool_decide_pack _) in H; vm_compute in H; exact H
      end
  end.

(** X21. A move turns only its layer: after a move of the vocabulary on a
    well-formed state, the renderer draws every cubelet outside the layer of
    the move's face as it drew it before. *)
Theorem move_recolours_only_its_layer (s s' : CubeState) (move : string)
    (p : Z * Z * Z) :
  wellFormed s → move ∈ validMoves → applyMove s move = Some s' →
  p ∈ places → ¬ layer move p →
  drawnAt s' p = drawnAt s p.
Proof.
  intros Hwf Hm Hmove Hp Hout. open_cube s Hwf. unfold validMoves in Hm.
  each_case Hm;
    (vm_compute in Hmove; injection Hmove as <-;
     each_place Hp; in_layer_or Hout ltac:(vm_compute; reflexivity)).
Qed.

Lemma move_recolours_only_its_layer_witness :
  drawnAt solvedAfterR (-1, 1, 0) = drawnAt createSolvedCube (-1, 1, 0).
Proof.
  apply (move_recolours_only_its_layer createSolvedCube solvedAfterR "R").
  - apply wellFormed_solved.
  - set_solver.
  - vm_compute. reflexivity.
  - set_solver.
  - intros Hin. apply (bool_decide_pack _) in Hin. vm_compute in Hin.
    exact Hin.
Defined.

Ltac each_side H :=
  repeat (apply elem_of_cons in H as [H | H];
          [ try (vm_compute in H; discriminate H); injection H as -> | ]);
  [ .. | by apply elem_of_nil in H ].

(** X22. A quarter turn is the rotation of its layer: after [U], [D], [R]
    or [L] on a well-formed state, the cubelet the renderer draws at the
    rotated place of the layer shows, on the side a side is rotated to, what
    the cubelet at the place showed on that side before.  The rotation is
    the quarter turn about the axis of the face, clockwise when one looks
    at the face. *)
Theorem quarter_turn_rotates_its_layer (s s' : CubeState) (move : string)
    (p n : Z * Z * Z) (side side' : string) :
  wellFormed s → move ∈ quarterTurns → applyMove s move = Some s' →
  p ∈ places → layer move p →
  (side, n) ∈ sides → (side', rotation move n) ∈ sides →
  shown s' (rotation move p) side' = shown s p side.
Proof.
  intros Hwf Hm Hmove Hp Hin Hside Hside'. open_cube s Hwf.
  unfold quarterTurns in Hm. unfold sides in Hside.
  each_case Hm;
    (vm_compute in Hmove; injection Hmove as <-;
     repeat (apply elem_of_cons in Hside as [[= -> ->] | Hside]);
     [ .. | by apply elem_of_nil in Hside ];
     unfold sides in Hside'; each_side Hside';
     each_place Hp; in_layer_or Hin ltac:(vm_compute; reflexivity)).
Qed.

Lemma quarter_turn_rotates_its_layer_witness :
  shown solvedAfterR (rotation "R" (1, 1, 1)) "top"
  = shown createSolvedCube (1, 1, 1) "front".
Proof.
  apply (quarter_turn_rotates_its_layer createSolvedCube solvedAfterR "R"
           (1, 1, 1) (0, 0, 1)).
  - apply wellFormed_solved.
  - set_solver.
  - vm_compute. reflexivity.
  - set_solver.
  - apply (bool_decide_unpack _). vm_compute. exact I.
  - set_solver.
  - vm_compute rotation. set_solver.
Defined.

(** * The manual move input *)

Lemma filter_first {A} (P : A → Prop) `{∀ x, Decision (P x)} (x : A)
    (l : list A) :
  filter P (x :: l) = filter P [x] ++ filter P l.
Proof. apply (filter_app P [x] l). Qed.

Lemma splitFrom_flag (s : string) :
  filter truthy (splitFrom s "" true) = filter truthy (splitFrom s "" false).
Proof.
  destruct s as [|c s]; simpl; [done |].
  destruct (isSpace c); [| done].
  by rewrite filter_cons_False by (by intros []).
Qed.

Lemma splitFrom_at_space (a b piece : string) (c : ascii) (inSpaces : bool) :
  isSpace c = true → (inSpaces = true → piece = ""%string) →
  filter truthy (splitFrom (a ++ String c b) piece inSpaces)
  = filter truthy (splitFrom a piece inSpaces)
    ++ filter truthy (splitFrom b "" true).
Proof.
  intros Hc. revert piece inSpaces.
  induction a as [|d a IH]; intros piece inSpaces Hinv.
  - rewrite append_empty_l. simpl. rewrite Hc. destruct inSpaces.
    + rewrite (Hinv eq_refl). by rewrite filter_cons_False by (by intros []).
    + apply filter_first.
  - rewrite append_String. simpl. destruct (isSpace d).
    + destruct inSpaces; [by apply IH |].
      by rewrite !(filter_first _ piece (splitFrom _ _ _)), IH, app_assoc.
    + by apply IH.
Qed.

Lemma splitFrom_trimStart (s : string) :
  filter truthy (splitSpaces (trimStart s)) = filter truthy (splitSpaces s).
Proof.
  unfold splitSpaces. induction s as [|c s IH]; simpl; [done |].
  destruct (isSpace c) eqn:Hc; simpl; [| by rewrite Hc].
  rewrite filter_cons_False by (by intros []).
  by rewrite IH, splitFrom_flag.
Qed.

Lemma splitFrom_trimEnd (s piece : string) (inSpaces : bool) :
  (inSpaces = true → piece = ""%string) →
  filter truthy (splitFrom (trimEnd s) piece inSpaces)
  = filter truthy (splitFrom s piece inSpaces).
Proof.
  revert piece inSpaces.
  induction s as [|c s IH]; intros piece inSpaces Hinv; [done |].
  simpl trimEnd. destruct (trimEnd s) as [|d t] eqn:Ht.
  - assert (∀ q b, (b = true → q = ""%string) →
              filter truthy [q] = filter truthy (splitFrom s q b)) as Hs
      by (intros q b Hq; by apply (IH q b)).
    destruct (isSpace c) eqn:Hc; cbn [splitFrom]; rewrite Hc.
    + destruct inSpaces; [by apply Hs |].
      rewrite (filter_first _ piece (splitFrom s "" true)).
      rewrite <- (Hs ""%string true) by done.
      rewrite (filter_cons_False _ ""%string) by (by intros []).
      by rewrite app_nil_r.
    + by apply Hs.
  - remember (String d t) as u eqn:Hu. clear Hu.
    cbn [splitFrom]. destruct (isSpace c).
    + destruct inSpaces; [by apply IH |].
      by rewrite !(filter_first _ piece (splitFrom _ _ _)), IH.
    + by apply IH.
Qed.

Lemma inputMoves_untrimmed (s : string) :
  inputMoves s = filter truthy (splitSpaces s).
Proof.
  unfold inputMoves, trim, splitSpaces.
  rewrite splitFrom_trimEnd by done. apply splitFrom_trimStart.
Qed.

Lemma splitFrom_word (w piece : string) :
  noSpace w = true → splitFrom w piece false = [(piece ++ w)%string].
Proof.
  revert piece. induction w as [|c w IH]; intros piece; simpl.
  - by rewrite append_empty_r.
  - intros [Hc Hw]%andb_prop. apply negb_true_iff in Hc. rewrite Hc.
    by rewrite IH, append_assoc.
Qed.

Lemma inputMoves_at_space (a b : string) (c : ascii) :
  isSpace c = true →
  inputMoves (a ++ String c b) = inputMoves a ++ inputMoves b.
Proof.
  intros Hc. rewrite !inputMoves_untrimmed. unfold splitSpaces.
  rewrite splitFrom_at_space by done. by rewrite splitFrom_flag.
Qed.

Lemma inputMoves_word (w : string) :
  noSpace w = true → w ≠ ""%string → inputMoves w = [w].
Proof.
  intros Hw Hne. rewrite inputMoves_untrimmed. unfold splitSpaces.
  rewrite splitFrom_word, append_empty_l by done.
  by rewrite filter_cons_True.
Qed.



Lemma validMoves_words (m : string) :
  m ∈ validMoves → noSpace m = true ∧ m ≠ ""%string.
Proof. unfold validMoves. intros Hm. each_case Hm; done. Qed.

Lemma inputMoves_joined (ms : list string) :
  Forall (λ m, m ∈ validMoves) ms →
  inputMoves (String.concat " " ms) = ms.
Proof.
  induction ms as [|m ms IH]; [done |].
  intros [Hm Hms]%Forall_cons.
  destruct (validMoves_words m Hm) as [Hw Hne].
  destruct ms as [|m' ms]; [by apply inputMoves_word |].
  change (String.concat " " (m :: m' :: ms))
    with (m ++ String " " (String.concat " " (m' :: ms)))%string.
  rewrite inputMoves_at_space by done.
  by rewrite inputMoves_word, IH.
Qed.



(** X25. Typing a sequence of moves applies it: for moves of the
    vocabulary written with one space between them, the manual input gives
    the state [applyMove] gives move after move. *)
Theorem handleManualMoveInput_of_joined_moves (ms : list string)
    (cubeState : CubeState) :
  Forall (λ m, m ∈ validMoves) ms →
  handleManualMoveInput (String.concat " " ms) cubeState
  = applyMoves cubeState ms.
Proof.
  intros Hms. unfold handleManualMoveInput.
  rewrite inputMoves_joined by done. rewrite manualMoves_skips_unknown.
  f_equal. induction Hms as [|m ms Hm Hms IH]; [done |].
  by rewrite filter_cons_True, IH.
Qed.

Lemma handleManualMoveInput_of_joined_moves_witness :
  handleManualMoveInput (String.concat " " ["R"; "U'"; "L2"]%string)
    createSolvedCube
  = applyMoves createSolvedCube ["R"; "U'"; "L2"]%string.
Proof.
  apply (handleManualMoveInput_of_joined_moves ["R"; "U'"; "L2"]%string).
  unfold validMoves. repeat constructor.
Defined.

(** * The page: playing a solution *)

Lemma playingOf_wellFormed (start : CubeState) (sol : list string)
    (pl : Player) :
  wellFormed start → playingOf start sol pl →
  wellFormed (cubeState (page pl)).
Proof.
  intros Hwf [_ _ Hcube _].
  destruct (applyMoves_total
              (take (Z.to_nat (currentMoveIndex (page pl) + 1)) sol)
              start Hwf) as (s' & Hs' & Hwf' & _).
  rewrite Hcube in Hs'. by injection Hs' as <-.
Qed.

Lemma handlePlaySolution_playingOf (start : CubeState) (sol : list string)
    (pl : Player) :
  playingOf start sol pl → playingOf start sol (handlePlaySolution pl).
Proof.
  intros [Hsol Hidx Hcube Htimer]. unfold handlePlaySolution.
  destruct (decide _) as [Hempty | Hsome]; [done |].
  destruct Htimer as [[Hnone Hoff] | (t & Hone & Href & Hon & Hplay & Hnext)].
  - rewrite Hoff. split; simpl; [done | done | done |].
    right. eexists. rewrite Hnone. by repeat split.
  - rewrite Hon. split; simpl; [done | done | done |].
    left. split; [| done]. rewrite Hone, Href. simpl.
    by rewrite filter_cons_False, filter_nil by (by intros []).
Qed.

(** What the interval does when it fires. *)
Lemma playNext_playingOf (start : CubeState) (sol : list string)
    (pl : Player) (t : Interval) :
  wellFormed start → playingOf start sol pl → intervals pl = [t] →
  ∃ pl', playNext t pl = Some pl' ∧ playingOf start sol pl'
         ∧ if decide (Z.of_nat (length sol) ≤ moveIndex t)
           then intervals pl' = []
                ∧ currentMoveIndex (page pl') = currentMoveIndex (page pl)
           else ∃ t', intervals pl' = [t'] ∧ ident t' = ident t
                      ∧ moveIndex t' = moveIndex t + 1.
Proof.
  intros Hwf Hinv Hone.
  pose proof (playingOf_wellFormed start sol pl Hwf Hinv) as Hwfc.
  destruct Hinv as [Hsol Hidx Hcube Htimer].
  destruct Htimer as [[Hnone _] | (t0 & Hone0 & Href & Hon & Hplay & Hnext)];
    [congruence |].
  assert (t0 = t) as -> by congruence. unfold playNext. rewrite Hplay.
  destruct (decide (Z.of_nat (length sol) ≤ moveIndex t)) as [Hend | Hmore].
  - eexists. split; [done |]. split; [| split; simpl; [| done]].
    + split; simpl; [done | done | done |]. left. split; [| done].
      rewrite Hone, Href. simpl.
      by rewrite filter_cons_False, filter_nil by (by intros []).
    + rewrite Hone, Href. simpl.
      by rewrite filter_cons_False, filter_nil by (by intros []).
  - assert (∃ k, moveIndex t = Z.of_nat k ∧ (k < length sol)%nat) as (k & Hk & Hlt).
    { exists (Z.to_nat (moveIndex t)). lia. }
    destruct (lookup_lt_is_Some_2 sol k Hlt) as [move Hmove].
    assert (moveAt sol (moveIndex t) = move) as ->.
    { unfold moveAt. rewrite decide_True by lia.
      rewrite Hk, Nat2Z.id, Hmove. done. }
    destruct (applyMove_total (cubeState (page pl)) move Hwfc)
      as (newState & Hnew & _ & _).
    rewrite Hnew. simpl. eexists. split; [done |]. split.
    + split; simpl; [done | lia | |].
      * replace (Z.to_nat (moveIndex t + 1)) with (S k) by lia.
        rewrite (take_S_r _ _ _ Hmove), applyMoves_app.
        replace k with (Z.to_nat (currentMoveIndex (page pl) + 1)) by lia.
        rewrite Hcube. simpl. by rewrite Hnew.
      * right. eexists. rewrite Hone. simpl. rewrite decide_True by done.
        by repeat split.
    + eexists. rewrite Hone. simpl. rewrite decide_True by done.
      by repeat split.
Qed.

Lemma handleEvent_playingOf (start : CubeState) (sol : list string)
    (e : Event) (pl : Player) :
  wellFormed start → playingOf start sol pl →
  ∃ pl', handleEvent e pl = Some pl' ∧ playingOf start sol pl'.
Proof.
  intros Hwf Hinv. destruct e as [|i]; simpl.
  - eexists. split; [done |]. by apply handlePlaySolution_playingOf.
  - destruct (list_find _ (intervals pl)) as [[n t]|] eqn:Hfind;
      [| by exists pl].
    assert (intervals pl = [t]) as Hone.
    { apply list_find_Some in Hfind as (Hin & _ & _).
      destruct Hinv as [_ _ _ [[Hnone _] | (t0 & Hone & _)]].
      - by rewrite Hnone in Hin.
      - rewrite Hone in Hin. destruct n as [|n]; [| done].
        injection Hin as <-. done. }
    destruct (playNext_playingOf start sol pl t Hwf Hinv Hone)
      as (pl' & Hnext & Hinv' & _).
    by exists pl'.
Qed.

Lemma handleEvents_playingOf (start : CubeState) (sol : list string)
    (es : list Event) (pl : Player) :
  wellFormed start → playingOf start sol pl →
  ∃ pl', handleEvents es pl = Some pl' ∧ playingOf start sol pl'.
Proof.
  intros Hwf. revert pl. induction es as [|e es IH]; intros pl Hinv; simpl.
  - by exists pl.
  - destruct (handleEvent_playingOf start sol e pl Hwf Hinv)
      as (pl1 & -> & Hinv1).
    by apply IH.
Qed.

Lemma idle_playingOf (p : Page) (ref : option positive)
    (next : positive) :
  isPlaying p = false → currentMoveIndex p = -1 →
  playingOf (cubeState p) (solution p) (idle p ref next).
Proof.
  intros Hoff Hidx. split; simpl.
  - done.
  - by right.
  - by rewrite Hidx.
  - by left.
Qed.

(** X26. The progress shown is the progress made: on a page that holds a
    solution, with nothing played yet, whatever clicks on the play button
    and firings of intervals follow, no handler raises, the solution stays,
    and the cube shown is the cube the page started from with the moves of
    the solution up to [currentMoveIndex] applied; an interval is active
    exactly while [isPlaying] is set. *)
Theorem playback_progress_matches_the_cube (p : Page) (ref : option positive)
    (next : positive) (events : list Event) :
  wellFormed (cubeState p) → isPlaying p = false →
  currentMoveIndex p = -1 →
  ∃ pl,
    handleEvents events (idle p ref next) = Some pl
    ∧ solution (page pl) = solution p
    ∧ applyMoves (cubeState p)
        (take (Z.to_nat (currentMoveIndex (page pl) + 1)) (solution p))
      = Some (cubeState (page pl))
    ∧ (isPlaying (page pl) = false ↔ intervals pl = []).
Proof.
  intros Hwf Hoff Hidx.
  destruct (handleEvents_playingOf (cubeState p) (solution p) events
              (idle p ref next) Hwf (idle_playingOf p ref next Hoff Hidx))
    as (pl & Hrun & [Hsol Hrange Hcube Htimer]).
  exists pl. split; [done |]. split; [done |]. split; [done |].
  destruct Htimer as [[Hnone Hoff'] | (t & Hone & _ & Hon & _)].
  - by rewrite Hnone, Hoff'.
  - rewrite Hone, Hon. by split.
Qed.

Lemma playback_progress_matches_the_cube_witness :
  ∃ pl,
    handleEvents
      [ClickPlay; Fire 1%positive; ClickPlay; Fire 1%positive; ClickPlay;
       Fire 2%positive]
      (idle {| cubeState := solvedAfterR; solution := ["R'"; "U"]%string;
               currentMoveIndex := -1; isPlaying := false;
               isSolving := false; solveStats := None |} None 1%positive)
    = Some pl
    ∧ solution (page pl) = ["R'"; "U"]%string
    ∧ applyMoves solvedAfterR
        (take (Z.to_nat (currentMoveIndex (page pl) + 1))
           ["R'"; "U"]%string)
      = Some (cubeState (page pl))
    ∧ (isPlaying (page pl) = false ↔ intervals pl = []).
Proof.
  apply (playback_progress_matches_the_cube
           {| cubeState := solvedAfterR; solution := ["R'"; "U"]%string;
              currentMoveIndex := -1; isPlaying := false;
              isSolving := false; solveStats := None |} None 1%positive).
  - apply wellFormed_solvedAfterR.
  - reflexivity.
  - reflexivity.
Defined.

(** Once started, the interval plays the solution to its end and stops. *)
Lemma fire_to_the_end (start : CubeState) (sol : list string) (n : nat)
    (pl : Player) (t : Interval) :
  wellFormed start → playingOf start sol pl → intervals pl = [t] →
  Z.of_nat (length sol) - moveIndex t = Z.of_nat n →
  ∃ pl', handleEvents (replicate (S n) (Fire (ident t))) pl = Some pl'
         ∧ playingOf start sol pl' ∧ intervals pl' = []
         ∧ currentMoveIndex (page pl') = Z.of_nat (length sol) - 1.
Proof.
  intros Hwf. revert pl t.
  induction n as [|n IH]; intros pl t Hinv Hone Hleft.
  - destruct (playNext_playingOf start sol pl t Hwf Hinv Hone)
      as (pl' & Hnext & Hinv' & Hstop).
    rewrite decide_True in Hstop by lia. destruct Hstop as [Hnone Hsame].
    exists pl'. simpl. rewrite Hone. simpl. rewrite decide_True by done.
    simpl. rewrite Hnext. split; [done |]. split; [done |]. split; [done |].
    destruct Hinv as [_ _ _ [[Hnone' _] | (t0 & Hone0 & _ & _ & _ & Hidx)]];
      [congruence |].
    assert (t0 = t) as -> by congruence. lia.
  - destruct (playNext_playingOf start sol pl t Hwf Hinv Hone)
      as (pl1 & Hnext & Hinv1 & Hmore).
    rewrite decide_False in Hmore by lia.
    destruct Hmore as (t' & Hone' & Hident & Hidx).
    destruct (IH pl1 t' Hinv1 Hone' ltac:(lia)) as (pl' & Hrun & Hrest).
    exists pl'. split; [| done].
    change (replicate (S (S n)) (Fire (ident t)))
      with (Fire (ident t) :: replicate (S n) (Fire (ident t))).
    cbn [handleEvents handleEvent]. rewrite Hone. simpl list_find.
    rewrite decide_True by done. simpl. rewrite Hnext.
    by rewrite <- Hident.
Qed.

(** X27. Scramble, solve, play: on a page where nothing is played, after
    any scramble the search resolves whatever the oracle answers, and a
    click on the play button followed by one firing of the interval for
    each move of the solution and one more leaves the solved cube on the
    page, with the playing stopped and no interval active. *)
Theorem scramble_solve_play_shows_the_solved_cube (genAI : option Oracle)
    (globals : HeuristicState) (draws : nat → fin 12) (count : nat)
    (p : Page) (ref : option positive)
    (next : positive) :
  isPlaying p = false →
  ∃ scrambled turns solved pl,
    handleScramble draws count p = Some scrambled
    ∧ handleSolve genAI globals turns scrambled = Finished solved
    ∧ handleEvents
        (ClickPlay :: replicate (S (length (solution solved))) (Fire next))
        (idle solved ref next)
      = Some pl
    ∧ cubeState (page pl) = createSolvedCube
    ∧ isPlaying (page pl) = false
    ∧ intervals pl = [].
Proof.
  intros Hoff.
  destruct (scrambleCube_spec draws count)
    as (state & applied & Hrun & _ & Hvalid & Hreplay & Hwf & Hperm).
  unfold handleScramble. rewrite Hrun. simpl. rewrite Hoff.
  set (scrambled := {| cubeState := state; solution := [];
                       currentMoveIndex := -1; isPlaying := false;
                       isSolving := isSolving p; solveStats := None |}).
  destruct (isGoal_total state createSolvedCube Hwf wellFormed_solved)
    as [[] Hgoal].
  - apply isGoal_true_iff in Hgoal as Heq; [| done | apply wellFormed_solved].
    exists scrambled, 0%nat, scrambled, (idle scrambled ref next).
    unfold handleSolve. simpl cubeState. rewrite Hgoal.
    split; [done |]. split; [done |]. by repeat split.
  - destruct (applyMoves_undo applied createSolvedCube state
                wellFormed_solved Hvalid Hreplay) as [Hback Hvalid'].
    destruct (solveCube_complete genAI state createSolvedCube Hwf
                (digitState_arranged _ _ digitState_solved Hperm)
                _ Hvalid' Hback globals) as (turns & result & Hsolve & Hmoves).
    assert (0 < length (resultMoves result))%nat as Hsome.
    { destruct (resultMoves result); simpl; [| lia].
      injection Hmoves as Heq.
      apply (isGoal_true_iff state createSolvedCube Hwf wellFormed_solved)
        in Heq. congruence. }
    set (solved := {| cubeState := state; solution := resultMoves result;
                      currentMoveIndex := -1; isPlaying := false;
                      isSolving := false;
                      solveStats := Some (length (resultMoves result),
                                          statesExplored result) |}).
    assert (playingOf state (resultMoves result)
              (handlePlaySolution (idle solved ref next))) as Hinv.
    { apply handlePlaySolution_playingOf.
      by apply (idle_playingOf solved ref next). }
    destruct (fire_to_the_end state (resultMoves result)
                (length (resultMoves result))
                (handlePlaySolution (idle solved ref next))
                {| ident := next; playing := resultMoves result;
                   moveIndex := -1 + 1 |} Hwf Hinv)
      as (pl & Hplay & [_ _ Hcube Htimer] & Hnone & Hidx).
    { unfold handlePlaySolution. simpl.
      by rewrite decide_False by lia. }
    { simpl. lia. }
    exists scrambled, turns, solved, pl. unfold handleSolve. simpl cubeState.
    rewrite Hgoal, Hsolve, decide_True by done.
    split; [done |]. split; [done |]. split; [exact Hplay |].
    split.
    + rewrite Hidx in Hcube.
      replace (Z.to_nat (Z.of_nat (length (resultMoves result)) - 1 + 1))
        with (length (resultMoves result)) in Hcube by lia.
      rewrite firstn_all in Hcube. congruence.
    + destruct Htimer as [[_ Hstop] | (t & Hone & _)]; [done | congruence].
Qed.

Lemma scramble_solve_play_shows_the_solved_cube_witness :
  ∃ scrambled turns solved pl,
    handleScramble (λ _, 0%fin) 2
      {| cubeState := createSolvedCube; solution := [];
         currentMoveIndex := -1; isPlaying := false; isSolving := false;
         solveStats := None |}
    = Some scrambled
    ∧ handleSolve None freshHeuristics turns scrambled = Finished solved
    ∧ handleEvents
        (ClickPlay
         :: replicate (S (length (solution solved))) (Fire 1%positive))
        (idle solved None 1%positive)
      = Some pl
    ∧ cubeState (page pl) = createSolvedCube
    ∧ isPlaying (page pl) = false
    ∧ intervals pl = [].
Proof.
  apply (scramble_solve_play_shows_the_solved_cube None freshHeuristics
           (λ _, 0%fin) 2
           {| cubeState := createSolvedCube; solution := [];
              currentMoveIndex := -1; isPlaying := false;
              isSolving := false; solveStats := None |} None 1%positive).
  reflexivity.
Defined.


(** * The prompt *)

Lemma formatFacesFrom_raises (cube : CubeState) (i n : nat) (formatted : string) :
  formatFacesFrom cube i n formatted = None
  ↔ (0 < n)%nat ∧ (length cube < i + n)%nat.
Proof.
  revert i formatted. induction n as [|n IH]; intros i formatted; simpl.
  - split; [done | lia].
  - destruct (cube !! i) as [face|] eqn:Hface.
    + apply lookup_lt_Some in Hface. rewrite IH. lia.
    + apply lookup_ge_None in Hface. split; [lia | done].
Qed.

(** X28. When the prompt cannot be written: [formatCubeStateForAI] raises
    exactly on the states of fewer than six faces; faces of any length and
    facelets of any value are written out. *)
Theorem formatCubeStateForAI_raises_iff_face_missing (cube : CubeState) :
  formatCubeStateForAI cube = None ↔ (length cube < 6)%nat.
Proof.
  unfold formatCubeStateForAI. rewrite formatFacesFrom_raises. lia.
Qed.

Lemma formatCubeStateForAI_raises_iff_face_missing_witness :
  formatCubeStateForAI (replicate 5 (replicate 9 (VNum 0))) = None
  ↔ (length (replicate 5 (replicate 9 (VNum 0))) < 6)%nat.
Proof.
  apply (formatCubeStateForAI_raises_iff_face_missing
           (replicate 5 (replicate 9 (VNum 0)))).
Defined.

Lemma isColor_cases (v : value) :
  isColor v → v ∈ VNum <$> [0; 1; 2; 3; 4; 5].
Proof.
  destruct v as [n|]; simpl; [| done]. intros Hn.
  assert (n = 0 ∨ n = 1 ∨ n = 2 ∨ n = 3 ∨ n = 4 ∨ n = 5) as Hcases by lia.
  destruct Hcases as [-> | [-> | [-> | [-> | [-> | ->]]]]]; set_solver.
Qed.

Lemma colorName_letter (v : value) :
  isColor v → colorName v = String (letterOf v) "".
Proof.
  intros Hv%isColor_cases. simpl in Hv. each_case Hv; reflexivity.
Qed.

Lemma letterOf_inj (v w : value) :
  isColor v → isColor w → letterOf v = letterOf w → v = w.
Proof.
  intros Hv%isColor_cases Hw%isColor_cases. simpl in Hv, Hw.
  each_case Hv; each_case Hw; (reflexivity || discriminate).
Qed.

(** X29. The prompt tells the states apart: two well-formed states whose
    facelets hold colours and that [formatCubeStateForAI] writes the same
    are the same state. *)
Theorem formatCubeStateForAI_tells_states_apart (s1 s2 : CubeState) :
  wellFormed s1 → wellFormed s2 → colorState s1 → colorState s2 →
  formatCubeStateForAI s1 = formatCubeStateForAI s2 → s1 = s2.
Proof.
  intros Hwf1 Hwf2 Hc1 Hc2 Hsame. open_cube s1 Hwf1. open_cube s2 Hwf2.
  unfold colorState in Hc1, Hc2.
  repeat match goal with
         | H : Forall _ (_ :: _) |- _ => apply Forall_cons in H as [? H]
         end.
  lazy -[colorName String.append] in Hsame.
  rewrite !colorName_letter in Hsame by assumption.
  lazy [String.append] in Hsame.
  injection Hsame as Hsame.
  repeat match goal with
         | H : String _ _ = String _ _ |- _ => injection H as ? H
         | H : letterOf _ = letterOf _ |- _ =>
             apply letterOf_inj in H; [subst | assumption | assumption]
         end.
  reflexivity.
Qed.

Lemma formatCubeStateForAI_tells_states_apart_witness :
  createSolvedCube = createSolvedCube.
Proof.
  apply (formatCubeStateForAI_tells_states_apart createSolvedCube
           createSolvedCube).
  - apply wellFormed_solved.
  - apply wellFormed_solved.
  - unfold colorState. repeat constructor; simpl; lia.
  - unfold colorState. repeat constructor; simpl; lia.
  - reflexivity.
Defined.
